(** * Movie dashboard (app.py): loader, filter engine and aggregator

    A shallow embedding of the data pipeline of [app.py]: [load_data], the
    sidebar filters ([years], [all_genres], [filtered_df]) and the values fed
    to the three metrics, the rating-by-year line chart, the top-10 bar
    chart, the genre pie chart and the scatter plot.  Theme, layout, chart
    rendering and the download button are left out.

    Conventions of the model.
    - A Python [str] is a list of Unicode code points ([pystr]).
    - A float64 is a rational, an infinity or NaN ([fl]).  Every arithmetic
      operation rounds its exact result to the nearest binary64, ties to
      even, and overflows to an infinity ([b64]), so the finite values that
      arithmetic produces are exactly the binary64 values.  The sign of zero
      is not represented.
    - An int64 is an integer; arithmetic on it wraps around ([wrap64]).
    - A pandas frame is a list of rows in frame order; every row carries the
      index label [read_excel] gave it, which pandas keeps through [dropna]
      and boolean indexing.
    - pandas / numpy primitives ([isin], [dropna], [mean], [nlargest],
      [value_counts], ...) are given by small executable definitions written
      from their documented behaviour, that of pandas 2 on numpy 1.24 or
      later. *)

From Stdlib Require Import ZArith QArith Qround Qabs Qpower Lqa Lia Bool Ascii String.
From Stdlib Require Import Permutation Sorted.
From stdpp Require Import base list sorting.
From Stdlib Require DecimalNat.

#[local] Open Scope Z_scope.

(** ** Python strings *)

Definition pystr := list N.

(** A literal: the code points of an ASCII string. *)
Definition py (s : string) : pystr := map N_of_ascii (list_ascii_of_string s).

(** [str.isspace] on one code point (the Unicode white-space table CPython
    uses for [str.strip()]). *)
Definition is_space (c : N) : bool :=
  ((9 <=? c) && (c <=? 13) || (28 <=? c) && (c <=? 32)
   || (c =? 133) || (c =? 160) || (c =? 5760)
   || (8192 <=? c) && (c <=? 8202)
   || (c =? 8232) || (c =? 8233) || (c =? 8239) || (c =? 8287)
   || (c =? 12288))%N.

Fixpoint lstrip (s : pystr) : pystr :=
  match s with
  | [] => []
  | c :: s' => if is_space c then lstrip s' else s
  end.

Definition rstrip (s : pystr) : pystr := rev (lstrip (rev s)).

(** [s.strip()] *)
Definition strip (s : pystr) : pystr := rstrip (lstrip s).

(** [s.split(sep)] for a one-character separator: never an empty list. *)
Fixpoint split_on (sep : N) (s : pystr) : list pystr :=
  match s with
  | [] => [[]]
  | c :: s' =>
      if (c =? sep)%N then [] :: split_on sep s'
      else match split_on sep s' with
           | [] => [[c]]
           | t :: ts => (c :: t) :: ts
           end
  end.

Definition comma : N := 44.
Definition cr : N := 13.

(** [x.split(",")] *)
Definition split_comma (s : pystr) : list pystr := split_on comma s.

Fixpoint starts_with (p s : pystr) : bool :=
  match p, s with
  | [], _ => true
  | _ :: _, [] => false
  | a :: p', b :: s' => (a =? b)%N && starts_with p' s'
  end.

(** [p in s] on strings: substring test. *)
Fixpoint contains (p s : pystr) : bool :=
  starts_with p s ||
  match s with
  | [] => false
  | _ :: s' => contains p s'
  end.

(** [.str.replace("\r", "")] *)
Definition remove_cr (s : pystr) : pystr :=
  List.filter (fun c => negb (c =? cr)%N) s.

(** Python's ordering of strings: lexicographic on code points. *)
Fixpoint str_leb (a b : pystr) : bool :=
  match a, b with
  | [], _ => true
  | _ :: _, [] => false
  | x :: a', y :: b' => (x <? y)%N || ((x =? y)%N && str_leb a' b')
  end.

(** ** Floats *)

Inductive fl : Type :=
| Finite (q : Q)
| Inf (neg : bool)
| NaN.

Definition is_nan (x : fl) : bool :=
  match x with NaN => true | _ => false end.

Definition Qneg_b (q : Q) : bool := (Qnum q <? 0)%Z.
Definition Qzero_b (q : Q) : bool := (Qnum q =? 0)%Z.

(** Round half to even to an integer. *)
Definition Qrint (q : Q) : Z :=
  let f := Qfloor q in
  let r := (q - inject_Z f)%Q in
  match (r ?= 1 # 2)%Q with
  | Lt => f
  | Gt => f + 1
  | Eq => if Z.even f then f else f + 1
  end.

(** [floor (log2 q)] of a positive rational. *)
Definition Qlog2 (q : Q) : Z :=
  let e := Z.log2 (Qnum q) - Z.log2 (Zpos (Qden q)) in
  if Qle_bool (2 ^ e) q then e else e - 1.

(** The exponent of the unit in the last place of the binary64 nearest to
    [q]: 53 significant bits, and no exponent below that of the subnormals. *)
Definition ulp_exp (q : Q) : Z := Z.max (Qlog2 (Qabs q) - 52) (- 1074).

(** [q] rounded to a multiple of its unit in the last place, ties to even. *)
Definition rnd (q : Q) : Q :=
  (inject_Z (Qrint (q / 2 ^ ulp_exp q)) * 2 ^ ulp_exp q)%Q.

(** The binary64 nearest to a rational (round to nearest, ties to even): an
    infinity once the rounded value reaches [2^1024]. *)
Definition b64 (q : Q) : fl :=
  let r := rnd (Qred q) in
  if Qle_bool (2 ^ 1024) (Qabs r) then Inf (Qneg_b (Qred q)) else Finite (Qred r).

(** int64 to float64. *)
Definition of_int (z : Z) : fl := b64 (inject_Z z).

Definition fl_neg (x : fl) : fl :=
  match x with
  | Finite a => Finite (Qred (- a))
  | Inf n => Inf (negb n)
  | NaN => NaN
  end.

Definition fl_add (x y : fl) : fl :=
  match x, y with
  | NaN, _ | _, NaN => NaN
  | Finite a, Finite b => b64 (a + b)
  | Inf n, Finite _ | Finite _, Inf n => Inf n
  | Inf n, Inf m => if Bool.eqb n m then Inf n else NaN
  end.

Definition fl_sub (x y : fl) : fl := fl_add x (fl_neg y).

Definition fl_mul (x y : fl) : fl :=
  match x, y with
  | NaN, _ | _, NaN => NaN
  | Finite a, Finite b => b64 (a * b)
  | Inf n, Finite a | Finite a, Inf n =>
      if Qzero_b a then NaN else Inf (xorb n (Qneg_b a))
  | Inf n, Inf m => Inf (xorb n m)
  end.

(** IEEE division: [0/0] and [inf/inf] are NaN, [x/0] is an infinity. *)
Definition fl_div (x y : fl) : fl :=
  match x, y with
  | NaN, _ | _, NaN => NaN
  | Finite a, Finite b =>
      if Qzero_b b then (if Qzero_b a then NaN else Inf (Qneg_b a))
      else b64 (a / b)
  | Finite _, Inf _ => Finite 0
  | Inf n, Finite b => Inf (xorb n (Qneg_b b))
  | Inf _, Inf _ => NaN
  end.

(** [x <= y] on floats; false as soon as one side is NaN. *)
Definition fl_leb (x y : fl) : bool :=
  match x, y with
  | NaN, _ | _, NaN => false
  | Finite a, Finite b => Qle_bool a b
  | Inf true, _ => true
  | _, Inf false => true
  | _, _ => false
  end.

Definition fl_eqb (x y : fl) : bool := fl_leb x y && fl_leb y x.

(** [np.rint]: the nearest integer, ties to even, as a float64. *)
Definition rint (x : fl) : fl :=
  match x with
  | Finite q => b64 (inject_Z (Qrint q))
  | _ => x
  end.

(** [round(x, 2)] on a numpy float64 ([Series.mean] returns one): numpy
    multiplies by [10**2], takes [rint] and divides by [10**2], each step in
    binary64. *)
Definition round2 (x : fl) : fl :=
  fl_div (rint (fl_mul x (of_int 100))) (of_int 100).

(** ** 64-bit integers *)

Definition int64_min : Z := - 2 ^ 63.
Definition int64_max : Z := 2 ^ 63 - 1.

Definition in_int64 (z : Z) : Prop := int64_min <= z <= int64_max.
Definition in_int64_b (z : Z) : bool := (int64_min <=? z) && (z <=? int64_max).

(** Two's-complement wrap-around of int64 arithmetic. *)
Definition wrap64 (z : Z) : Z := (z + 2 ^ 63) mod 2 ^ 64 - 2 ^ 63.

Definition sub64 (a b : Z) : Z := wrap64 (a - b).

(** ** Sorting

    [sorted(...)], [sort_values] and [nlargest] all order rows stably; a
    stable sort has one possible result, computed here by insertion. *)

Section Sort.
Context {A : Type} (le : A -> A -> bool).

Fixpoint insert_sorted (x : A) (l : list A) : list A :=
  match l with
  | [] => [x]
  | y :: l' => if le x y then x :: l else y :: insert_sorted x l'
  end.

Fixpoint stable_sort (l : list A) : list A :=
  match l with
  | [] => []
  | x :: l' => insert_sorted x (stable_sort l')
  end.
End Sort.

(** ** Exceptions *)

Inductive pyerr : Type :=
  KeyError | TypeError | IntCastingNaNError | AttributeError.

Inductive result (A : Type) : Type :=
| Ok (a : A)
| Raise (e : pyerr).
Arguments Ok {A} a.
Arguments Raise {A} e.

Definition rbind {A B} (m : result A) (k : A -> result B) : result B :=
  match m with
  | Ok a => k a
  | Raise e => Raise e
  end.

Notation "'do' x <- m ; k" := (rbind m (fun x => k))
  (at level 10, x name, m at level 100, k at level 200).

Fixpoint mapM {A B} (f : A -> result B) (l : list A) : result (list B) :=
  match l with
  | [] => Ok []
  | a :: l' => do b <- f a; do bs <- mapM f l'; Ok (b :: bs)
  end.

(** ** The spreadsheet and the loaded frame *)

(** A cell as [read_excel] delivers it: text or a number; an empty cell is
    the number NaN. *)
Inductive cell : Type :=
| CStr (s : pystr)
| CNum (x : fl).

(** [pd.isna] on one cell. *)
Definition isna (c : cell) : bool :=
  match c with
  | CNum NaN => true
  | _ => false
  end.

Record sheet : Type := {
  header : list pystr;
  body : list (list cell)
}.

(** One row of the frame [load_data] returns (the columns the script reads).
    Should the frame have several columns called Title, [Title] is the first
    of them. *)
Record Movie : Type := {
  label : nat;
  Title : cell;
  Release_Date : Z;
  Genre : pystr;
  Vote_Average : fl;
  Popularity : fl;
  Vote_Count : option Z
}.

(** The positions of the columns called [name].  Line 23 strips the headers,
    so two headers that differ only in surrounding white space end up with
    one name. *)
Fixpoint positions (name : pystr) (cols : list pystr) : list nat :=
  match cols with
  | [] => []
  | c :: cols' =>
      let rest := map S (positions name cols') in
      if bool_decide (c = name) then 0%nat :: rest else rest
  end.

(** [df[name]] where the script goes on as with a Series: [None] when no
    column has the name, the position of the column when there is one.  With
    several columns of the name [df[name]] is a DataFrame and the next call
    fails, with [e]: [pd.to_numeric] raises a TypeError, and a DataFrame has
    no [.str], an AttributeError. *)
Definition series (e : pyerr) (name : pystr) (cols : list pystr)
  : result (option nat) :=
  match positions name cols with
  | [] => Ok None
  | [i] => Ok (Some i)
  | _ => Raise e
  end.

(** The cell of column [i] in a row; a short row reads as empty cells. *)
Definition cell_at (i : nat) (r : list cell) : cell := nth i r (CNum NaN).

(** Lines 24-30: the header that is read as "Genre": that name if a column
    has it, else the first header containing "Genre" (line 28 renames every
    column of that name), else none (line 30 adds a column of empty
    strings). *)
Definition genre_name (cols : list pystr) : option pystr :=
  if bool_decide (py "Genre" ∈ cols) then Some (py "Genre")
  else List.find (contains (py "Genre")) cols.

(** [df["Genre"]] as line 32 uses it. *)
Definition genre_series (cols : list pystr) : result (option nat) :=
  match genre_name cols with
  | Some g => series AttributeError g cols
  | None => Ok None
  end.

(** The columns [load_data] reads, by position. *)
Record columns : Type := {
  c_genre : option nat;
  c_date : nat;
  c_title : list nat;
  c_vote_average : option nat;
  c_popularity : option nat;
  c_vote_count : option nat
}.

(** [astype(int)] on one float64: non-finite values raise; the fraction is
    dropped; a value outside int64 comes out as the minimum (x86-64). *)
Definition Qtrunc (q : Q) : Z := Z.quot (Qnum q) (Zpos (Qden q)).

Definition astype_int (x : fl) : result Z :=
  match x with
  | Finite q =>
      let t := Qtrunc q in
      Ok (if in_int64_b t then t else int64_min)
  | _ => Raise IntCastingNaNError
  end.

(** [astype("Int64")] on one float64: NaN becomes <NA>, an integral value in
    range is kept, anything else is a "cannot safely cast" TypeError. *)
Definition astype_Int64 (x : fl) : result (option Z) :=
  match x with
  | NaN => Ok None
  | Finite q =>
      if Qeq_bool q (inject_Z (Qtrunc q)) && in_int64_b (Qtrunc q)
      then Ok (Some (Qtrunc q))
      else Raise TypeError
  | Inf _ => Raise TypeError
  end.

(** [.fillna(0.0)] *)
Definition fillna0 (x : fl) : fl :=
  match x with NaN => Finite 0 | _ => x end.

Section Loader.
(** What pandas' numeric parser makes of a text cell ([None]: it does not
    parse), and [str()] of a numeric cell. *)
Variable parse_number : pystr -> option fl.
Variable repr_number : fl -> pystr.

(** [pd.to_numeric(..., errors="coerce")] on one cell. *)
Definition to_numeric (c : cell) : fl :=
  match c with
  | CNum x => x
  | CStr s => match parse_number s with Some x => x | None => NaN end
  end.

(** [.astype(str)] on one cell, as pandas 2 does it: a missing cell becomes
    the text [str()] gives for NaN. *)
Definition astype_str (c : cell) : pystr :=
  match c with
  | CStr s => s
  | CNum x => repr_number x
  end.

(** Line 32. *)
Definition clean_genre (c : cell) : pystr :=
  strip (remove_cr (astype_str c)).

(** Line 35: does [dropna(subset=["Release_Date", "Title"])] keep the row?
    Every column called Title is tested. *)
Definition keeps (iDate : nat) (iTitle : list nat) (r : list cell) : bool :=
  negb (is_nan (to_numeric (cell_at iDate r)))
  && forallb (fun j => negb (isna (cell_at j r))) iTitle.

(** The frame between line 35 and line 49: Release_Date still a float. *)
Record staged : Type := {
  s_label : nat;
  s_title : cell;
  s_date : fl;
  s_genre : pystr;
  s_vote_average : fl;
  s_popularity : fl;
  s_vote_count : option Z
}.

(** Lines 37-47 for a float column. *)
Definition float_column (i : option nat) (r : list cell) : fl :=
  match i with
  | None => Finite 0
  | Some i => fillna0 (to_numeric (cell_at i r))
  end.

(** Lines 37-47 for Vote_Count.  A missing column is filled from a Series
    indexed [0 .. n-1], [n] the number of rows kept: assignment aligns on
    labels, so a row whose label is [n] or more receives <NA>. *)
Definition vote_count_column (i : option nat) (n lbl : nat) (r : list cell)
  : result (option Z) :=
  match i with
  | None => Ok (if (lbl <? n)%nat then Some 0 else None)
  | Some i => astype_Int64 (to_numeric (cell_at i r))
  end.

(** Lines 32-47 on one row that line 35 kept. *)
Definition stage (c : columns) (n : nat) (lr : nat * list cell)
  : result staged :=
  let '(lbl, r) := lr in
  do vc <- vote_count_column (c_vote_count c) n lbl r;
  Ok {| s_label := lbl;
        s_title := cell_at (hd 0%nat (c_title c)) r;
        s_date := to_numeric (cell_at (c_date c) r);
        s_genre := match c_genre c with
                   | Some i => clean_genre (cell_at i r)
                   | None => strip (remove_cr [])
                   end;
        s_vote_average := float_column (c_vote_average c) r;
        s_popularity := float_column (c_popularity c) r;
        s_vote_count := vc |}.

(** Line 49. *)
Definition finish (s : staged) : result Movie :=
  do y <- astype_int (s_date s);
  Ok {| label := s_label s;
        Title := s_title s;
        Release_Date := y;
        Genre := s_genre s;
        Vote_Average := s_vote_average s;
        Popularity := s_popularity s;
        Vote_Count := s_vote_count s |}.

(** Rows with the labels of a fresh RangeIndex. *)
Definition labelled (rows : list (list cell)) : list (nat * list cell) :=
  imap (fun i r => (i, r)) rows.

(** The rows line 35 keeps, with their labels. *)
Definition kept_rows (iDate : nat) (iTitle : list nat)
    (rows : list (list cell)) : list (nat * list cell) :=
  List.filter (fun lr => keeps iDate iTitle (snd lr)) (labelled rows).

(** [load_data()], lines 20-50.  The columns are looked up in the order of
    the lines that read them, which is the order in which a missing or a
    repeated name raises; the rows are converted afterwards. *)
Definition load_data (sh : sheet) : result (list Movie) :=
  let cols := map strip (header sh) in
  do iGenre <- genre_series cols;
  do iDate <- series TypeError (py "Release_Date") cols;
  do iDate <- match iDate with Some i => Ok i | None => Raise KeyError end;
  do iTitle <- match positions (py "Title") cols with
               | [] => Raise KeyError
               | ps => Ok ps
               end;
  let kept := kept_rows iDate iTitle (body sh) in
  do iAverage <- series TypeError (py "Vote_Average") cols;
  do iPopularity <- series TypeError (py "Popularity") cols;
  do iCount <- series TypeError (py "Vote_Count") cols;
  let c := {| c_genre := iGenre; c_date := iDate; c_title := iTitle;
              c_vote_average := iAverage; c_popularity := iPopularity;
              c_vote_count := iCount |} in
  do staged_rows <- mapM (stage c (length kept)) kept;
  mapM finish staged_rows.
End Loader.

(** ** Sidebar: the options offered and the filter (lines 92-114) *)

(** [.unique()]: first occurrences, in order of appearance. *)
Fixpoint unique `{EqDecision A} (l : list A) : list A :=
  match l with
  | [] => []
  | x :: l' => x :: List.filter (fun y => negb (bool_decide (y = x))) (unique l')
  end.

(** Line 93. *)
Definition years (df : list Movie) : list Z :=
  stable_sort Z.leb (unique (map Release_Date df)).

Definition nonempty (s : pystr) : bool :=
  match s with [] => false | _ => true end.

(** The comprehension of lines 100-103 for one cell (and of line 195):
    [g.strip() for g in (cell.split(",") if cell else []) if g.strip()]. *)
Definition genre_tokens (cell : pystr) : list pystr :=
  map strip
    (List.filter (fun g => nonempty (strip g))
       (if nonempty cell then split_comma cell else [])).

(** Lines 97-105; the [set] is rendered by [unique], [sorted] fixes the order. *)
Definition all_genres (df : list Movie) : list pystr :=
  stable_sort str_leb (unique (flat_map genre_tokens (map Genre df))).

(** [Series.isin]. *)
Definition isin (z : Z) (values : list Z) : bool := existsb (Z.eqb z) values.

(** The lambda of line 113. *)
Definition genre_match (selected_genres : list pystr) (x : pystr) : bool :=
  existsb (fun sel => bool_decide (sel ∈ map strip (split_comma x)))
          selected_genres.

(** Lines 109-114. *)
Definition filtered_df (df : list Movie)
    (selected_years : list Z) (selected_genres : list pystr) : list Movie :=
  let by_year := List.filter (fun r => isin (Release_Date r) selected_years) df in
  match selected_genres with
  | [] => by_year
  | _ :: _ => List.filter (fun r => genre_match selected_genres (Genre r)) by_year
  end.

(** ** KPIs (lines 120-127) *)

Definition total_movies (fv : list Movie) : nat := length fv.

(** numpy's [sum] of a float64 array adds in the order of its pairwise
    summation, every addition rounded to binary64.  Eight accumulators, as
    they are combined after the last full chunk of eight entries: *)
Definition sum8 (r : list fl) : fl :=
  match r with
  | [r0; r1; r2; r3; r4; r5; r6; r7] =>
      fl_add (fl_add (fl_add r0 r1) (fl_add r2 r3))
             (fl_add (fl_add r4 r5) (fl_add r6 r7))
  | _ => NaN
  end.

(** Each full chunk of eight entries is added to the eight accumulators,
    entry by entry; fewer than eight entries are left over. *)
Fixpoint add_chunks (fuel : nat) (r l : list fl) : list fl * list fl :=
  match fuel with
  | O => (r, l)
  | S fuel' =>
      if (8 <=? length l)%nat
      then add_chunks fuel' (zip_with fl_add r (take 8 l)) (drop 8 l)
      else (r, l)
  end.

(** A block of 8 to 128 entries: the first eight start the accumulators,
    and the entries left over are added to their sum one by one. *)
Definition sum_block (l : list fl) : fl :=
  let '(r, rest) := add_chunks (length l) (take 8 l) (drop 8 l) in
  fold_left fl_add rest (sum8 r).

(** Fewer than 8 entries are added front to back; more than 128 are split
    in two halves, the first a multiple of eight long. *)
Fixpoint pairwise_sum (fuel : nat) (l : list fl) : fl :=
  let n := length l in
  if (n <? 8)%nat then fold_left fl_add l (Finite 0)
  else if (n <=? 128)%nat then sum_block l
  else match fuel with
       | O => NaN
       | S fuel' =>
           let n2 := (n / 2 - (n / 2) mod 8)%nat in
           fl_add (pairwise_sum fuel' (take n2 l))
                  (pairwise_sum fuel' (drop n2 l))
       end.

(** [ndarray.sum()]: the reduction starts from the identity of addition. *)
Definition np_sum (l : list fl) : fl :=
  fl_add (Finite 0) (pairwise_sum (length l) l).

(** [Series.mean()] with [skipna]: pandas puts 0 in the place of every NaN,
    lets numpy sum the array and divides by the number of entries that were
    no NaN; no such entry gives NaN. *)
Definition series_mean (l : list fl) : fl :=
  let count := length (List.filter (fun x => negb (is_nan x)) l) in
  fl_div (np_sum (map fillna0 l)) (of_int (Z.of_nat count)).

Definition avg_rating (fv : list Movie) : fl :=
  if (0 <? total_movies fv)%nat
  then round2 (series_mean (map Vote_Average fv))
  else Finite 0.

Definition avg_popularity (fv : list Movie) : fl :=
  if (0 <? total_movies fv)%nat
  then round2 (series_mean (map Popularity fv))
  else Finite 0.

(** ** Top 10 by popularity (line 172) *)

(** [DataFrame.nlargest(n, col)] with the default [keep="first"]: rows by
    descending key, equal keys in frame order; rows whose key is NaN come
    last, in frame order. *)
Definition by_key_desc {A} (key : A -> fl) (a b : A) : bool :=
  fl_leb (key b) (key a).

Definition nlargest {A} (n : nat) (key : A -> fl) (l : list A) : list A :=
  take n
    (stable_sort (by_key_desc key)
                 (List.filter (fun r => negb (is_nan (key r))) l)
     ++ List.filter (fun r => is_nan (key r)) l).

Record top_row : Type := {
  t_title : cell;
  t_popularity : fl;
  t_vote_average : fl
}.

(** [[["Title", "Popularity", "Vote_Average"]]] *)
Definition top_columns (r : Movie) : top_row :=
  {| t_title := Title r;
     t_popularity := Popularity r;
     t_vote_average := Vote_Average r |}.

Definition top_movies (fv : list Movie) : list top_row :=
  map top_columns (nlargest 10 Popularity fv).

(** ** Genre distribution (lines 192-198) *)

Definition genre_split (fv : list Movie) : list pystr :=
  flat_map genre_tokens (map Genre fv).

Fixpoint bump (g : pystr) (acc : list (pystr * nat)) : list (pystr * nat) :=
  match acc with
  | [] => [(g, 1%nat)]
  | (h, c) :: acc' =>
      if bool_decide (h = g) then (h, S c) :: acc' else (h, c) :: bump g acc'
  end.

(** The tally behind [value_counts]: one entry per distinct value, in order
    of first appearance. *)
Definition tally (l : list pystr) : list (pystr * nat) :=
  fold_left (fun acc g => bump g acc) l [].

(** [pd.Series(l).value_counts().reset_index()]: most frequent first. *)
Definition value_counts (l : list pystr) : list (pystr * nat) :=
  stable_sort (fun a b => Nat.leb (snd b) (snd a)) (tally l).

(** [None]: the branches that show [st.info] instead of a pie chart. *)
Definition genre_df (fv : list Movie) : option (list (pystr * nat)) :=
  if (0 <? total_movies fv)%nat then
    match genre_split fv with
    | [] => None
    | _ :: _ => Some (value_counts (genre_split fv))
    end
  else None.

(** ** Marker sizes (lines 218-232) *)

(** numpy's arithmetic error flags, reported as RuntimeWarnings: the two of
    a float64 division, and the overflow of an int64 scalar operation. *)
Inductive fp_error : Type := DivideByZero | InvalidValue | Overflow.

(** [xs / d] on an int64 array and an int64 scalar: true division in
    float64, together with the flags it raises. *)
Definition np_divide (xs : list Z) (d : Z) : list fl * list fp_error :=
  (map (fun x => fl_div (of_int x) (of_int d)) xs,
   if d =? 0 then
     (if existsb (fun x => negb (x =? 0)) xs then [DivideByZero] else [])
     ++ (if existsb (fun x => x =? 0) xs then [InvalidValue] else [])
   else []).

(** Line 220: [.fillna(0).astype(int)]. *)
Definition size_vals (fv : list Movie) : list Z :=
  map (fun r => default 0 (Vote_Count r)) fv.

Definition array_max (l : list Z) : option Z :=
  match l with
  | [] => None
  | x :: xs => Some (fold_left Z.max xs x)
  end.

Definition array_min (l : list Z) : option Z :=
  match l with
  | [] => None
  | x :: xs => Some (fold_left Z.min xs x)
  end.

(** [a - b] on two int64 scalars: the difference wraps around, and numpy
    warns when it does.  (On an array, as in [size_vals - size_vals.min()],
    the difference wraps around silently: [sub64].) *)
Definition np_scalar_sub (a b : Z) : Z * list fp_error :=
  (sub64 a b, if in_int64_b (a - b) then [] else [Overflow]).

Definition min_size : Z := 5.
Definition max_display_size : Z := 40.

(** Lines 225-232 on a non-empty array ([None]: [max()] of an empty array
    raises, which the guard of line 215 excludes). *)
Definition scale_sizes (vals : list Z) : option (list fl * list fp_error) :=
  match array_max vals, array_min vals with
  | Some mx, Some mn =>
      if 0 <? mx then
        let '(d, wraps) := np_scalar_sub mx mn in
        let '(norm, flags) := np_divide (map (fun v => sub64 v mn) vals) d in
        Some (map (fun t => fl_add (fl_mul t (of_int (max_display_size - min_size)))
                                   (of_int min_size)) norm,
              wraps ++ flags)
      else Some (map (fun _ => of_int min_size) vals, [])
  | _, _ => None
  end.

(** Tab 4: [None] is the [st.info] branch of an empty view. *)
Definition plot_sizes (fv : list Movie) : option (list fl * list fp_error) :=
  if (0 <? total_movies fv)%nat then scale_sizes (size_vals fv) else None.

(** ** One run of the script

    Streamlit re-runs the script on every interaction, with the cached frame
    and the current state of the two multiselects. *)

Record widgets : Type := {
  selected_years : list Z;
  selected_genres : list pystr
}.

Record page : Type := {
  year_options : list Z;
  genre_options : list pystr;
  view : list Movie;
  kpi_total : nat;
  kpi_rating : fl;
  kpi_popularity : fl;
  tab2 : option (list top_row);
  tab3 : option (list (pystr * nat));
  tab4 : option (list fl * list fp_error)
}.

Definition run (df : list Movie) (w : widgets) : page :=
  let fv := filtered_df df (selected_years w) (selected_genres w) in
  {| year_options := years df;
     genre_options := all_genres df;
     view := fv;
     kpi_total := total_movies fv;
     kpi_rating := avg_rating fv;
     kpi_popularity := avg_popularity fv;
     tab2 := if (0 <? total_movies fv)%nat then Some (top_movies fv) else None;
     tab3 := genre_df fv;
     tab4 := plot_sizes fv |}.

(** The multiselects as first drawn: every year, no genre. *)
Definition default_widgets (df : list Movie) : widgets :=
  {| selected_years := years df; selected_genres := [] |}.

(** ** Rating by year (lines 150-155) *)

(** [groupby] collects the rows of each key: a row joins the group of its
    year; a year not seen before opens a group behind the others. *)
Fixpoint add_to_group (y : Z) (x : fl) (groups : list (Z * list fl))
  : list (Z * list fl) :=
  match groups with
  | [] => [(y, [x])]
  | (k, xs) :: groups' =>
      if k =? y then (k, xs ++ [x]) :: groups'
      else (k, xs) :: add_to_group y x groups'
  end.

Definition by_year {B} (a b : Z * B) : bool := fst a <=? fst b.

(** [groupby("Release_Date")["Vote_Average"]]: the groups, keys ascending. *)
Definition groupby_year (fv : list Movie) : list (Z * list fl) :=
  stable_sort by_year
    (fold_left (fun acc r => add_to_group (Release_Date r) (Vote_Average r) acc)
               fv []).

(** One step of the compensated (Kahan) summation of pandas's [group_mean]:
    the running sum and the compensation, then the entry.  A compensation
    that comes out NaN, as it does next to an infinity, is put back to 0. *)
Definition kahan_add (acc : fl * fl) (val : fl) : fl * fl :=
  let '(sumx, compensation) := acc in
  let y := fl_sub val compensation in
  let t := fl_add sumx y in
  let c := fl_sub (fl_sub t sumx) y in
  (t, if is_nan c then Finite 0 else c).

(** [groupby(...).mean()] on one group: the entries that are no NaN are added
    in row order with [kahan_add], and the sum is divided by their number; no
    such entry gives NaN.  This is not the summation of [Series.mean()]. *)
Definition group_mean (l : list fl) : fl :=
  let xs := List.filter (fun x => negb (is_nan x)) l in
  match xs with
  | [] => NaN
  | _ :: _ =>
      fl_div (fst (fold_left kahan_add xs (Finite 0, Finite 0)))
             (of_int (Z.of_nat (length xs)))
  end.

(** Lines 151-155: the mean of each group, then [sort_values]. *)
Definition rating_year (fv : list Movie) : list (Z * fl) :=
  stable_sort by_year
    (map (fun g => (fst g, group_mean (snd g))) (groupby_year fv)).

(** Tab 1: [None] is the [st.info] branch of an empty view. *)
Definition tab1 (fv : list Movie) : option (list (Z * fl)) :=
  if (0 <? total_movies fv)%nat then Some (rating_year fv) else None.

(** ** The Total Movies metric (line 130) *)

Fixpoint uint_chars (u : Decimal.uint) : pystr :=
  match u with
  | Decimal.Nil => []
  | Decimal.D0 u' => 48%N :: uint_chars u'
  | Decimal.D1 u' => 49%N :: uint_chars u'
  | Decimal.D2 u' => 50%N :: uint_chars u'
  | Decimal.D3 u' => 51%N :: uint_chars u'
  | Decimal.D4 u' => 52%N :: uint_chars u'
  | Decimal.D5 u' => 53%N :: uint_chars u'
  | Decimal.D6 u' => 54%N :: uint_chars u'
  | Decimal.D7 u' => 55%N :: uint_chars u'
  | Decimal.D8 u' => 56%N :: uint_chars u'
  | Decimal.D9 u' => 57%N :: uint_chars u'
  end.

(** [str(n)] for [n >= 0]: the decimal numeral. *)
Definition str_int (n : nat) : pystr := uint_chars (Nat.to_uint n).

(** A comma after every third character, as long as characters remain; run
    over the numeral from its last digit. *)
Fixpoint group3 (l : pystr) : pystr :=
  match l with
  | a :: b :: c :: ((_ :: _) as rest) => a :: b :: c :: comma :: group3 rest
  | _ => l
  end.

(** [f"{n:,}"]: the numeral with a comma as thousands separator. *)
Definition format_thousands (n : nat) : pystr :=
  rev (group3 (rev (str_int n))).

(** The text of the first metric. *)
Definition total_movies_text (fv : list Movie) : pystr :=
  format_thousands (total_movies fv).

(** * Vocabulary of the statements *)

(** The multiples of [2^u]. *)
Definition grid (u : Z) (t : Q) : Prop := ∃ k : Z, (t == inject_Z k * 2 ^ u)%Q.

(** [x] is a finite number between [k lo] and [k hi], as a sum of [k]
    numbers between [lo] and [hi] should be. *)
Definition sum_within (lo hi k : Z) (x : fl) : Prop :=
  ∃ q, x = Finite q ∧ (inject_Z (k * lo) <= q <= inject_Z (k * hi))%Q.

(** Lines 229-230 on one entry, in binary64: numerator [a = v - min],
    divisor [d = max - min]. *)
Definition scaled (a d : Z) : fl :=
  fl_add (fl_mul (fl_div (of_int a) (of_int d))
                 (of_int (max_display_size - min_size)))
         (of_int min_size).

(** The value the rescaling of [v] from [[mn, mx]] to [[5, 40]] should have. *)
Definition linear_rescale (mn mx v : Z) : Q :=
  (inject_Z (v - mn) / inject_Z (mx - mn) * 35 + 5)%Q.


Definition occurrences (g : pystr) (l : list pystr) : nat :=
  length (List.filter (fun t => bool_decide (t = g)) l).

(** How often [g] is the trimmed form of a comma-separated token of the
    Genre fields of the view. *)
Definition genre_frequency (fv : list Movie) (g : pystr) : nat :=
  length (List.filter (fun t => bool_decide (strip t = g))
                      (flat_map (fun r => split_comma (Genre r)) fv)).

(** The count recorded for [g] in a tally (0: no entry). *)
Fixpoint recorded (g : pystr) (acc : list (pystr * nat)) : nat :=
  match acc with
  | [] => 0
  | (h, c) :: acc' => if bool_decide (h = g) then c else recorded g acc'
  end.

(** A well-formed tally: distinct keys, positive counts. *)
Definition tally_ok (acc : list (pystr * nat)) : Prop :=
  NoDup (map fst acc) ∧ Forall (fun e => (0 < snd e)%nat) acc.

(** The columns [load_data] reads from a sheet whose stripped headers are
    [cols]: none of the names is repeated, apart from Title. *)
Record resolved (cols : list pystr) (c : columns) : Prop := {
  rs_genre : genre_series cols = Ok (c_genre c);
  rs_date : positions (py "Release_Date") cols = [c_date c];
  rs_title : positions (py "Title") cols = c_title c;
  rs_title_ne : c_title c <> [];
  rs_vote_average : series TypeError (py "Vote_Average") cols = Ok (c_vote_average c);
  rs_popularity : series TypeError (py "Popularity") cols = Ok (c_popularity c);
  rs_vote_count : series TypeError (py "Vote_Count") cols = Ok (c_vote_count c)
}.

(** How a row of the loaded frame comes from a labelled row of the sheet. *)
Record loaded_from (parse_number : pystr -> option fl) (c : columns)
    (lr : nat * list cell) (m : Movie) : Prop := {
  lf_keeps : keeps parse_number (c_date c) (c_title c) (snd lr) = true;
  lf_label : label m = fst lr;
  lf_title : Title m = cell_at (hd 0%nat (c_title c)) (snd lr);
  lf_date :
    astype_int (to_numeric parse_number (cell_at (c_date c) (snd lr)))
    = Ok (Release_Date m);
  lf_vote_average :
    Vote_Average m = float_column parse_number (c_vote_average c) (snd lr);
  lf_popularity :
    Popularity m = float_column parse_number (c_popularity c) (snd lr)
}.

(** A genre name as the sidebar offers it: not empty, free of commas, and
    with no white space at either end. *)
Definition clean_token (t : pystr) : Prop :=
  t <> [] ∧ (comma ∉ t) ∧ strip t = t.

(** [", ".join(toks)]: the way a Genre cell lists several genres. *)
Fixpoint join_genres (toks : list pystr) : pystr :=
  match toks with
  | [] => []
  | [t] => t
  | t :: rest => t ++ (py ", " ++ join_genres rest)
  end.

(** The first character of [s], if any, is no white space. *)
Definition head_ok (s : pystr) : Prop :=
  match s with
  | [] => True
  | c :: _ => is_space c = false
  end.

(** Truth value of a Python list: it has an element. *)
Definition nonempty_list {A} (l : list A) : bool :=
  match l with [] => false | _ => true end.

(** Several columns are called [name]. *)
Definition repeated (name : pystr) (cols : list pystr) : Prop :=
  (2 <= length (positions name cols))%nat.

(** Several columns carry the header that is read as "Genre": line 32
    raises. *)
Definition genre_repeated (cols : list pystr) : Prop :=
  ∃ g, genre_name cols = Some g ∧ repeated g cols.

(** Line 32 passes and a required column is not there: no Release_Date
    (line 33), or one Release_Date and no Title (line 35). *)
Definition missing_column (cols : list pystr) : Prop :=
  ¬ genre_repeated cols
  ∧ (py "Release_Date" ∉ cols
     ∨ (¬ repeated (py "Release_Date") cols ∧ py "Title" ∉ cols)).

(** Line 32 passes and the first line to fail is one that hands
    [pd.to_numeric] several columns of one name: Release_Date (line 33), or
    with one Release_Date and a Title column there, Vote_Average,
    Popularity or Vote_Count (lines 45 and 47). *)
Definition repeated_column (cols : list pystr) : Prop :=
  ¬ genre_repeated cols
  ∧ (repeated (py "Release_Date") cols
     ∨ (length (positions (py "Release_Date") cols) = 1%nat
        ∧ py "Title" ∈ cols
        ∧ (repeated (py "Vote_Average") cols
           ∨ repeated (py "Popularity") cols
           ∨ repeated (py "Vote_Count") cols))).

(** The Vote_Count cell of a sheet row cannot be cast to Int64 (line 45). *)
Definition bad_vote_count (parse_number : pystr -> option fl)
    (c : columns) (r : list cell) : Prop :=
  ∃ i, c_vote_count c = Some i
       ∧ astype_Int64 (to_numeric parse_number (cell_at i r)) = Raise TypeError.

(** The Release_Date cell of a sheet row reads as an infinity. *)
Definition infinite_date (parse_number : pystr -> option fl)
    (iDate : nat) (r : list cell) : Prop :=
  ∃ n, to_numeric parse_number (cell_at iDate r) = Inf n.

(** The ratings collected for year [y] in a list of groups (none: []). *)
Fixpoint group_of (y : Z) (groups : list (Z * list fl)) : list fl :=
  match groups with
  | [] => []
  | (k, xs) :: groups' => if k =? y then xs else group_of y groups'
  end.

(** The Vote_Average values of the rows of year [y], in view order. *)
Definition ratings_of_year (fv : list Movie) (y : Z) : list fl :=
  map Vote_Average (List.filter (fun r => Release_Date r =? y) fv).

Definition is_digit (c : N) : bool := (48 <=? c)%N && (c <=? 57)%N.

(** Reading a string of decimal digits ([None]: some character is no
    digit). *)
Fixpoint chars_uint (s : pystr) : option Decimal.uint :=
  match s with
  | [] => Some Decimal.Nil
  | c :: s' =>
      match chars_uint s' with
      | None => None
      | Some u =>
          match c with
          | 48%N => Some (Decimal.D0 u) | 49%N => Some (Decimal.D1 u)
          | 50%N => Some (Decimal.D2 u) | 51%N => Some (Decimal.D3 u)
          | 52%N => Some (Decimal.D4 u) | 53%N => Some (Decimal.D5 u)
          | 54%N => Some (Decimal.D6 u) | 55%N => Some (Decimal.D7 u)
          | 56%N => Some (Decimal.D8 u) | 57%N => Some (Decimal.D9 u)
          | _ => None
          end
      end
  end.

(** [int(s)] on a string of decimal digits. *)
Definition int_of_digits (s : pystr) : option nat :=
  Nat.of_uint <$> chars_uint s.

(** [s.replace(",", "")] *)
Definition remove_commas (s : pystr) : pystr :=
  List.filter (fun c => negb (c =? comma)%N) s.

(** * Sample data *)

(** A row with a given label and vote count, for the examples. *)
Definition sample_movie (lbl : nat) (votes : Z) : Movie :=
  {| label := lbl; Title := CStr (py "Up"); Release_Date := 2009;
     Genre := py "Animation, Comedy"; Vote_Average := Finite (79 # 10);
     Popularity := Finite 42; Vote_Count := Some votes |}.

(** A film of 2009 whose rating is the binary64 nearest to [rating]. *)
Definition rated_film (lbl : nat) (rating : Q) : Movie :=
  {| label := lbl; Title := CStr (py "Up"); Release_Date := 2009;
     Genre := py "Animation, Comedy"; Vote_Average := b64 rating;
     Popularity := Finite 42; Vote_Count := Some 7 |}.

(** A sheet of one film with 7 votes, and a parser for the examples that
    reads no text cell as a number. *)
Definition one_film_sheet : sheet :=
  {| header := [py "Title"; py "Release_Date"; py "Genre";
                py "Vote_Average"; py "Popularity"; py "Vote_Count"];
     body := [[CStr (py "Up"); CNum (Finite 2009); CStr (py "Animation, Comedy");
               CNum (Finite (79 # 10)); CNum (Finite 42); CNum (Finite 7)]] |}.

Definition no_parse (s : pystr) : option fl := None.
Definition no_repr (x : fl) : pystr := [].

(** A sheet with a stray blank in a header and no vote columns: a film
    without a title, a film whose date is text that is no number, and one
    film that is kept. *)
Definition messy_sheet : sheet :=
  {| header := [py "Title "; py "Release_Date"; py "Genre"; py "Popularity"];
     body := [[CNum NaN; CNum (Finite 1999); CStr (py "Drama"); CNum (Finite 3)];
              [CStr (py "Heat"); CStr (py "n/a"); CStr (py "Crime"); CNum (Finite 9)];
              [CStr (py "Big"); CNum (Finite 1988); CStr (py " Comedy"); CNum NaN]] |}.

(** Headers that coincide once stripped: two Title columns (the second one
    empty in the only row), and two Release_Date columns. *)
Definition two_titles_sheet : sheet :=
  {| header := [py "Title"; py "Title "; py "Release_Date"];
     body := [[CStr (py "Up"); CNum NaN; CNum (Finite 2009)]] |}.

Definition two_genres_sheet : sheet :=
  {| header := [py "Title"; py "Release_Date"; py "Genres"; py " Genres"];
     body := [[CStr (py "Up"); CNum (Finite 2009); CStr (py "Comedy");
               CStr (py "Animation")]] |}.

Definition two_dates_sheet : sheet :=
  {| header := [py "Title"; py "Release_Date"; py "Release_Date "];
     body := [[CStr (py "Up"); CNum (Finite 2009); CNum (Finite 2009)]] |}.

Definition big_1988 : Movie :=
  {| label := 2; Title := CStr (py "Big"); Release_Date := 1988;
     Genre := py "Comedy"; Vote_Average := Finite 0; Popularity := Finite 0;
     Vote_Count := None |}.

(** Three films, two of them equally popular. *)
Definition films_sheet : sheet :=
  {| header := [py "Title"; py "Release_Date"; py "Popularity"];
     body := [[CStr (py "Heat"); CNum (Finite 1995); CNum (Finite 5)];
              [CStr (py "Big"); CNum (Finite 1988); CNum (Finite 9)];
              [CStr (py "Up"); CNum (Finite 2009); CNum (Finite 5)]] |}.

Definition film (lbl : nat) (title : string) (year : Z) (pop : Q) : Movie :=
  {| label := lbl; Title := CStr (py title); Release_Date := year;
     Genre := []; Vote_Average := Finite 0; Popularity := Finite pop;
     Vote_Count := Some 0 |}.

(** A film whose popularity is the largest binary64. *)
Definition huge_film (lbl : nat) : Movie :=
  {| label := lbl; Title := CStr (py "Huge"); Release_Date := 2000;
     Genre := []; Vote_Average := Finite 0;
     Popularity := Finite (inject_Z (2 ^ 1024 - 2 ^ 971));
     Vote_Count := Some 0 |}.

Definition films : list Movie :=
  [film 0 "Heat" 1995 5; film 1 "Big" 1988 9; film 2 "Up" 2009 5].

(** * Properties *)

(** ** Sorting *)

Section SortFacts.
Context {A : Type} (le : A -> A -> bool).

Lemma insert_sorted_perm (x : A) (l : list A) :
  insert_sorted le x l ≡ₚ x :: l.
Proof.
  induction l as [|y l IH]; simpl; [done|].
  destruct (le x y); [done|].
  rewrite IH. apply Permutation_swap.
Qed.

Lemma stable_sort_perm (l : list A) : stable_sort le l ≡ₚ l.
Proof.
  induction l as [|x l IH]; simpl; [done|].
  by rewrite insert_sorted_perm, IH.
Qed.

Lemma stable_sort_elem_of (x : A) (l : list A) :
  x ∈ stable_sort le l ↔ x ∈ l.
Proof. by rewrite stable_sort_perm. Qed.

Lemma stable_sort_length (l : list A) : length (stable_sort le l) = length l.
Proof. by rewrite stable_sort_perm. Qed.

(** Rows that the order cannot tell apart keep their relative position:
    restricted to any class [p] of mutually [le]-related rows, sorting
    changes nothing. *)
Lemma insert_sorted_filter (p : A -> bool) (x : A) (l : list A) :
  (∀ y, y ∈ l → p x = true → p y = true → le x y = true) →
  List.filter p (insert_sorted le x l) = List.filter p (x :: l).
Proof.
  induction l as [|y l IH]; intros Hle; simpl; [done|].
  destruct (le x y) eqn:Hxy; simpl; [done|].
  rewrite IH by (intros z Hz; apply Hle; by right). simpl.
  destruct (p x) eqn:Hpx, (p y) eqn:Hpy; try done.
  rewrite Hle in Hxy; [done|by left|done|done].
Qed.

Lemma stable_sort_filter (p : A -> bool) (l : list A) :
  (∀ x y, p x = true → p y = true → le x y = true) →
  List.filter p (stable_sort le l) = List.filter p l.
Proof.
  intros Hle. induction l as [|x l IH]; simpl; [done|].
  rewrite insert_sorted_filter by (intros; by apply Hle).
  simpl. by rewrite IH.
Qed.

(** Sortedness needs [le] to be a total preorder, on the rows sorted. *)
Variable dom : A -> Prop.
Hypothesis le_total : ∀ x y, dom x → dom y → le x y = true ∨ le y x = true.
Hypothesis le_trans :
  ∀ x y z, dom x → dom y → dom z →
           le x y = true → le y z = true → le x z = true.

Lemma insert_sorted_sorted (x : A) (l : list A) :
  dom x → Forall dom l →
  StronglySorted (fun a b => le a b = true) l →
  StronglySorted (fun a b => le a b = true) (insert_sorted le x l).
Proof.
  intros Hx Hl Hs. induction Hs as [|y l Hs IH Hy]; simpl.
  - repeat constructor.
  - apply Forall_cons in Hl as [Hdy Hl].
    destruct (le x y) eqn:Hxy.
    + constructor; [by constructor|].
      constructor; [done|].
      rewrite Forall_forall in Hy, Hl. apply Forall_forall. intros z Hz.
      apply (le_trans x y z); auto.
    + constructor; [by apply IH|].
      rewrite insert_sorted_perm. constructor; [|done].
      destruct (le_total x y); congruence.
Qed.

Lemma stable_sort_sorted (l : list A) :
  Forall dom l →
  StronglySorted (fun a b => le a b = true) (stable_sort le l).
Proof.
  induction l as [|x l IH]; intros Hl; simpl; [constructor|].
  apply Forall_cons in Hl as [Hx Hl].
  apply insert_sorted_sorted; [done| |by apply IH].
  by rewrite stable_sort_perm.
Qed.
End SortFacts.

(** ** Basic list facts *)

Lemma filter_sublist {A} (f : A -> bool) (l : list A) :
  List.filter f l `sublist_of` l.
Proof.
  induction l as [|x l IH]; simpl; [constructor|].
  destruct (f x); by constructor.
Qed.

Lemma filter_all {A} (f : A -> bool) (l : list A) :
  (∀ x, x ∈ l → f x = true) → List.filter f l = l.
Proof.
  induction l as [|x l IH]; intros H; simpl; [done|].
  rewrite H by left. f_equal. apply IH. intros y Hy. apply H. by right.
Qed.

Lemma filter_none {A} (f : A -> bool) (l : list A) :
  (∀ x, f x = false) → List.filter f l = [].
Proof.
  intros H. induction l as [|x l IH]; simpl; [done|]. by rewrite H.
Qed.

Lemma elem_of_filter_bool {A} (f : A -> bool) (l : list A) (x : A) :
  x ∈ List.filter f l ↔ x ∈ l ∧ f x = true.
Proof. rewrite !list_elem_of_In. apply filter_In. Qed.

Lemma unique_elem_of `{EqDecision A} (x : A) (l : list A) :
  x ∈ unique l ↔ x ∈ l.
Proof.
  induction l as [|y l IH]; simpl; [done|].
  rewrite !elem_of_cons, elem_of_filter_bool, IH.
  destruct (decide (x = y)) as [->|Hne]; [tauto|].
  rewrite negb_true_iff, bool_decide_eq_false. tauto.
Qed.

Lemma unique_NoDup `{EqDecision A} (l : list A) : NoDup (unique l).
Proof.
  induction l as [|y l IH]; simpl; constructor.
  - rewrite elem_of_filter_bool, negb_true_iff, bool_decide_eq_false. tauto.
  - exact (sublist_NoDup _ _ IH (filter_sublist _ _)).
Qed.

Lemma isin_elem_of (z : Z) (l : list Z) : isin z l = true ↔ z ∈ l.
Proof.
  unfold isin. rewrite existsb_exists. split.
  - intros (y & Hy & Heq). apply Z.eqb_eq in Heq as ->. by apply list_elem_of_In.
  - intros H. exists z. split; [by apply list_elem_of_In|apply Z.eqb_refl].
Qed.

(** ** The filter *)

Lemma years_elem_of (df : list Movie) (y : Z) :
  y ∈ years df ↔ ∃ r, r ∈ df ∧ Release_Date r = y.
Proof.
  unfold years. rewrite stable_sort_elem_of, unique_elem_of, list_elem_of_fmap.
  split; intros (r & H1 & H2); exists r; auto.
Qed.

(** An empty genre selection leaves the year filter alone. *)
Lemma filtered_df_no_genre (df : list Movie) (ys : list Z) :
  filtered_df df ys [] = List.filter (fun r => isin (Release_Date r) ys) df.
Proof. reflexivity. Qed.

(** A year selection covering every row keeps every row. *)
Lemma filtered_df_all_years (df : list Movie) (ys : list Z) :
  (∀ r, r ∈ df → Release_Date r ∈ ys) → filtered_df df ys [] = df.
Proof.
  intros H. rewrite filtered_df_no_genre. apply filter_all.
  intros r Hr. apply isin_elem_of. by apply H.
Qed.

(** C1: the filter treats the two empty selections differently.  With no
    year selected the view is empty, whatever the genre selection; with every
    year of the frame selected and no genre selected the view is the whole
    frame, row for row. *)
Theorem filter_empty_selection_asymmetry (df : list Movie) :
  (∀ gs, filtered_df df [] gs = [])
  ∧ filtered_df df (years df) [] = df
  ∧ view (run df (default_widgets df)) = df.
Proof.
  assert (Hall : filtered_df df (years df) [] = df).
  { apply filtered_df_all_years. intros r Hr. apply years_elem_of. eauto. }
  split; [|split; [exact Hall|exact Hall]].
  intros gs. unfold filtered_df.
  rewrite (filter_none (fun r => isin (Release_Date r) [])) by done.
  by destruct gs.
Qed.

Lemma filtered_df_sub (df : list Movie) (ys : list Z) (gs : list pystr) :
  filtered_df df ys gs `sublist_of` df.
Proof.
  unfold filtered_df. destruct gs as [|g gs].
  - apply filter_sublist.
  - etransitivity; apply filter_sublist.
Qed.

(** Index labels stay distinct in the view. *)
Lemma filtered_df_labels_NoDup (df : list Movie) ys gs :
  NoDup (map label df) → NoDup (map label (filtered_df df ys gs)).
Proof.
  intros H. eapply sublist_NoDup; [exact H|].
  apply fmap_sublist, filtered_df_sub.
Qed.

Lemma filtered_df_Forall (P : Movie -> Prop) (df : list Movie) ys gs :
  Forall P df → Forall P (filtered_df df ys gs).
Proof.
  rewrite !Forall_forall. intros H r Hr. apply H.
  by apply (sublist_subseteq _ _ (filtered_df_sub df ys gs)).
Qed.

Lemma genre_match_spec (gs : list pystr) (x : pystr) :
  genre_match gs x = true
  ↔ ∃ sel t, sel ∈ gs ∧ t ∈ split_comma x ∧ strip t = sel.
Proof.
  unfold genre_match. rewrite existsb_exists. split.
  - intros (sel & Hsel & Hb). apply bool_decide_eq_true in Hb.
    apply list_elem_of_fmap in Hb as (t & -> & Ht).
    exists (strip t), t. split; [by apply list_elem_of_In|done].
  - intros (sel & t & Hsel & Ht & <-). exists (strip t).
    split; [by apply list_elem_of_In|].
    apply bool_decide_eq_true, list_elem_of_fmap. by exists t.
Qed.

(** X4: which rows the view holds: those of a selected year and, when
    genres are selected, with a trimmed comma-separated token among them. *)
Theorem filtered_df_elem_of (df : list Movie) (ys : list Z) (gs : list pystr)
    (r : Movie) :
  r ∈ filtered_df df ys gs
  ↔ r ∈ df ∧ Release_Date r ∈ ys
    ∧ (gs = [] ∨ ∃ sel t, sel ∈ gs ∧ t ∈ split_comma (Genre r) ∧ strip t = sel).
Proof.
  unfold filtered_df. destruct gs as [|g gs].
  - rewrite elem_of_filter_bool, isin_elem_of. split.
    + intros [H1 H2]. split; [done|]. split; [done|]. by left.
    + intros (H1 & H2 & _). by split.
  - rewrite !elem_of_filter_bool, isin_elem_of, genre_match_spec. split.
    + intros [[H1 H2] H3]. split; [done|]. split; [done|]. by right.
    + intros (H1 & H2 & [H3|H3]); [done|]. by split.
Qed.

(** C10: the view is a subsequence of the frame: its rows are rows of the
    frame, in the frame's order, none repeated or moved; in particular the
    index labels of the view are those of the frame with some left out. *)
Theorem filtered_df_sublist (df : list Movie) (ys : list Z) (gs : list pystr) :
  filtered_df df ys gs `sublist_of` df
  ∧ map label (filtered_df df ys gs) `sublist_of` map label df.
Proof.
  split; [apply filtered_df_sub|apply fmap_sublist, filtered_df_sub].
Qed.

(** ** Binary64 rounding *)



Lemma Qrint_ge (a : Z) (q : Q) : (inject_Z a <= q)%Q → a <= Qrint q.
Proof.
  intros H. assert (a <= Qfloor q).
  { rewrite <- (Qfloor_Z a). by apply Qfloor_resp_le. }
  unfold Qrint. destruct (_ ?= _)%Q; [destruct (Z.even _)|..]; lia.
Qed.

Lemma Qrint_le (b : Z) (q : Q) : (q <= inject_Z b)%Q → Qrint q <= b.
Proof.
  intros H. pose proof (Qfloor_le q) as Hf.
  assert (Hfb : Qfloor q <= b).
  { rewrite <- (Qfloor_Z b). by apply Qfloor_resp_le. }
  unfold Qrint. set (f := Qfloor q) in *.
  destruct (Z.eq_dec f b) as [->|Hne].
  - assert (E : ((q - inject_Z b) ?= 1 # 2)%Q = Lt).
    { apply (proj1 (Qlt_alt _ _)). revert Hf H. generalize (inject_Z b). intros x ? ?. lra. }
    rewrite E. lia.
  - destruct (_ ?= _)%Q; [destruct (Z.even _)|..]; lia.
Qed.

Lemma Qrint_mono (p q : Q) : (p <= q)%Q → Qrint p <= Qrint q.
Proof.
  intros H.
  pose proof (Qfloor_resp_le _ _ H) as Hf.
  destruct (Z.eq_dec (Qfloor p) (Qfloor q)) as [E|Hne].
  - unfold Qrint. rewrite E. set (f := Qfloor q).
    destruct (Qcompare_spec (p - inject_Z f) (1 # 2)) as [Hp|Hp|Hp];
      destruct (Qcompare_spec (q - inject_Z f) (1 # 2)) as [Hq|Hq|Hq];
      try destruct (Z.even f); try lia; exfalso; lra.
  - transitivity (Qfloor q); [|apply Qrint_ge, Qfloor_le].
    apply Qrint_le. pose proof (Qlt_floor p) as Hl.
    assert (Qfloor p + 1 <= Qfloor q) by lia.
    apply Qlt_le_weak. eapply Qlt_le_trans; [exact Hl|].
    rewrite <- Zle_Qle. lia.
Qed.

Lemma Qpow2_pos (e : Z) : (0 < 2 ^ e)%Q.
Proof. apply Qpower_0_lt. reflexivity. Qed.

Lemma Qpow2_le (n m : Z) : n <= m → (2 ^ n <= 2 ^ m)%Q.
Proof. intros H. apply Qpower_le_compat_l; [exact H|]. discriminate. Qed.

Lemma Qpow2_lt_inv (n m : Z) : (2 ^ n < 2 ^ m)%Q → n < m.
Proof. intros H. eapply Qpower_lt_compat_l_inv; [exact H|]. reflexivity. Qed.

Lemma Qpow2_Z (n : Z) : 0 <= n → (2 ^ n == inject_Z (2 ^ n))%Q.
Proof. intros H. rewrite Zpower_Qpower by exact H. reflexivity. Qed.

Lemma Qpow2_plus (n m : Z) : (2 ^ (n + m) == 2 ^ n * 2 ^ m)%Q.
Proof. apply Qpower_plus. discriminate. Qed.

Lemma Qpow2_minus (n m : Z) : (2 ^ (n - m) == 2 ^ n / 2 ^ m)%Q.
Proof. apply Qpower_minus. discriminate. Qed.

Lemma Qlog2_spec (q : Q) :
  (0 < q)%Q → (2 ^ Qlog2 q <= q)%Q ∧ (q < 2 ^ (Qlog2 q + 1))%Q.
Proof.
  intros Hq. destruct q as [n d]. unfold Qlog2. cbn [Qnum Qden].
  assert (Hn : 0 < n).
  { unfold Qlt in Hq. simpl in Hq. lia. }
  pose proof (Z.log2_spec n Hn) as [Hn1 Hn2].
  pose proof (Z.log2_spec (Zpos d) (Pos2Z.is_pos d)) as [Hd1 Hd2].
  pose proof (Z.log2_nonneg n) as Ha. pose proof (Z.log2_nonneg (Zpos d)) as Hb.
  set (a := Z.log2 n) in *. set (b := Z.log2 (Zpos d)) in *.
  assert (Hq' : (n # d == inject_Z n / inject_Z (Zpos d))%Q) by apply Qmake_Qdiv.
  assert (Hdp : (0 < inject_Z (Zpos d))%Q) by reflexivity.
  assert (Hlo : (2 ^ (a - b - 1) < n # d)%Q).
  { replace (a - b - 1) with (a - (b + 1)) by lia.
    rewrite Qpow2_minus, Hq', !Qpow2_Z by lia.
    apply Qlt_shift_div_l; [exact Hdp|].
    assert (Hx : (0 < inject_Z (2 ^ (b + 1)))%Q).
    { rewrite <- Qpow2_Z by lia. apply Qpow2_pos. }
    assert (Hy : (inject_Z (Zpos d) < inject_Z (2 ^ (b + 1)))%Q).
    { rewrite <- Zlt_Qlt. unfold Z.succ in Hd2. lia. }
    assert (Hz : (inject_Z (2 ^ a) <= inject_Z n)%Q) by (rewrite <- Zle_Qle; lia).
    assert (Hw : (0 < inject_Z (2 ^ a))%Q).
    { rewrite <- Qpow2_Z by lia. apply Qpow2_pos. }
    set (A := inject_Z (2 ^ a)) in *. set (B := inject_Z (2 ^ (b + 1))) in *.
    set (N := inject_Z n) in *. set (D := inject_Z (Zpos d)) in *.
    assert (E : (A / B * D == A * (D / B))%Q) by (field; lra).
    rewrite E.
    assert (HDB : (D / B < 1)%Q).
    { apply Qlt_shift_div_r; [exact Hx|]. lra. }
    assert (HDB0 : (0 < D / B)%Q) by (apply Qlt_shift_div_l; lra).
    nra. }
  assert (Hhi : (n # d < 2 ^ (a - b + 1))%Q).
  { replace (a - b + 1) with (a + 1 - b) by lia.
    rewrite Qpow2_minus, Hq', !Qpow2_Z by lia.
    assert (Hx : (0 < inject_Z (2 ^ b))%Q).
    { rewrite <- Qpow2_Z by lia. apply Qpow2_pos. }
    assert (Hy : (inject_Z (2 ^ b) <= inject_Z (Zpos d))%Q).
    { rewrite <- Zle_Qle. lia. }
    assert (Hz : (inject_Z n < inject_Z (2 ^ (a + 1)))%Q).
    { rewrite <- Zlt_Qlt. unfold Z.succ in Hn2. lia. }
    assert (Hw : (0 < inject_Z (2 ^ (a + 1)))%Q).
    { rewrite <- Qpow2_Z by lia. apply Qpow2_pos. }
    set (A := inject_Z (2 ^ (a + 1))) in *. set (B := inject_Z (2 ^ b)) in *.
    set (N := inject_Z n) in *. set (D := inject_Z (Zpos d)) in *.
    apply Qlt_shift_div_r; [exact Hdp|].
    assert (E : (A / B * D == A * (D / B))%Q) by (field; lra).
    rewrite E.
    assert (HDB : (1 <= D / B)%Q).
    { apply Qle_shift_div_l; [exact Hx|]. lra. }
    nra. }
  destruct (Qle_bool (2 ^ (a - b)) (n # d)) eqn:E.
  - apply Qle_bool_iff in E. split; [exact E|exact Hhi].
  - split.
    + apply Qlt_le_weak. exact Hlo.
    + replace (a - b - 1 + 1) with (a - b) by lia.
      apply Qnot_le_lt. intros H. apply Qle_bool_iff in H. congruence.
Qed.

Lemma Qlog2_lt (q : Q) (e : Z) : (0 < q)%Q → (q < 2 ^ e)%Q → Qlog2 q < e.
Proof.
  intros Hq H. destruct (Qlog2_spec q Hq) as [H1 _].
  apply Qpow2_lt_inv. eapply Qle_lt_trans; eassumption.
Qed.

Lemma Qlog2_mono (p q : Q) : (0 < p)%Q → (p <= q)%Q → Qlog2 p <= Qlog2 q.
Proof.
  intros Hp H. assert (Hq : (0 < q)%Q) by lra.
  destruct (Qlog2_spec q Hq) as [_ H2].
  assert (Qlog2 p < Qlog2 q + 1); [|lia].
  apply Qlog2_lt; [exact Hp|]. lra.
Qed.

Lemma grid_finer (u u' : Z) (t : Q) : u' <= u → grid u t → grid u' t.
Proof.
  intros H [k Hk]. exists (k * 2 ^ (u - u')).
  rewrite Hk, inject_Z_mult, <- Qpow2_Z by lia.
  replace u with ((u - u') + u') at 1 by lia.
  rewrite Qpow2_plus. ring.
Qed.

Lemma grid_comp (u : Z) (t t' : Q) : (t == t')%Q → grid u t → grid u t'.
Proof. intros E [k Hk]. exists k. rewrite <- E. exact Hk. Qed.

Lemma grid_0 (u : Z) : grid u 0.
Proof. exists 0. ring. Qed.

Lemma grid_opp (u : Z) (t : Q) : grid u t → grid u (- t).
Proof.
  intros [k Hk]. exists (- k). rewrite Hk, inject_Z_opp. ring.
Qed.

Lemma grid_pow2 (u e : Z) : u <= e → grid u (2 ^ e).
Proof. intros H. apply (grid_finer e); [exact H|]. exists 1. ring. Qed.

Lemma rnd_grid_le (q t : Q) : grid (ulp_exp q) t → (q <= t)%Q → (rnd q <= t)%Q.
Proof.
  intros [k Hk] H. unfold rnd. pose proof (Qpow2_pos (ulp_exp q)) as Hp.
  set (p := (2 ^ ulp_exp q)%Q) in *.
  assert (Qrint (q / p) <= k).
  { apply Qrint_le. apply Qle_shift_div_r; [exact Hp|]. lra. }
  rewrite Hk. apply Qmult_le_compat_r; [|lra]. by rewrite <- Zle_Qle.
Qed.

Lemma rnd_grid_ge (q t : Q) : grid (ulp_exp q) t → (t <= q)%Q → (t <= rnd q)%Q.
Proof.
  intros [k Hk] H. unfold rnd. pose proof (Qpow2_pos (ulp_exp q)) as Hp.
  set (p := (2 ^ ulp_exp q)%Q) in *.
  assert (k <= Qrint (q / p)).
  { apply Qrint_ge. apply Qle_shift_div_l; [exact Hp|]. lra. }
  rewrite Hk. apply Qmult_le_compat_r; [|lra]. by rewrite <- Zle_Qle.
Qed.

Lemma rnd_grid_eq (q : Q) : grid (ulp_exp q) q → (rnd q == q)%Q.
Proof.
  intros H. apply Qle_antisym.
  - apply rnd_grid_le; [exact H|lra].
  - apply rnd_grid_ge; [exact H|lra].
Qed.

Lemma ulp_exp_mono (p q : Q) :
  (0 < Qabs p)%Q → (Qabs p <= Qabs q)%Q → ulp_exp p <= ulp_exp q.
Proof.
  intros Hp H. unfold ulp_exp. pose proof (Qlog2_mono _ _ Hp H). lia.
Qed.

(** Between two rationals of different precision lies a power of two on both
    grids. *)
Lemma rnd_mono_pos (p q : Q) : (0 < p)%Q → (p <= q)%Q → (rnd p <= rnd q)%Q.
Proof.
  intros Hp H. assert (Hq : (0 < q)%Q) by lra.
  assert (Ep : (Qabs p == p)%Q) by (apply Qabs_pos; lra).
  assert (Eq : (Qabs q == q)%Q) by (apply Qabs_pos; lra).
  assert (Hu : ulp_exp p <= ulp_exp q).
  { apply ulp_exp_mono; rewrite ?Ep, ?Eq; assumption. }
  destruct (Z.eq_dec (ulp_exp p) (ulp_exp q)) as [E|Hne].
  - unfold rnd. rewrite E. pose proof (Qpow2_pos (ulp_exp q)) as Hpos.
    set (w := (2 ^ ulp_exp q)%Q) in *.
    apply Qmult_le_compat_r; [|lra]. rewrite <- Zle_Qle. apply Qrint_mono.
    apply Qle_shift_div_l; [exact Hpos|].
    assert (Hx : (p / w * w == p)%Q) by (field; lra). rewrite Hx. exact H.
  - assert (Hlt : ulp_exp p < ulp_exp q) by lia.
    assert (Hap : (0 < Qabs p)%Q) by (rewrite Ep; exact Hp).
    assert (Haq : (0 < Qabs q)%Q) by (rewrite Eq; exact Hq).
    destruct (Qlog2_spec _ Hap) as [_ Hp2]. destruct (Qlog2_spec _ Haq) as [Hq1 _].
    unfold ulp_exp in Hlt, Hne.
    set (ep := Qlog2 (Qabs p)) in *. set (eq := Qlog2 (Qabs q)) in *.
    assert (Hpt : (p <= 2 ^ eq)%Q).
    { rewrite Ep in Hp2. apply Qlt_le_weak. eapply Qlt_le_trans; [exact Hp2|].
      apply Qpow2_le. lia. }
    assert (Htq : (2 ^ eq <= q)%Q) by (rewrite Eq in Hq1; exact Hq1).
    apply (Qle_trans _ (2 ^ eq)%Q).
    + apply rnd_grid_le; [|exact Hpt]. apply grid_pow2. unfold ulp_exp. fold ep. lia.
    + apply rnd_grid_ge; [|exact Htq]. apply grid_pow2. unfold ulp_exp. fold eq. lia.
Qed.


Lemma rnd_mono_neg (p q : Q) : (q < 0)%Q → (p <= q)%Q → (rnd p <= rnd q)%Q.
Proof.
  intros Hq H. assert (Hp : (p < 0)%Q) by lra.
  assert (Ep : (Qabs p == - p)%Q) by (apply Qabs_neg; lra).
  assert (Eq : (Qabs q == - q)%Q) by (apply Qabs_neg; lra).
  assert (Hu : ulp_exp q <= ulp_exp p).
  { apply ulp_exp_mono; rewrite ?Ep, ?Eq; lra. }
  destruct (Z.eq_dec (ulp_exp p) (ulp_exp q)) as [E|Hne].
  - unfold rnd. rewrite E. pose proof (Qpow2_pos (ulp_exp q)) as Hpos.
    set (w := (2 ^ ulp_exp q)%Q) in *.
    apply Qmult_le_compat_r; [|lra]. rewrite <- Zle_Qle. apply Qrint_mono.
    apply Qle_shift_div_l; [exact Hpos|].
    assert (Hx : (p / w * w == p)%Q) by (field; lra). rewrite Hx. exact H.
  - assert (Hlt : ulp_exp q < ulp_exp p) by lia.
    assert (Hap : (0 < Qabs p)%Q) by (rewrite Ep; lra).
    assert (Haq : (0 < Qabs q)%Q) by (rewrite Eq; lra).
    destruct (Qlog2_spec _ Hap) as [Hp1 _]. destruct (Qlog2_spec _ Haq) as [_ Hq2].
    unfold ulp_exp in Hlt, Hne.
    set (ep := Qlog2 (Qabs p)) in *. set (eq := Qlog2 (Qabs q)) in *.
    assert (Hpt : (p <= - 2 ^ ep)%Q) by (rewrite Ep in Hp1; lra).
    assert (Htq : (- 2 ^ ep <= q)%Q).
    { rewrite Eq in Hq2. assert (2 ^ (eq + 1) <= 2 ^ ep)%Q by (apply Qpow2_le; lia). lra. }
    apply (Qle_trans _ (- 2 ^ ep)%Q).
    + apply rnd_grid_le; [|exact Hpt]. apply grid_opp, grid_pow2.
      unfold ulp_exp. fold ep. lia.
    + apply rnd_grid_ge; [|exact Htq]. apply grid_opp, grid_pow2.
      unfold ulp_exp. fold eq. lia.
Qed.

Lemma rnd_mono (p q : Q) : (p <= q)%Q → (rnd p <= rnd q)%Q.
Proof.
  intros H. destruct (Qlt_le_dec 0 p) as [Hp|Hp].
  - by apply rnd_mono_pos.
  - destruct (Qlt_le_dec q 0) as [Hq|Hq].
    + by apply rnd_mono_neg.
    + apply (Qle_trans _ 0%Q).
      * apply rnd_grid_le; [apply grid_0|exact Hp].
      * apply rnd_grid_ge; [apply grid_0|exact Hq].
Qed.

Lemma Qneg_b_true (q : Q) : Qneg_b q = true ↔ (q < 0)%Q.
Proof.
  unfold Qneg_b, Qlt. destruct q as [n d]. simpl. rewrite Z.ltb_lt. lia.
Qed.

Lemma Qneg_b_false (q : Q) : Qneg_b q = false ↔ (0 <= q)%Q.
Proof.
  unfold Qneg_b, Qle. destruct q as [n d]. simpl. rewrite Z.ltb_ge. lia.
Qed.

(** What [b64] returns, read off the rounded rational. *)
Lemma b64_cases (q : Q) :
  (b64 q = Finite (Qred (rnd (Qred q))) ∧ (Qabs (rnd (Qred q)) < 2 ^ 1024)%Q)
  ∨ (b64 q = Inf false ∧ (2 ^ 1024 <= rnd (Qred q))%Q)
  ∨ (b64 q = Inf true ∧ (rnd (Qred q) <= - 2 ^ 1024)%Q).
Proof.
  unfold b64. set (q' := Qred q). pose proof (Qpow2_pos 1024) as Hpos.
  destruct (Qle_bool (2 ^ 1024) (Qabs (rnd q'))) eqn:E.
  - apply Qle_bool_iff in E. right.
    destruct (Qneg_b q') eqn:Es.
    + right. split; [reflexivity|]. apply Qneg_b_true in Es.
      assert (rnd q' <= 0)%Q.
      { apply rnd_grid_le; [apply grid_0|lra]. }
      rewrite Qabs_neg in E by assumption. lra.
    + left. split; [reflexivity|]. apply Qneg_b_false in Es.
      assert (0 <= rnd q')%Q.
      { apply rnd_grid_ge; [apply grid_0|lra]. }
      rewrite Qabs_pos in E by assumption. lra.
  - left. split; [reflexivity|]. apply Qnot_le_lt. intros H.
    apply Qle_bool_iff in H. congruence.
Qed.

Lemma b64_comp (p q : Q) : (p == q)%Q → b64 p = b64 q.
Proof. intros H. unfold b64. rewrite (Qred_complete _ _ H). reflexivity. Qed.

(** Rounding keeps the order. *)
Lemma b64_mono (p q : Q) : (p <= q)%Q → fl_leb (b64 p) (b64 q) = true.
Proof.
  intros H. assert (Hr : (rnd (Qred p) <= rnd (Qred q))%Q).
  { apply rnd_mono. rewrite !Qred_correct. exact H. }
  pose proof (Qpow2_pos 1024) as Hpos.
  destruct (b64_cases p) as [[-> Hp]|[[-> Hp]|[-> Hp]]];
    destruct (b64_cases q) as [[-> Hq]|[[-> Hq]|[-> Hq]]]; simpl; try reflexivity.
  - apply Qle_bool_iff. apply (proj2 (Qred_le _ _)). exact Hr.
  - exfalso. apply Qabs_Qlt_condition in Hp. lra.
  - exfalso. apply Qabs_Qlt_condition in Hq. lra.
  - exfalso. lra.
Qed.

Lemma Qred_inject_Z (z : Z) : Qred (inject_Z z) = inject_Z z.
Proof.
  unfold inject_Z, Qred.
  pose proof (Z.ggcd_gcd z 1) as Hg. pose proof (Z.ggcd_correct_divisors z 1) as Hd.
  destruct (Z.ggcd z 1) as [g [a b]]. simpl in *.
  rewrite Z.gcd_1_r in Hg. subst g. destruct Hd as [-> Hb].
  assert (b = 1) by lia. subst b. f_equal. lia.
Qed.

Lemma Qabs_pos_lt (q : Q) : ¬ (q == 0)%Q → (0 < Qabs q)%Q.
Proof.
  intros Hn. destruct (Qlt_le_dec 0 q) as [H|H].
  - rewrite Qabs_pos; lra.
  - destruct (Qlt_le_dec q 0) as [H'|H'].
    + rewrite Qabs_neg; lra.
    + exfalso. apply Hn. lra.
Qed.

(** A rational with at most 53 significant bits, whose last bit is not below
    the smallest subnormal, is a binary64. *)
Lemma b64_exact (m k : Z) (q : Q) :
  (q == inject_Z m * 2 ^ k)%Q → Z.abs m < 2 ^ 53 → - 1074 <= k →
  (Qabs q < 2 ^ 1024)%Q →
  b64 q = Finite (Qred q).
Proof.
  intros Hq Hm Hk Hmax.
  assert (Hg : grid (ulp_exp (Qred q)) (Qred q)).
  { destruct (Qeq_dec q 0) as [E0|Hn0].
    - apply (grid_comp _ 0); [|apply grid_0].
      symmetry. rewrite Qred_correct. exact E0.
    - apply (grid_finer k); [|exists m; rewrite Qred_correct; exact Hq].
      unfold ulp_exp. apply Z.max_lub; [|exact Hk].
      assert (Hpos : (0 < Qabs (Qred q))%Q).
      { apply Qabs_pos_lt. rewrite Qred_correct. exact Hn0. }
      assert (Qlog2 (Qabs (Qred q)) < 53 + k); [|lia].
      apply Qlog2_lt; [exact Hpos|].
      rewrite Qred_correct, Hq, Qabs_Qmult, Qpow2_plus.
      rewrite (Qabs_pos (2 ^ k)) by (apply Qlt_le_weak, Qpow2_pos).
      apply Qmult_lt_compat_r; [apply Qpow2_pos|].
      rewrite Qpow2_Z by lia. apply Qabs_Qlt_condition.
      rewrite <- inject_Z_opp, <- !Zlt_Qlt. lia. }
  assert (Hr : (rnd (Qred q) == q)%Q).
  { rewrite (rnd_grid_eq _ Hg). apply Qred_correct. }
  destruct (b64_cases q) as [[-> _]|[[_ H]|[_ H]]].
  - f_equal. apply Qred_complete. exact Hr.
  - exfalso. rewrite Hr in H. apply Qabs_Qlt_condition in Hmax. lra.
  - exfalso. rewrite Hr in H. apply Qabs_Qlt_condition in Hmax. lra.
Qed.

Lemma b64_Z (z : Z) : Z.abs z < 2 ^ 53 → b64 (inject_Z z) = Finite (inject_Z z).
Proof.
  intros H. rewrite (b64_exact z 0).
  - by rewrite Qred_inject_Z.
  - change (2 ^ 0)%Q with 1%Q. ring.
  - exact H.
  - lia.
  - apply Qabs_Qlt_condition. rewrite Qpow2_Z by lia.
    rewrite <- inject_Z_opp, <- !Zlt_Qlt.
    assert (2 ^ 53 < 2 ^ 1024) by (apply Z.pow_lt_mono_r; lia). lia.
Qed.

(** A power of two in the range of the exponents is a binary64. *)
Lemma b64_pow2_Z (k : Z) : 0 <= k < 1024 → b64 (inject_Z (2 ^ k)) = Finite (inject_Z (2 ^ k)).
Proof.
  intros H. rewrite (b64_exact 1 k).
  - by rewrite Qred_inject_Z.
  - rewrite Qpow2_Z by lia. ring.
  - reflexivity.
  - lia.
  - apply Qabs_Qlt_condition. rewrite (Qpow2_Z 1024) by lia.
    rewrite <- inject_Z_opp, <- !Zlt_Qlt.
    assert (2 ^ k < 2 ^ 1024) by (apply Z.pow_lt_mono_r; lia).
    assert (0 < 2 ^ k) by (apply Z.pow_pos_nonneg; lia). lia.
Qed.

(** A rational between two binary64 values rounds to a finite value between
    them. *)
Lemma b64_between (L H l h q : Q) :
  b64 L = Finite l → b64 H = Finite h → (L <= q <= H)%Q →
  ∃ r, b64 q = Finite r ∧ (l <= r <= h)%Q.
Proof.
  intros HL HH [H1 H2].
  pose proof (b64_mono _ _ H1) as M1. pose proof (b64_mono _ _ H2) as M2.
  rewrite HL in M1. rewrite HH in M2.
  destruct (b64 q) as [r|[|]|]; simpl in *; try discriminate.
  exists r. split; [reflexivity|]. split; by apply Qle_bool_iff.
Qed.

Lemma b64_between_Z (lo hi : Z) (q : Q) :
  Z.abs lo < 2 ^ 53 → Z.abs hi < 2 ^ 53 → (inject_Z lo <= q <= inject_Z hi)%Q →
  ∃ r, b64 q = Finite r ∧ (inject_Z lo <= r <= inject_Z hi)%Q.
Proof.
  intros Hlo Hhi. apply b64_between; by apply b64_Z.
Qed.

Lemma Qrint_near (q : Q) : (Qabs (inject_Z (Qrint q) - q) <= 1 # 2)%Q.
Proof.
  unfold Qrint.
  pose proof (Qfloor_le q) as Hlo. pose proof (Qlt_floor q) as Hhi.
  rewrite inject_Z_plus in Hhi. change (inject_Z 1) with 1%Q in Hhi.
  set (f := Qfloor q) in *.
  destruct (Qcompare (q - inject_Z f) (1 # 2)) eqn:E.
  - apply Qeq_alt in E. destruct (Z.even f).
    + apply Qabs_Qle_condition. split; lra.
    + rewrite inject_Z_plus. change (inject_Z 1) with 1%Q.
      apply Qabs_Qle_condition. split; lra.
  - apply Qlt_alt in E. apply Qabs_Qle_condition. split; lra.
  - apply Qgt_alt in E. rewrite inject_Z_plus. change (inject_Z 1) with 1%Q.
    apply Qabs_Qle_condition. split; lra.
Qed.

(** Rounding moves a rational by at most half a unit in the last place. *)
Lemma rnd_err (q : Q) :
  (Qabs (rnd q - q) <= Qabs q * 2 ^ (- 53) + 2 ^ (- 1075))%Q.
Proof.
  pose proof (Qpow2_pos (- 53)) as H53. pose proof (Qpow2_pos (- 1075)) as H1075.
  pose proof (Qabs_nonneg q) as Hq0.
  destruct (Qeq_dec q 0) as [E0|Hn0].
  - assert (Hr : (rnd q == q)%Q).
    { apply rnd_grid_eq. apply (grid_comp _ 0); [by symmetry|apply grid_0]. }
    assert (Hz : (rnd q - q == 0)%Q) by (rewrite Hr; ring).
    rewrite Hz. change (Qabs 0) with 0%Q.
    set (a := (2 ^ (- 53))%Q) in *. set (b := (2 ^ (- 1075))%Q) in *.
    set (c := Qabs q) in *. nra.
  - pose proof (Qabs_pos_lt q Hn0) as Hpos.
    destruct (Qlog2_spec _ Hpos) as [He _].
    pose proof (Qrint_near (q / 2 ^ ulp_exp q)) as Hn.
    unfold rnd. pose proof (Qpow2_pos (ulp_exp q)) as Hw.
    assert (Hhalf : ((1 # 2) * 2 ^ ulp_exp q
                     <= Qabs q * 2 ^ (- 53) + 2 ^ (- 1075))%Q).
    { unfold ulp_exp in *. set (e := Qlog2 (Qabs q)) in *.
      destruct (Z.max_spec (e - 52) (- 1074)) as [[_ ->]|[_ ->]].
      - assert (Ex : ((1 # 2) * 2 ^ (- 1074) == 2 ^ (- 1075))%Q).
        { replace (- 1074) with (1 + - 1075) by lia. rewrite Qpow2_plus.
          change (2 ^ 1)%Q with 2%Q. ring. }
        rewrite Ex.
        set (a := (2 ^ (- 53))%Q) in *. set (b := (2 ^ (- 1075))%Q) in *.
        set (c := Qabs q) in *. nra.
      - replace (e - 52) with (1 + (e + - 53)) by lia.
        rewrite !Qpow2_plus. change (2 ^ 1)%Q with 2%Q.
        assert (2 ^ e * 2 ^ (- 53) <= Qabs q * 2 ^ (- 53))%Q.
        { apply Qmult_le_compat_r; [exact He|lra]. }
        set (a := (2 ^ (- 53))%Q) in *. set (b := (2 ^ (- 1075))%Q) in *.
        set (c := Qabs q) in *. set (d := (2 ^ e)%Q) in *. lra. }
    set (w := (2 ^ ulp_exp q)%Q) in *.
    set (k := inject_Z (Qrint (q / w))) in *.
    assert (E : (k * w - q == (k - q / w) * w)%Q) by (field; lra).
    rewrite E, Qabs_Qmult, (Qabs_pos w) by lra.
    apply (Qle_trans _ ((1 # 2) * w)%Q); [|exact Hhalf].
    apply Qmult_le_compat_r; [exact Hn|lra].
Qed.

Lemma b64_err (q r : Q) :
  b64 q = Finite r →
  (Qabs (r - q) <= Qabs q * 2 ^ (- 53) + 2 ^ (- 1075))%Q.
Proof.
  intros H. destruct (b64_cases q) as [[E _]|[[E _]|[E _]]]; rewrite E in H;
    [|discriminate..].
  injection H as <-. pose proof (rnd_err (Qred q)) as Herr.
  assert (E1 : (Qred (rnd (Qred q)) - q == rnd (Qred q) - Qred q)%Q).
  { pose proof (Qred_correct (rnd (Qred q))) as A. pose proof (Qred_correct q) as B.
    revert A B. generalize (rnd (Qred q)). intros R.
    generalize (Qred R) (Qred q). intros x y A B. lra. }
  rewrite E1. rewrite (Qabs_wd _ _ (Qred_correct q)) in Herr. exact Herr.
Qed.

Lemma Qzero_b_false (q : Q) : Qzero_b q = false ↔ ¬ (q == 0)%Q.
Proof.
  unfold Qzero_b, Qeq. destruct q as [n d]. simpl. rewrite Z.eqb_neq. lia.
Qed.

Lemma of_int_small (z : Z) : Z.abs z < 2 ^ 53 → of_int z = Finite (inject_Z z).
Proof. apply b64_Z. Qed.

(** An int64 converts to a finite float64 of the same sign. *)
Lemma of_int_range (lo hi z : Z) :
  - 2 ^ 63 <= lo → hi <= 2 ^ 63 → lo <= z <= hi →
  (Z.abs lo < 2 ^ 53 ∨ lo = - 2 ^ 63) → (Z.abs hi < 2 ^ 53 ∨ hi = 2 ^ 63) →
  ∃ f, of_int z = Finite f ∧ (inject_Z lo <= f <= inject_Z hi)%Q.
Proof.
  intros Hlo Hhi Hz Elo Ehi. unfold of_int.
  apply (b64_between (inject_Z lo) (inject_Z hi)).
  - destruct Elo as [?| ->]; [by apply b64_Z|].
    rewrite (b64_exact (- 1) 63).
    + by rewrite Qred_inject_Z.
    + rewrite Qpow2_Z by lia. rewrite <- inject_Z_mult. reflexivity.
    + reflexivity.
    + lia.
    + reflexivity.
  - destruct Ehi as [?| ->]; [by apply b64_Z|]. by apply b64_pow2_Z.
  - rewrite <- !Zle_Qle. exact Hz.
Qed.





(** ** Marker sizes *)

Lemma fold_max_spec (xs : list Z) (x : Z) :
  fold_left Z.max xs x ∈ x :: xs ∧ ∀ v, v ∈ x :: xs → v <= fold_left Z.max xs x.
Proof.
  revert x. induction xs as [|y xs IH]; intros x; simpl.
  - split; [left|]. intros v Hv. apply list_elem_of_singleton in Hv. lia.
  - destruct (IH (Z.max x y)) as [Hin Hle]. split.
    + apply elem_of_cons in Hin as [Heq|Hin].
      * rewrite Heq. destruct (Z.max_spec x y) as [[_ ->]|[_ ->]].
        -- right; left.
        -- left.
      * by do 2 right.
    + intros v Hv. rewrite !elem_of_cons in Hv.
      destruct Hv as [->|[->|Hv]].
      * etransitivity; [apply (Z.le_max_l _ y)|]. apply Hle. left.
      * etransitivity; [apply (Z.le_max_r x)|]. apply Hle. left.
      * apply Hle. by right.
Qed.

Lemma fold_min_spec (xs : list Z) (x : Z) :
  fold_left Z.min xs x ∈ x :: xs ∧ ∀ v, v ∈ x :: xs → fold_left Z.min xs x <= v.
Proof.
  revert x. induction xs as [|y xs IH]; intros x; simpl.
  - split; [left|]. intros v Hv. apply list_elem_of_singleton in Hv. lia.
  - destruct (IH (Z.min x y)) as [Hin Hle]. split.
    + apply elem_of_cons in Hin as [Heq|Hin].
      * rewrite Heq. destruct (Z.min_spec x y) as [[_ ->]|[_ ->]].
        -- left.
        -- right; left.
      * by do 2 right.
    + intros v Hv. rewrite !elem_of_cons in Hv.
      destruct Hv as [->|[->|Hv]].
      * etransitivity; [|apply (Z.le_min_l _ y)]. apply Hle. left.
      * etransitivity; [|apply (Z.le_min_r x)]. apply Hle. left.
      * apply Hle. by right.
Qed.

Lemma array_max_spec (vals : list Z) (mx : Z) :
  array_max vals = Some mx → mx ∈ vals ∧ ∀ v, v ∈ vals → v <= mx.
Proof.
  destruct vals as [|x xs]; simpl; [done|].
  intros [= <-]. apply fold_max_spec.
Qed.

Lemma array_min_spec (vals : list Z) (mn : Z) :
  array_min vals = Some mn → mn ∈ vals ∧ ∀ v, v ∈ vals → mn <= v.
Proof.
  destruct vals as [|x xs]; simpl; [done|].
  intros [= <-]. apply fold_min_spec.
Qed.

Lemma wrap64_id (z : Z) : in_int64 z → wrap64 z = z.
Proof.
  unfold in_int64, int64_min, int64_max, wrap64. intros H.
  rewrite Z.mod_small; lia.
Qed.

Lemma b64_le_finite (p q r s : Q) :
  (p <= q)%Q → b64 p = Finite r → b64 q = Finite s → (r <= s)%Q.
Proof.
  intros H Hp Hq. pose proof (b64_mono _ _ H) as M. rewrite Hp, Hq in M.
  by apply Qle_bool_iff.
Qed.

(** Two ordered rationals between two small integers round to two ordered
    finite values between them. *)
Lemma b64_step (lo hi : Z) (p q : Q) :
  Z.abs lo < 2 ^ 53 → Z.abs hi < 2 ^ 53 →
  (inject_Z lo <= p)%Q → (p <= q)%Q → (q <= inject_Z hi)%Q →
  ∃ r s, b64 p = Finite r ∧ b64 q = Finite s
         ∧ (inject_Z lo <= r)%Q ∧ (r <= s)%Q ∧ (s <= inject_Z hi)%Q.
Proof.
  intros Hlo Hhi H1 H2 H3.
  destruct (b64_between_Z lo hi p Hlo Hhi) as (r & Hr & Hr1 & _).
  { split; [exact H1|]. by apply (Qle_trans _ q). }
  destruct (b64_between_Z lo hi q Hlo Hhi) as (s & Hs & _ & Hs2).
  { split; [|exact H3]. by apply (Qle_trans _ p). }
  exists r, s. repeat split; try done. by apply (b64_le_finite p q).
Qed.

Lemma b64_between_pow2 (k : Z) (q : Q) :
  0 <= k < 1024 → (- inject_Z (2 ^ k) <= q <= inject_Z (2 ^ k))%Q →
  ∃ r, b64 q = Finite r ∧ (- inject_Z (2 ^ k) <= r <= inject_Z (2 ^ k))%Q.
Proof.
  intros Hk Hq.
  assert (Hlt : 2 ^ k < 2 ^ 1024) by (apply Z.pow_lt_mono_r; lia).
  assert (Hpos : 0 < 2 ^ k) by (apply Z.pow_pos_nonneg; lia).
  apply (b64_between (- inject_Z (2 ^ k)) (inject_Z (2 ^ k))); [| |exact Hq].
  - rewrite (b64_exact (- 1) k).
    + f_equal. rewrite <- inject_Z_opp. apply Qred_inject_Z.
    + rewrite Qpow2_Z by lia. change (inject_Z (- 1)) with (- (1))%Q. ring.
    + reflexivity.
    + lia.
    + rewrite Qabs_opp. apply Qabs_Qlt_condition. rewrite (Qpow2_Z 1024) by lia.
      rewrite <- inject_Z_opp, <- !Zlt_Qlt. lia.
  - by apply b64_pow2_Z.
Qed.

Lemma fl_div_finite (a b : Q) :
  ¬ (b == 0)%Q → fl_div (Finite a) (Finite b) = b64 (a / b).
Proof. intros Hb. unfold fl_div. by rewrite (proj2 (Qzero_b_false b) Hb). Qed.

Lemma of_int_size_range : of_int (max_display_size - min_size) = Finite 35.
Proof. vm_compute. reflexivity. Qed.

Lemma of_int_min_size : of_int min_size = Finite 5.
Proof. vm_compute. reflexivity. Qed.

Lemma scaled_eq (a d : Z) (fa fd : Q) :
  of_int a = Finite fa → of_int d = Finite fd → ¬ (fd == 0)%Q →
  scaled a d = match b64 (fa / fd) with
               | Finite n => match b64 (n * 35) with
                             | Finite t => b64 (t + 5)
                             | Inf s => Inf s
                             | NaN => NaN
                             end
               | Inf s => Inf s
               | NaN => NaN
               end.
Proof.
  intros Ha Hd Hnz. unfold scaled.
  rewrite Ha, Hd, fl_div_finite, of_int_size_range, of_int_min_size by exact Hnz.
  destruct (b64 (fa / fd)) as [n|s|]; simpl; [|by destruct s|done].
  destruct (b64 (n * 35)) as [t|s|]; simpl; [done|by destruct s|done].
Qed.

(** Lines 229-230 keep the order of the counts, and stay within [[5, 40]]. *)
Lemma scaled_order (a1 a2 d : Z) :
  0 <= a1 <= a2 → a2 <= d → 0 < d <= int64_max →
  ∃ q1 q2, scaled a1 d = Finite q1 ∧ scaled a2 d = Finite q2
           ∧ (5 <= q1)%Q ∧ (q1 <= q2)%Q ∧ (q2 <= 40)%Q.
Proof.
  intros Ha1 Ha2 Hd. unfold int64_max in Hd.
  destruct (of_int_range 1 (2 ^ 63) d) as (fd & Hfd & Hd1 & Hd2);
    [lia|lia|lia|left; reflexivity|by right|].
  destruct (of_int_range 0 (2 ^ 63) a1) as (f1 & Hf1 & H10 & _);
    [lia|lia|lia|left; reflexivity|by right|].
  destruct (of_int_range 0 (2 ^ 63) a2) as (f2 & Hf2 & _ & _);
    [lia|lia|lia|left; reflexivity|by right|].
  assert (H12 : (f1 <= f2)%Q).
  { apply (b64_le_finite (inject_Z a1) (inject_Z a2)); [|exact Hf1|exact Hf2].
    rewrite <- Zle_Qle. lia. }
  assert (H2d : (f2 <= fd)%Q).
  { apply (b64_le_finite (inject_Z a2) (inject_Z d)); [|exact Hf2|exact Hfd].
    rewrite <- Zle_Qle. lia. }
  change (inject_Z 1) with 1%Q in Hd1. change (inject_Z 0) with 0%Q in H10.
  assert (Hnz : ¬ (fd == 0)%Q) by lra.
  rewrite (scaled_eq _ _ _ _ Hf1 Hfd Hnz), (scaled_eq _ _ _ _ Hf2 Hfd Hnz).
  destruct (b64_step 0 1 (f1 / fd) (f2 / fd)) as (n1 & n2 & -> & -> & Hn0 & Hn & Hn1);
    [reflexivity|reflexivity|..].
  { change (inject_Z 0) with 0%Q. apply Qle_shift_div_l; lra. }
  { unfold Qdiv. apply Qmult_le_compat_r; [exact H12|].
    apply Qlt_le_weak, Qinv_lt_0_compat. lra. }
  { change (inject_Z 1) with 1%Q. apply Qle_shift_div_r; lra. }
  change (inject_Z 0) with 0%Q in Hn0. change (inject_Z 1) with 1%Q in Hn1.
  destruct (b64_step 0 35 (n1 * 35) (n2 * 35)) as (t1 & t2 & -> & -> & Ht0 & Ht & Ht1);
    [reflexivity|reflexivity|..].
  { change (inject_Z 0) with 0%Q. lra. }
  { lra. }
  { change (inject_Z 35) with 35%Q. lra. }
  change (inject_Z 0) with 0%Q in Ht0. change (inject_Z 35) with 35%Q in Ht1.
  destruct (b64_step 5 40 (t1 + 5) (t2 + 5)) as (s1 & s2 & -> & -> & Hs0 & Hs & Hs1);
    [reflexivity|reflexivity|..].
  { change (inject_Z 5) with 5%Q. lra. }
  { lra. }
  { change (inject_Z 40) with 40%Q. lra. }
  by exists s1, s2.
Qed.

(** The smallest count gets exactly the minimum size. *)
Lemma scaled_min (d : Z) : 0 < d <= int64_max → scaled 0 d = Finite 5.
Proof.
  intros Hd. unfold int64_max in Hd.
  destruct (of_int_range 1 (2 ^ 63) d) as (fd & Hfd & Hd1 & _);
    [lia|lia|lia|left; reflexivity|by right|].
  change (inject_Z 1) with 1%Q in Hd1.
  assert (Hnz : ¬ (fd == 0)%Q) by lra.
  rewrite (scaled_eq 0 d 0 fd); [|by vm_compute|exact Hfd|exact Hnz].
  rewrite (b64_comp (0 / fd) 0) by (field; exact Hnz).
  vm_compute. reflexivity.
Qed.

(** The largest count gets exactly the maximum size. *)
Lemma scaled_max (d : Z) : 0 < d <= int64_max → scaled d d = Finite 40.
Proof.
  intros Hd. unfold int64_max in Hd.
  destruct (of_int_range 1 (2 ^ 63) d) as (fd & Hfd & Hd1 & _);
    [lia|lia|lia|left; reflexivity|by right|].
  change (inject_Z 1) with 1%Q in Hd1.
  assert (Hnz : ¬ (fd == 0)%Q) by lra.
  rewrite (scaled_eq d d fd fd); [|exact Hfd|exact Hfd|exact Hnz].
  rewrite (b64_comp (fd / fd) 1) by (field; exact Hnz).
  vm_compute. reflexivity.
Qed.

(** With counts below [2^53] every step of lines 229-230 is off by at most
    one rounding, and the size is the exact linear rescaling up to [1e-13]. *)
Lemma scaled_close (a d : Z) (q : Q) :
  0 <= a <= d → 0 < d < 2 ^ 53 → scaled a d = Finite q →
  (Qabs (q - (inject_Z a / inject_Z d * 35 + 5)) <= 1 # 10000000000000)%Q.
Proof.
  intros Ha Hd Hq.
  assert (Hdq : (0 < inject_Z d)%Q) by (rewrite <- (Zlt_Qlt 0); lia).
  assert (Haq : (0 <= inject_Z a)%Q) by (rewrite <- (Zle_Qle 0); lia).
  assert (Had : (inject_Z a <= inject_Z d)%Q) by (rewrite <- Zle_Qle; lia).
  assert (Hnz : ¬ (inject_Z d == 0)%Q) by lra.
  rewrite (scaled_eq a d (inject_Z a) (inject_Z d)) in Hq;
    [|apply of_int_small; lia|apply of_int_small; lia|exact Hnz].
  set (x := (inject_Z a / inject_Z d)%Q) in *.
  assert (Hx0 : (0 <= x)%Q) by (apply Qle_shift_div_l; lra).
  assert (Hx1 : (x <= 1)%Q) by (apply Qle_shift_div_r; lra).
  destruct (b64_between_Z 0 1 x) as (n & Hn & Hn0 & Hn1);
    [reflexivity|reflexivity|done|].
  change (inject_Z 0) with 0%Q in Hn0. change (inject_Z 1) with 1%Q in Hn1.
  rewrite Hn in Hq.
  destruct (b64_between_Z 0 35 (n * 35)) as (t & Ht & Ht0 & Ht1);
    [reflexivity|reflexivity| |].
  { change (inject_Z 0) with 0%Q. change (inject_Z 35) with 35%Q. split; lra. }
  change (inject_Z 0) with 0%Q in Ht0. change (inject_Z 35) with 35%Q in Ht1.
  rewrite Ht in Hq.
  pose proof (b64_err _ _ Hn) as En. pose proof (b64_err _ _ Ht) as Et.
  pose proof (b64_err _ _ Hq) as Es.
  rewrite (Qabs_pos x) in En by exact Hx0.
  rewrite (Qabs_pos (n * 35)) in Et by lra.
  rewrite (Qabs_pos (t + 5)) in Es by lra.
  assert (He : (2 ^ (- 53) <= 2 # 10000000000000000)%Q) by (by vm_compute).
  assert (Ht' : (2 ^ (- 1075) <= 1 # 10000000000000000)%Q) by (by vm_compute).
  pose proof (Qpow2_pos (- 53)) as He0. pose proof (Qpow2_pos (- 1075)) as Ht0'.
  set (e := (2 ^ (- 53))%Q) in *. set (u := (2 ^ (- 1075))%Q) in *.
  apply Qabs_Qle_condition in En, Et, Es. apply Qabs_Qle_condition.
  destruct En as [En1 En2], Et as [Et1 Et2], Es as [Es1 Es2].
  assert (Hxe : (x * e <= e)%Q) by nra.
  assert (Hne : (n * 35 * e <= 35 * e)%Q) by nra.
  assert (Hte : ((t + 5) * e <= 40 * e)%Q) by nra.
  split; lra.
Qed.

(** No row above zero: every marker gets the fixed minimum, and nothing is
    divided. *)
Lemma scale_sizes_nonpos (vals : list Z) (mx : Z) :
  array_max vals = Some mx → mx <= 0 →
  scale_sizes vals = Some (map (fun _ => Finite 5) vals, []).
Proof.
  intros Hmx Hle. unfold scale_sizes. rewrite Hmx.
  destruct vals as [|x xs]; [done|]. simpl array_min. cbv iota beta.
  destruct (Z.ltb_spec 0 mx); [lia|]. by rewrite of_int_min_size.
Qed.

(** A proper range [mn < mx] with [mx > 0] (and [mx - mn] within int64):
    nothing wraps around, nothing is divided by zero, and every entry is
    lines 229-230 on the exact differences. *)
Lemma scale_sizes_proper (vals : list Z) (mn mx : Z) :
  array_min vals = Some mn → array_max vals = Some mx →
  0 < mx → mn < mx → mx - mn <= int64_max →
  scale_sizes vals = Some (map (fun v => scaled (v - mn) (mx - mn)) vals, []).
Proof.
  intros Hmn Hmx Hpos Hlt Hfit.
  destruct (array_min_spec _ _ Hmn) as [_ Hlo].
  destruct (array_max_spec _ _ Hmx) as [_ Hhi].
  assert (Hin : in_int64 (mx - mn)).
  { unfold in_int64, int64_min, int64_max in *. lia. }
  unfold scale_sizes. rewrite Hmx, Hmn.
  destruct (Z.ltb_spec 0 mx); [|lia].
  assert (Hs : sub64 mx mn = mx - mn) by (by apply wrap64_id).
  assert (Hb : in_int64_b (mx - mn) = true).
  { unfold in_int64_b, in_int64 in *. apply andb_true_iff. split; lia. }
  unfold np_scalar_sub, np_divide. rewrite Hs, Hb.
  destruct (Z.eqb_spec (mx - mn) 0); [lia|].
  simpl app. f_equal. f_equal. rewrite !map_map. apply map_ext_in.
  intros v Hv. apply list_elem_of_In in Hv.
  specialize (Hlo v Hv). specialize (Hhi v Hv).
  assert (Hv64 : in_int64 (v - mn)).
  { unfold in_int64, int64_min, int64_max in *. lia. }
  assert (Hsv : sub64 v mn = v - mn) by (by apply wrap64_id).
  by rewrite Hsv.
Qed.

(** What [scale_sizes_proper] gives for each entry. *)
Lemma scale_sizes_linear (vals : list Z) (mn mx : Z) :
  array_min vals = Some mn → array_max vals = Some mx →
  0 < mx → mn < mx → mx - mn <= int64_max →
  ∃ sizes,
    scale_sizes vals = Some (sizes, [])
    ∧ Forall2 (fun v s => s = scaled (v - mn) (mx - mn) ∧ mn <= v <= mx)
              vals sizes.
Proof.
  intros Hmn Hmx Hpos Hlt Hfit.
  destruct (array_min_spec _ _ Hmn) as [_ Hlo].
  destruct (array_max_spec _ _ Hmx) as [_ Hhi].
  eexists. split; [by apply scale_sizes_proper|].
  apply Forall2_fmap_r, Forall_Forall2_diag, Forall_forall.
  intros v Hv. split; [done|]. split; [by apply Hlo|by apply Hhi].
Qed.

Lemma map_replicate {A B} (f : A -> B) (n : nat) (x : A) :
  map f (replicate n x) = replicate n (f x).
Proof. induction n as [|n IH]; simpl; [done|]. by rewrite IH. Qed.

(** All rows share one positive count: the divisor [max - min] is zero,
    numpy raises the invalid-value flag and every entry is NaN. *)
Lemma scale_sizes_constant (c : Z) (n : nat) :
  0 < c →
  scale_sizes (replicate (S n) c) = Some (replicate (S n) NaN, [InvalidValue]).
Proof.
  intros Hc.
  assert (Hmax : ∀ k, fold_left Z.max (replicate k c) c = c).
  { induction k as [|k IH]; simpl; [done|]. by rewrite Z.max_id. }
  assert (Hmin : ∀ k, fold_left Z.min (replicate k c) c = c).
  { induction k as [|k IH]; simpl; [done|]. by rewrite Z.min_id. }
  assert (Hs : sub64 c c = 0).
  { unfold sub64. rewrite Z.sub_diag. reflexivity. }
  assert (Hno : ∀ k, existsb (fun x => negb (x =? 0)) (replicate k 0) = false).
  { induction k as [|k IH]; simpl; done. }
  unfold scale_sizes. simpl array_max. simpl array_min. rewrite Hmax, Hmin.
  destruct (Z.ltb_spec 0 c); [|lia].
  unfold np_scalar_sub, np_divide. rewrite Z.sub_diag, Hs, !map_replicate, Hs, Hno.
  reflexivity.
Qed.

Example load_one_film :
  load_data no_parse no_repr one_film_sheet = Ok [sample_movie 0 7].
Proof. reflexivity. Qed.

Example plot_sizes_10_20_30 :
  plot_sizes [sample_movie 0 10; sample_movie 1 20; sample_movie 2 30]
  = Some ([Finite 5; Finite (45 # 2); Finite 40], []).
Proof. reflexivity. Qed.

(** Counts 0, 1 and 3: the middle size is the binary64
    16.666666666666664, not the rational 50/3. *)
Example plot_sizes_0_1_3 :
  plot_sizes [sample_movie 0 0; sample_movie 1 1; sample_movie 2 3]
  = Some ([Finite 5; Finite (2345624805922133 # 140737488355328); Finite 40],
          []).
Proof. vm_compute. reflexivity. Qed.

Example plot_sizes_0_0_0 :
  plot_sizes [sample_movie 0 0; sample_movie 1 0; sample_movie 2 0]
  = Some ([Finite 5; Finite 5; Finite 5], []).
Proof. reflexivity. Qed.

(** X1: the maximum of the view is zero or less: every marker has size 5 and
    no division takes place. *)
Theorem plot_sizes_all_minimum (fv : list Movie) (mx : Z) :
  array_max (size_vals fv) = Some mx → mx <= 0 →
  plot_sizes fv = Some (map (fun _ => Finite 5) fv, []).
Proof.
  intros Hmx Hle. unfold plot_sizes, total_movies.
  destruct fv as [|r fv]; [done|]. simpl Nat.ltb. cbv iota.
  rewrite (scale_sizes_nonpos _ _ Hmx Hle). unfold size_vals.
  by rewrite map_map.
Qed.

Lemma plot_sizes_all_minimum_witness :
  plot_sizes [sample_movie 0 0; sample_movie 1 0]
  = Some (map (fun _ => Finite 5) [sample_movie 0 0; sample_movie 1 0], []).
Proof.
  apply (plot_sizes_all_minimum [sample_movie 0 0; sample_movie 1 0] 0);
    [reflexivity | lia].
Defined.

(** X2: the view has two different counts and a positive maximum (and the
    spread fits int64): no warning is raised and each row's size is
    [(v - min)/(max - min) * 35 + 5] evaluated in binary64, a finite number
    between 5 and 40; a row with the minimum count gets exactly 5, a row
    with the maximum count exactly 40, and with a spread below [2^53] every
    size is within [1e-13] of the exact linear rescaling. *)
Theorem plot_sizes_linear (fv : list Movie) (mn mx : Z) :
  array_min (size_vals fv) = Some mn → array_max (size_vals fv) = Some mx →
  0 < mx → mn < mx → mx - mn <= int64_max →
  ∃ sizes,
    plot_sizes fv = Some (sizes, [])
    ∧ Forall2 (fun r s =>
         let v := default 0%Z (Vote_Count r) in
         ∃ q, s = Finite q
              ∧ s = scaled (v - mn) (mx - mn)
              ∧ (5 <= q <= 40)%Q
              ∧ (v = mn → q = 5%Q)
              ∧ (v = mx → q = 40%Q)
              ∧ (mx - mn < 2 ^ 53 →
                 (Qabs (q - linear_rescale mn mx v) <= 1 # 10000000000000)%Q))
         fv sizes.
Proof.
  intros Hmn Hmx Hpos Hlt Hfit.
  destruct (scale_sizes_linear _ _ _ Hmn Hmx Hpos Hlt Hfit) as (sizes & Hs & Hall).
  exists sizes. split.
  - unfold plot_sizes, total_movies. destruct fv as [|r fv]; [done|]. exact Hs.
  - unfold size_vals in Hall. apply Forall2_fmap_l in Hall.
    eapply Forall2_impl; [exact Hall|]. clear Hall Hs.
    intros r s [Hs Hv]. simpl in Hs, Hv. cbv zeta.
    set (v := default 0 (Vote_Count r)) in *.
    destruct (scaled_order (v - mn) (v - mn) (mx - mn))
      as (q & q' & Hq & Hq' & H5 & _ & H40); [lia|lia|lia|].
    rewrite Hq in Hq'. injection Hq' as <-.
    rewrite Hq in Hs. exists q. split; [exact Hs|]. split; [by rewrite Hq|].
    split; [by split|]. split; [|split].
    + intros ->. rewrite Z.sub_diag, scaled_min in Hq by lia. congruence.
    + intros ->. rewrite scaled_max in Hq by lia. congruence.
    + intros Hsmall. unfold linear_rescale. apply scaled_close; [lia|lia|exact Hq].
Qed.

Lemma plot_sizes_linear_witness :
  ∃ sizes,
    plot_sizes [sample_movie 0 10; sample_movie 1 20; sample_movie 2 30]
    = Some (sizes, [])
    ∧ Forall2 (fun r s =>
         let v := default 0%Z (Vote_Count r) in
         ∃ q, s = Finite q
              ∧ s = scaled (v - 10) (30 - 10)
              ∧ (5 <= q <= 40)%Q
              ∧ (v = 10 → q = 5%Q)
              ∧ (v = 30 → q = 40%Q)
              ∧ (30 - 10 < 2 ^ 53 →
                 (Qabs (q - linear_rescale 10 30 v) <= 1 # 10000000000000)%Q))
        [sample_movie 0 10; sample_movie 1 20; sample_movie 2 30] sizes.
Proof.
  apply (plot_sizes_linear
           [sample_movie 0 10; sample_movie 1 20; sample_movie 2 30] 10 30);
    [reflexivity | reflexivity | lia | lia | unfold int64_max; lia].
Defined.

(** X3: every row of a non-empty view has the same positive count: the
    divisor of line 229 is zero, the invalid-value flag is raised and every marker
    size is NaN. *)
Theorem plot_sizes_constant (fv : list Movie) (c : Z) :
  fv <> [] → 0 < c →
  Forall (fun r => default 0 (Vote_Count r) = c) fv →
  plot_sizes fv = Some (map (fun _ => NaN) fv, [InvalidValue]).
Proof.
  intros Hne Hc Hall.
  assert (Hvals : size_vals fv = replicate (length fv) c).
  { clear Hne. unfold size_vals. induction Hall as [|r fv Hr _ IH]; simpl; [done|].
    by rewrite Hr, IH. }
  assert (Hnan : map (fun _ : Movie => NaN) fv = replicate (length fv) NaN).
  { clear. induction fv as [|r fv IH]; simpl; [done|]. by rewrite IH. }
  unfold plot_sizes, total_movies. rewrite Hvals, Hnan.
  destruct fv as [|r fv]; [done|]. simpl length. simpl Nat.ltb. cbv iota.
  by apply scale_sizes_constant.
Qed.

Lemma plot_sizes_constant_witness :
  plot_sizes [sample_movie 0 3; sample_movie 1 3]
  = Some (map (fun _ => NaN) [sample_movie 0 3; sample_movie 1 3], [InvalidValue]).
Proof.
  apply (plot_sizes_constant [sample_movie 0 3; sample_movie 1 3] 3).
  - discriminate.
  - lia.
  - repeat constructor.
Defined.

(** C2: the transform is not free of divisions by zero.  Loading a sheet of
    one film with 7 votes and keeping the default selection gives a view
    whose maximum is positive and equal to its minimum: line 229 divides
    [0] by [0], numpy raises its invalid-value flag and the marker size is
    NaN. *)
Theorem plot_sizes_divides_by_zero :
  ∃ df,
    load_data no_parse no_repr one_film_sheet = Ok df
    ∧ plot_sizes (filtered_df df (years df) []) = Some ([NaN], [InvalidValue]).
Proof. exists [sample_movie 0 7]. split; reflexivity. Qed.

(** C3: a view with a positive maximum is not always rescaled into
    [[5, 40]].  Two rows with 3 votes each have maximum 3 > 0, and both
    sizes come out as NaN instead of a number between 5 and 40. *)
Theorem plot_sizes_equal_counts_nan :
  array_max (size_vals [sample_movie 0 3; sample_movie 1 3]) = Some 3
  ∧ plot_sizes [sample_movie 0 3; sample_movie 1 3]
    = Some ([NaN; NaN], [InvalidValue]).
Proof. split; reflexivity. Qed.

(** ** Summary metrics *)

Lemma of_int_100 : of_int 100 = Finite 100.
Proof. vm_compute. reflexivity. Qed.


Lemma filter_not_nan_finite (qs : list Q) :
  List.filter (fun x => negb (is_nan x)) (map Finite qs) = map Finite qs.
Proof. apply filter_all. intros x Hx. apply list_elem_of_fmap in Hx as (q & -> & _). done. Qed.


(** The binary64 nearest to 2.675 lies below it, yet its product with 100
    rounds to 267.5 and [round(x, 2)] is the binary64 nearest to 2.68. *)
Example round2_2_675 :
  b64 (2675 # 1000) = Finite (3011782250804019 # 1125899906842624)
  ∧ round2 (Finite (3011782250804019 # 1125899906842624))
    = Finite (6034823500676465 # 2251799813685248)
  ∧ b64 (268 # 100) = Finite (6034823500676465 # 2251799813685248).
Proof. vm_compute. done. Qed.

Example avg_rating_two_films :
  avg_rating [sample_movie 0 1;
              {| label := 1; Title := CStr (py "Big"); Release_Date := 1988;
                 Genre := py "Comedy"; Vote_Average := Finite (71 # 10);
                 Popularity := Finite (5 # 4); Vote_Count := None |}]
  = Finite (15 # 2).
Proof. reflexivity. Qed.

(** ** The loader *)

Lemma mapM_Ok {A B} (f : A -> result B) (l : list A) (bs : list B) :
  mapM f l = Ok bs → Forall2 (fun a b => f a = Ok b) l bs.
Proof.
  revert bs. induction l as [|a l IH]; intros bs; simpl.
  - intros [= <-]. constructor.
  - destruct (f a) as [b|e] eqn:Hf; simpl; [|done].
    destruct (mapM f l) as [bs'|e] eqn:Hm; simpl; [|done].
    intros [= <-]. constructor; [done|]. by apply IH.
Qed.

Lemma mapM_total {A B} (f : A -> result B) (l : list A) :
  Forall (fun a => ∃ b, f a = Ok b) l → ∃ bs, mapM f l = Ok bs.
Proof.
  induction 1 as [|a l [b Hb] _ [bs Hbs]]; simpl.
  - by eexists.
  - rewrite Hb. simpl. rewrite Hbs. simpl. by eexists.
Qed.

Lemma astype_int_in_int64 (x : fl) (y : Z) :
  astype_int x = Ok y → in_int64 y.
Proof.
  destruct x as [q| |]; simpl; [|done..]. intros [= <-].
  destruct (in_int64_b (Qtrunc q)) eqn:Hb.
  - unfold in_int64_b in Hb. apply andb_true_iff in Hb as [H1 H2].
    apply Z.leb_le in H1, H2. by split.
  - unfold in_int64, int64_min, int64_max. lia.
Qed.

Lemma fillna0_not_nan (x : fl) : is_nan (fillna0 x) = false.
Proof. by destruct x. Qed.

Lemma Forall2_elem_of_r {A B} (R : A -> B -> Prop) (l : list A) (k : list B) (b : B) :
  Forall2 R l k → b ∈ k → ∃ a, a ∈ l ∧ R a b.
Proof.
  induction 1 as [|a b' l k Hab _ IH]; intros Hb.
  - by apply elem_of_nil in Hb.
  - apply elem_of_cons in Hb as [->|Hb].
    + exists a. split; [left|done].
    + destruct (IH Hb) as (a' & Ha' & HR). exists a'. split; [by right|done].
Qed.

Lemma Forall2_map_eq {A B C} (R : A -> B -> Prop) (f : A -> C) (g : B -> C)
    (l : list A) (k : list B) :
  (∀ a b, R a b → g b = f a) → Forall2 R l k → map g k = map f l.
Proof.
  intros H. induction 1 as [|a b l k Hab _ IH]; simpl; [done|].
  by rewrite (H _ _ Hab), IH.
Qed.

Lemma positions_nil (name : pystr) (cols : list pystr) :
  positions name cols = [] ↔ name ∉ cols.
Proof.
  induction cols as [|c cols IH]; simpl.
  - split; [intros _; apply not_elem_of_nil|done].
  - rewrite not_elem_of_cons. destruct (decide (c = name)) as [->|Hne].
    + rewrite bool_decide_eq_true_2 by done. split; [done|]. intros [? _]. done.
    + rewrite bool_decide_eq_false_2 by done. rewrite <- IH.
      destruct (positions name cols) as [|n l]; simpl.
      * split; [intros _; by split|done].
      * split; [done|]. intros [_ ?]. done.
Qed.

Lemma series_inv (e : pyerr) (name : pystr) (cols : list pystr) (o : option nat) :
  series e name cols = Ok o →
  (o = None ∧ name ∉ cols) ∨ (∃ i, o = Some i ∧ positions name cols = [i]).
Proof.
  unfold series. destruct (positions name cols) as [|i [|j ps]] eqn:Hp; [| |done].
  - intros [= <-]. left. split; [done|]. by apply positions_nil.
  - intros [= <-]. right. by exists i.
Qed.

Lemma series_None (e : pyerr) (name : pystr) (cols : list pystr) :
  name ∉ cols → series e name cols = Ok None.
Proof. intros H. unfold series. by rewrite (proj2 (positions_nil _ _) H). Qed.

Lemma series_missing (e : pyerr) (name : pystr) (cols : list pystr) (o : option nat) :
  series e name cols = Ok o → name ∉ cols → o = None.
Proof. intros H Hn. rewrite (series_None e _ _ Hn) in H. congruence. Qed.

Lemma series_Raise (e e' : pyerr) (name : pystr) (cols : list pystr) :
  series e name cols = Raise e' →
  e' = e ∧ ∃ i j ps, positions name cols = i :: j :: ps.
Proof.
  unfold series. destruct (positions name cols) as [|i [|j ps]]; [done..|].
  intros [= <-]. split; [done|]. by exists i, j, ps.
Qed.

Section LoaderFacts.
Variable parse_number : pystr -> option fl.
Variable repr_number : fl -> pystr.

#[local] Abbreviation to_num := (to_numeric parse_number).
#[local] Abbreviation load := (load_data parse_number repr_number).

Lemma float_column_not_nan (i : option nat) (r : list cell) :
  is_nan (float_column parse_number i r) = false.
Proof. destruct i; simpl; [apply fillna0_not_nan|done]. Qed.

Lemma stage_finish c n lr s m :
  keeps parse_number (c_date c) (c_title c) (snd lr) = true →
  stage parse_number repr_number c n lr = Ok s →
  finish s = Ok m →
  loaded_from parse_number c lr m.
Proof.
  intros Hk Hs Hf. destruct lr as [lbl r]. unfold stage in Hs.
  destruct (vote_count_column _ _ _ _ _) as [vc|e]; simpl in Hs; [|done].
  injection Hs as <-. unfold finish in Hf. simpl in Hf.
  destruct (astype_int _) as [y|e] eqn:Hy; simpl in Hf; [|done].
  injection Hf as <-. by constructor.
Qed.

#[local] Abbreviation kept_of c sh :=
  (kept_rows parse_number (c_date c) (c_title c) (body sh)).

(** Once the columns are found, [load_data] is the conversion of the rows
    kept. *)
Lemma load_data_resolved (sh : sheet) (c : columns) :
  resolved (map strip (header sh)) c →
  load sh = (do staged_rows <- mapM (stage parse_number repr_number c
                                       (length (kept_of c sh)))
                                    (kept_of c sh);
             mapM finish staged_rows).
Proof.
  intros [Hg Hd Ht Hne Ha Hp Hc]. destruct c as [g d t a p vc]. simpl in *.
  unfold load_data. rewrite Hg. simpl.
  unfold series at 1. rewrite Hd. simpl. rewrite Ht.
  destruct t as [|t0 t]; [done|]. simpl. by rewrite Ha, Hp, Hc.
Qed.

(** A [load_data] that gets as far as the rows has found its columns. *)
Lemma load_data_columns (sh : sheet) (x : result (list Movie)) :
  load sh = x →
  (∃ c, resolved (map strip (header sh)) c)
  ∨ ((∀ c, ¬ resolved (map strip (header sh)) c)
     ∧ ∃ e, x = Raise e ∧ e <> IntCastingNaNError).
Proof.
  intros <-. unfold load_data. set (cols := map strip (header sh)).
  destruct (genre_series cols) as [g|e] eqn:Hg; simpl.
  2:{ right. split; [intros c [H]; congruence|]. exists e. split; [done|].
      unfold genre_series in Hg. destruct (genre_name cols); [|done].
      apply series_Raise in Hg as [-> _]. done. }
  destruct (series TypeError (py "Release_Date") cols) as [[d|]|e] eqn:Hd; simpl.
  3:{ right. split.
      - intros c [_ H]. unfold series in Hd. by rewrite H in Hd.
      - exists e. split; [done|]. apply series_Raise in Hd as [-> _]. done. }
  2:{ right. split; [|by exists KeyError].
      intros c [_ H]. unfold series in Hd. by rewrite H in Hd. }
  apply series_inv in Hd as [[? _]|(i & [= <-] & Hd)]; [done|].
  destruct (positions (py "Title") cols) as [|t0 t] eqn:Ht; simpl.
  { right. split; [|by exists KeyError]. intros c [_ _ H Hne]. congruence. }
  destruct (series TypeError (py "Vote_Average") cols) as [a|e] eqn:Ha; simpl.
  2:{ right. split; [intros c [_ _ _ _ H]; congruence|]. exists e. split; [done|].
      apply series_Raise in Ha as [-> _]. done. }
  destruct (series TypeError (py "Popularity") cols) as [p|e] eqn:Hp; simpl.
  2:{ right. split; [intros c [_ _ _ _ _ H]; congruence|]. exists e. split; [done|].
      apply series_Raise in Hp as [-> _]. done. }
  destruct (series TypeError (py "Vote_Count") cols) as [vc|e] eqn:Hc; simpl.
  2:{ right. split; [intros c [_ _ _ _ _ _ H]; congruence|]. exists e. split; [done|].
      apply series_Raise in Hc as [-> _]. done. }
  left. exists {| c_genre := g; c_date := d; c_title := t0 :: t;
                  c_vote_average := a; c_popularity := p; c_vote_count := vc |}.
  by constructor.
Qed.

Lemma resolved_unique (cols : list pystr) (c c' : columns) :
  resolved cols c → resolved cols c' → c = c'.
Proof.
  intros [Hg Hd Ht _ Ha Hp Hc] [Hg' Hd' Ht' _ Ha' Hp' Hc'].
  destruct c, c'. simpl in *. f_equal; congruence.
Qed.

(** What a successful [load_data] returns: the kept rows of the sheet, in
    order, each converted. *)
Lemma load_data_Ok (sh : sheet) (df : list Movie) :
  load sh = Ok df →
  ∃ c, resolved (map strip (header sh)) c
       ∧ Forall2 (loaded_from parse_number c) (kept_of c sh) df.
Proof.
  intros Hload.
  destruct (load_data_columns sh _ Hload) as [[c Hc]|[_ (e & ? & _)]]; [|done].
  exists c. split; [exact Hc|].
  rewrite (load_data_resolved sh c Hc) in Hload.
  set (kept := kept_of c sh) in *.
  destruct (mapM _ kept) as [ss|e] eqn:Hs; simpl in Hload; [|done].
  apply mapM_Ok in Hs, Hload.
  assert (Hk : Forall (fun lr => keeps parse_number (c_date c) (c_title c) (snd lr)
                                 = true) kept).
  { apply Forall_forall. intros lr Hlr.
    by apply elem_of_filter_bool in Hlr as [_ Hlr]. }
  clearbody kept. clear -Hs Hload Hk. revert df Hload Hk.
  induction Hs as [|lr s kept' ss Hlr Hs IH]; intros df Hf Hk.
  - inversion Hf. constructor.
  - inversion Hf as [|? m ? df' Hm Hf']; subst.
    apply Forall_cons in Hk as [Hk1 Hk2].
    constructor; [by eapply stage_finish|by apply IH].
Qed.

Lemma labelled_elem_of (rows : list (list cell)) (i : nat) (r : list cell) :
  (i, r) ∈ labelled rows ↔ rows !! i = Some r.
Proof.
  unfold labelled. rewrite elem_of_lookup_imap. split.
  - intros (j & y & [= -> ->] & H). exact H.
  - intros H. by exists i, r.
Qed.

(** The rows [load_data] keeps, with their labels. *)
Lemma kept_rows_spec (c : columns) (sh : sheet) (i : nat) (r : list cell) :
  (i, r) ∈ kept_of c sh
  ↔ body sh !! i = Some r
    ∧ keeps parse_number (c_date c) (c_title c) r = true.
Proof. unfold kept_rows. by rewrite elem_of_filter_bool, labelled_elem_of. Qed.

(** [load_data] returns a frame whenever its columns are found and, in the
    rows it keeps, the date is finite and the vote count (if the column
    exists) is a whole number or empty. *)
Lemma load_data_returns (sh : sheet) (c : columns) :
  resolved (map strip (header sh)) c →
  (∀ r, r ∈ body sh → keeps parse_number (c_date c) (c_title c) r = true →
        (∃ q, to_num (cell_at (c_date c) r) = Finite q)
        ∧ ∀ n lbl, ∃ vc,
            vote_count_column parse_number (c_vote_count c) n lbl r = Ok vc) →
  ∃ df, load sh = Ok df.
Proof.
  intros Hc Hrows. rewrite (load_data_resolved sh c Hc).
  set (kept := kept_of c sh).
  assert (Hkept : ∀ lr, lr ∈ kept →
            lr.2 ∈ body sh
            ∧ keeps parse_number (c_date c) (c_title c) lr.2 = true).
  { intros [i r] Hlr. apply kept_rows_spec in Hlr as [Hlr Hk].
    split; [|done]. by eapply list_elem_of_lookup_2. }
  destruct (mapM_total (stage parse_number repr_number c (length kept)) kept)
    as [ss Hss].
  { apply Forall_forall. intros [i r] Hlr.
    destruct (Hkept _ Hlr) as [Hin Hk]. simpl in *.
    destruct (Hrows r Hin Hk) as [_ Hvc].
    destruct (Hvc (length kept) i) as [vc Hvc']. unfold stage.
    rewrite Hvc'. simpl. by eexists. }
  rewrite Hss. simpl. apply mapM_total, Forall_forall. intros s Hs.
  apply mapM_Ok in Hss.
  destruct (Forall2_elem_of_r _ _ _ _ Hss Hs) as ([i r] & Hlr & Hst).
  destruct (Hkept _ Hlr) as [Hin Hk]. simpl in *.
  destruct (Hrows r Hin Hk) as [[q Hq] _].
  unfold stage in Hst.
  destruct (vote_count_column _ _ _ _ _) as [vc|e]; simpl in Hst; [|done].
  injection Hst as <-. unfold finish. simpl. rewrite Hq. simpl. by eexists.
Qed.

(** Every row of the loaded frame went through [stage] and [finish]. *)
Lemma load_data_stages (sh : sheet) (df : list Movie) :
  load sh = Ok df →
  ∃ c, resolved (map strip (header sh)) c
       ∧ ∀ m, m ∈ df →
           ∃ i r s, body sh !! i = Some r
                    ∧ keeps parse_number (c_date c) (c_title c) r = true
                    ∧ stage parse_number repr_number c (length df) (i, r) = Ok s
                    ∧ finish s = Ok m.
Proof.
  intros Hload.
  destruct (load_data_columns sh _ Hload) as [[c Hc]|[_ (e & ? & _)]]; [|done].
  exists c. split; [exact Hc|].
  rewrite (load_data_resolved sh c Hc) in Hload.
  set (kept := kept_of c sh) in *.
  destruct (mapM _ kept) as [ss|e] eqn:Hs; simpl in Hload; [|done].
  apply mapM_Ok in Hs, Hload.
  assert (Hlen : length kept = length df).
  { rewrite (Forall2_length _ _ _ Hs). apply (Forall2_length _ _ _ Hload). }
  rewrite <- Hlen. intros m Hm.
  destruct (Forall2_elem_of_r _ _ _ _ Hload Hm) as (s & Hsin & Hfin).
  destruct (Forall2_elem_of_r _ _ _ _ Hs Hsin) as ([i r] & Hlr & Hst).
  apply kept_rows_spec in Hlr as [Hir Hk]. by exists i, r, s.
Qed.

Lemma astype_Int64_in_int64 (x : fl) (z : Z) :
  astype_Int64 x = Ok (Some z) → in_int64 z.
Proof.
  destruct x as [q| |]; simpl; [|done..].
  destruct (Qeq_bool _ _ && in_int64_b (Qtrunc q)) eqn:Hb; [|done].
  intros [= <-]. apply andb_true_iff in Hb as [_ Hb].
  unfold in_int64_b in Hb. apply andb_true_iff in Hb as [H1 H2].
  apply Z.leb_le in H1, H2. by split.
Qed.

(** The columns of a row of the loaded frame, read off [stage] and
    [finish]. *)
Lemma load_data_row (sh : sheet) (df : list Movie) :
  load sh = Ok df →
  ∃ c, resolved (map strip (header sh)) c
       ∧ ∀ m, m ∈ df →
           ∃ r vc,
             body sh !! label m = Some r
             ∧ vote_count_column parse_number (c_vote_count c) (length df)
                 (label m) r = Ok vc
             ∧ Vote_Count m = vc
             ∧ Genre m = match c_genre c with
                         | Some j => clean_genre repr_number (cell_at j r)
                         | None => strip (remove_cr [])
                         end
             ∧ Vote_Average m = float_column parse_number (c_vote_average c) r
             ∧ Popularity m = float_column parse_number (c_popularity c) r.
Proof.
  intros Hload. destruct (load_data_stages _ _ Hload) as (c & Hc & Hrows).
  exists c. split; [exact Hc|]. intros m Hm.
  destruct (Hrows m Hm) as (i & r & s & Hir & _ & Hst & Hfin).
  unfold stage in Hst.
  destruct (vote_count_column _ _ _ _ _) as [vc|e] eqn:Hvc; simpl in Hst; [|done].
  injection Hst as <-. unfold finish in Hfin. simpl in Hfin.
  destruct (astype_int _) as [y|e]; simpl in Hfin; [|done].
  injection Hfin as <-. simpl. by exists r, vc.
Qed.

(** After loading, a vote count read as a number (a missing one as 0) is an
    int64. *)
Lemma load_data_vote_count (sh : sheet) (df : list Movie) :
  load sh = Ok df →
  Forall (fun m => in_int64 (default 0 (Vote_Count m))) df.
Proof.
  intros Hload. destruct (load_data_row _ _ Hload) as (c & _ & Hrows).
  apply Forall_forall. intros m Hm.
  destruct (Hrows m Hm) as (r & vc & _ & Hvc & -> & _).
  assert (H0 : in_int64 0) by (unfold in_int64, int64_min, int64_max; lia).
  destruct vc as [z|]; [|exact H0]. simpl.
  unfold vote_count_column in Hvc. destruct (c_vote_count c) as [j|].
  - by apply astype_Int64_in_int64 in Hvc.
  - destruct (_ <? _)%nat; [|done]. by injection Hvc as <-.
Qed.
End LoaderFacts.

(** C6: in the frame a successful [load_data] returns, every row has a
    Title that is not missing and an int64 Release_Date, and is the
    conversion of the sheet row with its label; a sheet row is in the frame
    exactly when its Title is present (in every column of that name,
    should stripping the headers leave several) and its Release_Date parses
    as a number, so rows with a missing Title or an unparseable date are
    gone. *)
Theorem load_data_invariant (parse_number : pystr -> option fl)
    (repr_number : fl -> pystr) (sh : sheet) (df : list Movie) :
  load_data parse_number repr_number sh = Ok df →
  ∃ iDate iTitle iTitles,
    positions (py "Release_Date") (map strip (header sh)) = [iDate]
    ∧ positions (py "Title") (map strip (header sh)) = iTitle :: iTitles
    ∧ Forall (fun m =>
        isna (Title m) = false
        ∧ in_int64 (Release_Date m)
        ∧ ∃ r, body sh !! label m = Some r
               ∧ Title m = cell_at iTitle r
               ∧ astype_int (to_numeric parse_number (cell_at iDate r))
                 = Ok (Release_Date m)) df
    ∧ ∀ i r, body sh !! i = Some r →
        (i ∈ map label df
         ↔ Forall (fun j => isna (cell_at j r) = false) (iTitle :: iTitles)
           ∧ is_nan (to_numeric parse_number (cell_at iDate r)) = false).
Proof.
  intros Hload.
  destruct (load_data_Ok _ _ _ _ Hload) as (c & Hc & Hrows).
  destruct Hc as [_ HD HT Hne _ _ _].
  assert (Hex : ∃ t ts, c_title c = t :: ts).
  { destruct (c_title c); [done|by eexists _, _]. }
  destruct Hex as (iTitle & iTitles & Ec).
  exists (c_date c), iTitle, iTitles. split; [done|]. split; [by rewrite HT|].
  rewrite <- Ec.
  assert (Hkeeps : ∀ r, keeps parse_number (c_date c) (c_title c) r = true
            ↔ Forall (fun j => isna (cell_at j r) = false) (c_title c)
              ∧ is_nan (to_numeric parse_number (cell_at (c_date c) r)) = false).
  { intros r. unfold keeps. rewrite andb_true_iff, negb_true_iff.
    rewrite forallb_forall, Forall_forall.
    split; intros [H1 H2]; (split; [|]); try done; intros j Hj.
    - apply negb_true_iff, H2. by apply list_elem_of_In.
    - apply negb_true_iff, H1. by apply list_elem_of_In. }
  split.
  - apply Forall_forall. intros m Hm.
    destruct (Forall2_elem_of_r _ _ _ _ Hrows Hm) as ([i r] & Hin & Hlf).
    apply kept_rows_spec in Hin as [Hin _].
    destruct Hlf as [Hk Hl Ht Hd _ _]. simpl in *.
    apply Hkeeps in Hk as [Hk _]. rewrite Ec in Hk, Ht. simpl in Ht.
    apply Forall_cons in Hk as [Hk _].
    split; [by rewrite Ht|]. split; [by eapply astype_int_in_int64|].
    exists r. by rewrite Hl.
  - intros i r Hir.
    rewrite (Forall2_map_eq _ fst label _ _ (lf_label _ _) Hrows).
    rewrite list_elem_of_fmap, <- Hkeeps. split.
    + intros ([j r'] & -> & Hin). simpl in *.
      apply kept_rows_spec in Hin as [Hin Hk].
      assert (r' = r) as -> by congruence. done.
    + intros Hk. exists (i, r). split; [done|].
      by apply kept_rows_spec.
Qed.

Example load_messy_sheet :
  load_data no_parse no_repr messy_sheet = Ok [big_1988].
Proof. reflexivity. Qed.

Lemma load_data_invariant_witness :
  ∃ iDate iTitle iTitles,
    positions (py "Release_Date") (map strip (header messy_sheet)) = [iDate]
    ∧ positions (py "Title") (map strip (header messy_sheet)) = iTitle :: iTitles
    ∧ Forall (fun m =>
        isna (Title m) = false
        ∧ in_int64 (Release_Date m)
        ∧ ∃ r, body messy_sheet !! label m = Some r
               ∧ Title m = cell_at iTitle r
               ∧ astype_int (to_numeric no_parse (cell_at iDate r))
                 = Ok (Release_Date m)) [big_1988]
    ∧ ∀ i r, body messy_sheet !! i = Some r →
        (i ∈ map label [big_1988]
         ↔ Forall (fun j => isna (cell_at j r) = false) (iTitle :: iTitles)
           ∧ is_nan (to_numeric no_parse (cell_at iDate r)) = false).
Proof.
  apply (load_data_invariant no_parse no_repr messy_sheet [big_1988]).
  reflexivity.
Defined.

(** Two headers that strip to "Title": a row with either cell missing is
    dropped. *)
Example load_two_title_columns :
  load_data no_parse no_repr two_titles_sheet = Ok [].
Proof. reflexivity. Qed.

(** Two headers that strip to "Release_Date": line 33 hands [pd.to_numeric]
    a frame of two columns, a TypeError. *)
Example load_two_date_columns :
  load_data no_parse no_repr two_dates_sheet = Raise TypeError.
Proof. reflexivity. Qed.

(** Popularity holds no NaN after loading (line 47 fills them with 0.0). *)
Lemma load_data_popularity (parse_number : pystr -> option fl)
    (repr_number : fl -> pystr) (sh : sheet) (df : list Movie) :
  load_data parse_number repr_number sh = Ok df →
  Forall (fun m => is_nan (Popularity m) = false) df.
Proof.
  intros Hload.
  destruct (load_data_Ok _ _ _ _ Hload) as (c & _ & Hrows).
  apply Forall_forall. intros m Hm.
  destruct (Forall2_elem_of_r _ _ _ _ Hrows Hm) as (lr & _ & Hlf).
  rewrite (lf_popularity _ _ _ _ Hlf). apply float_column_not_nan.
Qed.

(** ** Top 10 *)

Lemma fl_leb_total (x y : fl) :
  is_nan x = false → is_nan y = false → fl_leb x y = true ∨ fl_leb y x = true.
Proof.
  destruct x as [a|[]|], y as [b|[]|]; simpl; intros; auto; try done.
  rewrite !Qle_bool_iff. destruct (Qlt_le_dec a b) as [Hab|Hab]; [left|right]; lra.
Qed.

Lemma fl_leb_trans (x y z : fl) :
  fl_leb x y = true → fl_leb y z = true → fl_leb x z = true.
Proof.
  destruct x as [a|[]|], y as [b|[]|], z as [c|[]|]; simpl; try done.
  rewrite !Qle_bool_iff. apply Qle_trans.
Qed.

Lemma take_filter_prefix {A} (f : A -> bool) (n : nat) (l : list A) :
  List.filter f (take n l) `prefix_of` List.filter f l.
Proof.
  exists (List.filter f (drop n l)).
  by rewrite <- List.filter_app, take_drop.
Qed.

Lemma filter_nothing {A} (f : A -> bool) (l : list A) :
  (∀ x, x ∈ l → f x = false) → List.filter f l = [].
Proof.
  induction l as [|x l IH]; intros H; simpl; [done|].
  rewrite H by left. apply IH. intros y Hy. apply H. by right.
Qed.

Section TopN.
Context {A : Type} (key : A -> fl).

#[local] Abbreviation desc := (by_key_desc key).

Variable l : list A.
Hypothesis no_nan : Forall (fun r => is_nan (key r) = false) l.

Lemma nlargest_no_nan (n : nat) :
  nlargest n key l = take n (stable_sort desc l).
Proof.
  unfold nlargest. rewrite Forall_forall in no_nan.
  rewrite filter_all by (intros x Hx; by rewrite no_nan).
  rewrite filter_nothing by (intros x Hx; by apply no_nan).
  by rewrite app_nil_r.
Qed.

Lemma sorted_by_key :
  StronglySorted (fun a b => desc a b = true) (stable_sort desc l).
Proof.
  apply (stable_sort_sorted desc (fun r => is_nan (key r) = false)).
  - intros x y Hx Hy. unfold desc.
    destruct (fl_leb_total (key x) (key y) Hx Hy); auto.
  - intros x y z _ _ _ Hxy Hyz. unfold desc in *.
    by apply (fl_leb_trans _ (key y)).
  - exact no_nan.
Qed.

Lemma nlargest_length (n : nat) :
  length (nlargest n key l) = min n (length l).
Proof. by rewrite nlargest_no_nan, length_take, stable_sort_length. Qed.

Lemma nlargest_sorted (n : nat) :
  StronglySorted (fun a b => desc a b = true) (nlargest n key l).
Proof.
  rewrite nlargest_no_nan.
  apply (StronglySorted_app_1_l _ _ (drop n (stable_sort desc l))).
  rewrite take_drop. apply sorted_by_key.
Qed.

(** The rows left out are no larger than any row selected. *)
Lemma nlargest_largest (n : nat) :
  ∃ rest, l ≡ₚ nlargest n key l ++ rest
          ∧ ∀ a b, a ∈ nlargest n key l → b ∈ rest →
                   fl_leb (key b) (key a) = true.
Proof.
  exists (drop n (stable_sort desc l)). rewrite nlargest_no_nan. split.
  - by rewrite take_drop, stable_sort_perm.
  - intros a b Ha Hb.
    apply (StronglySorted_app_1_elem_of (fun a b => desc a b = true)
             (take n (stable_sort desc l))
             (drop n (stable_sort desc l))); [|done..].
    rewrite take_drop. apply sorted_by_key.
Qed.

(** Rows of equal key: the ones selected are the first of them in frame
    order, and they come out in frame order. *)
Lemma nlargest_ties (n : nat) (p : fl) :
  List.filter (fun r => fl_eqb (key r) p) (nlargest n key l)
  `prefix_of` List.filter (fun r => fl_eqb (key r) p) l.
Proof.
  rewrite nlargest_no_nan.
  rewrite <- (stable_sort_filter desc (fun r => fl_eqb (key r) p) l).
  - apply take_filter_prefix.
  - intros x y Hx Hy. unfold fl_eqb, desc in *.
    apply andb_true_iff in Hx as [_ Hx]. apply andb_true_iff in Hy as [Hy _].
    by apply (fl_leb_trans _ p).
Qed.

Lemma nlargest_all (n : nat) :
  (length l <= n)%nat → nlargest n key l ≡ₚ l.
Proof.
  intros Hn. rewrite nlargest_no_nan, take_ge.
  - apply stable_sort_perm.
  - by rewrite stable_sort_length.
Qed.
End TopN.

(** C5: for the view of a loaded frame, [nlargest(10, "Popularity")]
    returns min(10, rows) rows in descending order of Popularity; no row
    left out is more popular than a row returned; among rows of equal
    Popularity the earliest in the view are taken, in the view's order; a
    view of fewer than 10 rows is returned whole.  [top_movies] is that
    selection reduced to Title, Popularity and Vote_Average. *)
Theorem top_movies_spec (parse_number : pystr -> option fl)
    (repr_number : fl -> pystr) (sh : sheet) (df : list Movie)
    (ys : list Z) (gs : list pystr) :
  load_data parse_number repr_number sh = Ok df →
  let fv := filtered_df df ys gs in
  let top := nlargest 10 Popularity fv in
  top_movies fv = map top_columns top
  ∧ length top = min 10 (length fv)
  ∧ StronglySorted
      (fun a b => fl_leb (Popularity b) (Popularity a) = true) top
  ∧ (∃ rest, fv ≡ₚ top ++ rest
             ∧ ∀ a b, a ∈ top → b ∈ rest →
                      fl_leb (Popularity b) (Popularity a) = true)
  ∧ (∀ p, List.filter (fun r => fl_eqb (Popularity r) p) top
          `prefix_of` List.filter (fun r => fl_eqb (Popularity r) p) fv)
  ∧ ((length fv < 10)%nat → top ≡ₚ fv).
Proof.
  intros Hload fv top.
  assert (Hnn : Forall (fun r => is_nan (Popularity r) = false) fv).
  { apply filtered_df_Forall. by eapply load_data_popularity. }
  split; [reflexivity|].
  split; [by apply nlargest_length|].
  split; [by apply nlargest_sorted|].
  split; [by apply nlargest_largest|].
  split; [intros p; by apply nlargest_ties|].
  intros Hlt. apply nlargest_all; [done|lia].
Qed.

Example load_films : load_data no_parse no_repr films_sheet = Ok films.
Proof. reflexivity. Qed.

(** The tie between "Heat" and "Up" is settled by their order in the view. *)
Example top_movies_films :
  map t_title (top_movies (filtered_df films (years films) []))
  = [CStr (py "Big"); CStr (py "Heat"); CStr (py "Up")].
Proof. reflexivity. Qed.

Lemma top_movies_spec_witness :
  let fv := filtered_df films (years films) [] in
  let top := nlargest 10 Popularity fv in
  top_movies fv = map top_columns top
  ∧ length top = min 10 (length fv)
  ∧ StronglySorted
      (fun a b => fl_leb (Popularity b) (Popularity a) = true) top
  ∧ (∃ rest, fv ≡ₚ top ++ rest
             ∧ ∀ a b, a ∈ top → b ∈ rest →
                      fl_leb (Popularity b) (Popularity a) = true)
  ∧ (∀ p, List.filter (fun r => fl_eqb (Popularity r) p) top
          `prefix_of` List.filter (fun r => fl_eqb (Popularity r) p) fv)
  ∧ ((length fv < 10)%nat → top ≡ₚ fv).
Proof.
  apply (top_movies_spec no_parse no_repr films_sheet films (years films) []).
  reflexivity.
Defined.

(** ** Genres *)

Lemma nonempty_true (s : pystr) : nonempty s = true ↔ s <> [].
Proof. by destruct s. Qed.

Lemma split_comma_nil : split_comma [] = [[]].
Proof. reflexivity. Qed.

Lemma strip_nil : strip [] = [].
Proof. reflexivity. Qed.

Lemma filter_filter {A} (f g : A -> bool) (l : list A) :
  List.filter f (List.filter g l) = List.filter (fun x => g x && f x) l.
Proof.
  induction l as [|x l IH]; simpl; [done|].
  destruct (g x); simpl; [|done]. destruct (f x); by rewrite IH.
Qed.

Lemma filter_map_swap {A B} (f : B -> bool) (h : A -> B) (l : list A) :
  List.filter f (map h l) = map h (List.filter (fun x => f (h x)) l).
Proof.
  induction l as [|x l IH]; simpl; [done|].
  destruct (f (h x)); simpl; by rewrite IH.
Qed.

Lemma genre_tokens_elem_of (cell g : pystr) :
  g ∈ genre_tokens cell ↔ g <> [] ∧ ∃ t, t ∈ split_comma cell ∧ strip t = g.
Proof.
  unfold genre_tokens. rewrite list_elem_of_fmap. split.
  - intros (t & -> & Ht). apply elem_of_filter_bool in Ht as [Ht Hne].
    apply nonempty_true in Hne. split; [done|]. exists t. split; [|done].
    destruct cell; [by apply elem_of_nil in Ht|exact Ht].
  - intros (Hne & t & Ht & <-). exists t. split; [done|].
    apply elem_of_filter_bool. split; [|by apply nonempty_true].
    destruct cell as [|c cell]; [|exact Ht].
    rewrite split_comma_nil in Ht. apply list_elem_of_singleton in Ht as ->.
    by rewrite strip_nil in Hne.
Qed.

Lemma genre_tokens_occurrences (cell g : pystr) :
  g <> [] →
  occurrences g (genre_tokens cell)
  = length (List.filter (fun t => bool_decide (strip t = g)) (split_comma cell)).
Proof.
  intros Hne. unfold occurrences, genre_tokens.
  rewrite filter_map_swap, length_map, filter_filter.
  destruct cell as [|c cell].
  - rewrite split_comma_nil. simpl. rewrite strip_nil.
    by rewrite bool_decide_eq_false_2.
  - simpl nonempty. cbv iota. f_equal. apply filter_ext. intros t.
    destruct (bool_decide (strip t = g)) eqn:Hb; [|apply andb_false_r].
    apply bool_decide_eq_true in Hb. rewrite andb_true_r.
    apply nonempty_true. by rewrite Hb.
Qed.

Lemma occurrences_app (g : pystr) (l k : list pystr) :
  occurrences g (l ++ k) = (occurrences g l + occurrences g k)%nat.
Proof. unfold occurrences. by rewrite List.filter_app, length_app. Qed.

Lemma genre_split_occurrences (fv : list Movie) (g : pystr) :
  g <> [] → occurrences g (genre_split fv) = genre_frequency fv g.
Proof.
  intros Hne. unfold genre_split, genre_frequency.
  induction fv as [|r fv IH]; simpl; [done|].
  rewrite occurrences_app, List.filter_app, length_app.
  by rewrite IH, genre_tokens_occurrences.
Qed.

Lemma genre_split_elem_of (fv : list Movie) (g : pystr) :
  g ∈ genre_split fv
  ↔ g <> [] ∧ ∃ r t, r ∈ fv ∧ t ∈ split_comma (Genre r) ∧ strip t = g.
Proof.
  unfold genre_split. rewrite list_elem_of_In, in_flat_map. split.
  - intros (cell & Hcell & Hg). apply list_elem_of_In in Hcell, Hg.
    apply list_elem_of_fmap in Hcell as (r & -> & Hr).
    apply genre_tokens_elem_of in Hg as (Hne & t & Ht & Hs).
    split; [done|]. by exists r, t.
  - intros (Hne & r & t & Hr & Ht & Hs). exists (Genre r). split.
    + apply list_elem_of_In, list_elem_of_fmap. by exists r.
    + apply list_elem_of_In, genre_tokens_elem_of. split; [done|]. by exists t.
Qed.

Lemma recorded_bump (g g' : pystr) (acc : list (pystr * nat)) :
  recorded g' (bump g acc)
  = (recorded g' acc + if bool_decide (g = g') then 1 else 0)%nat.
Proof.
  induction acc as [|[h c] acc IH]; simpl.
  - destruct (bool_decide (g = g')); reflexivity.
  - destruct (decide (h = g)) as [->|Hne].
    + rewrite bool_decide_eq_true_2 by done. simpl.
      destruct (bool_decide (g = g')); lia.
    + rewrite bool_decide_eq_false_2 by done. simpl.
      destruct (decide (h = g')) as [->|Hne'].
      * rewrite !bool_decide_eq_true_2 by done.
        rewrite bool_decide_eq_false_2 by congruence. lia.
      * rewrite (bool_decide_eq_false_2 (h = g')) by done. apply IH.
Qed.

Lemma bump_keys (g h : pystr) (acc : list (pystr * nat)) :
  h ∈ map fst (bump g acc) ↔ h = g ∨ h ∈ map fst acc.
Proof.
  induction acc as [|[k c] acc IH]; simpl.
  - rewrite list_elem_of_singleton, elem_of_nil. tauto.
  - destruct (decide (k = g)) as [->|Hne].
    + rewrite bool_decide_eq_true_2 by done. simpl. rewrite !elem_of_cons. tauto.
    + rewrite bool_decide_eq_false_2 by done. simpl.
      rewrite !elem_of_cons, IH. tauto.
Qed.

Lemma bump_ok (g : pystr) (acc : list (pystr * nat)) :
  tally_ok acc → tally_ok (bump g acc).
Proof.
  intros [Hnd Hpos]. induction acc as [|[k c] acc IH]; simpl.
  - split; repeat constructor. apply not_elem_of_nil.
  - simpl in Hnd. apply NoDup_cons in Hnd as [Hk Hnd].
    apply Forall_cons in Hpos as [Hc Hpos].
    destruct (decide (k = g)) as [->|Hne].
    + rewrite bool_decide_eq_true_2 by done. split; simpl.
      * by constructor.
      * constructor; [simpl; lia|done].
    + rewrite bool_decide_eq_false_2 by done.
      destruct (IH Hnd Hpos) as [Hnd' Hpos']. split; simpl.
      * constructor; [|done]. rewrite bump_keys. intros [->|H]; done.
      * by constructor.
Qed.

Lemma recorded_elem_of (g : pystr) (c : nat) (acc : list (pystr * nat)) :
  tally_ok acc →
  ((g, c) ∈ acc ↔ (0 < c)%nat ∧ c = recorded g acc).
Proof.
  intros [Hnd Hpos]. induction acc as [|[k n] acc IH]; simpl.
  - rewrite elem_of_nil. lia.
  - simpl in Hnd. apply NoDup_cons in Hnd as [Hk Hnd].
    apply Forall_cons in Hpos as [Hn Hpos]. simpl in Hn.
    rewrite elem_of_cons, (IH Hnd Hpos).
    destruct (decide (k = g)) as [->|Hne].
    + rewrite bool_decide_eq_true_2 by done. split.
      * intros [[= ->]|[Hc ->]]; [done|].
        exfalso. apply Hk. clear -Hc. induction acc as [|[h m] acc IH]; simpl in *; [lia|].
        destruct (decide (h = g)) as [->|Hne]; [left|right].
        rewrite bool_decide_eq_false_2 in Hc by done. by apply IH.
      * intros [_ ->]. by left.
    + rewrite bool_decide_eq_false_2 by done. split.
      * intros [[= ? ?]|H]; [done|exact H].
      * intros H. by right.
Qed.

Lemma tally_spec (l : list pystr) :
  tally_ok (tally l) ∧ ∀ g, recorded g (tally l) = occurrences g l.
Proof.
  unfold tally.
  assert (H : ∀ acc, tally_ok acc →
            tally_ok (fold_left (fun acc g => bump g acc) l acc)
            ∧ ∀ g, recorded g (fold_left (fun acc g => bump g acc) l acc)
                   = (recorded g acc + occurrences g l)%nat).
  { induction l as [|x l IH]; intros acc Hok; simpl.
    - split; [done|]. intros g. unfold occurrences. simpl. lia.
    - destruct (IH (bump x acc) (bump_ok x acc Hok)) as [Hok' Hrec].
      split; [done|]. intros g. rewrite Hrec, recorded_bump.
      unfold occurrences. simpl.
      destruct (bool_decide (x = g)); simpl; lia. }
  destruct (H []) as [Hok Hrec].
  { split; constructor. }
  split; [done|]. intros g. by rewrite Hrec.
Qed.

(** [value_counts] lists each value that occurs, once, with the number of
    its occurrences. *)
Lemma value_counts_spec (l : list pystr) (g : pystr) (c : nat) :
  (g, c) ∈ value_counts l ↔ (0 < c)%nat ∧ c = occurrences g l.
Proof.
  unfold value_counts. rewrite stable_sort_elem_of.
  destruct (tally_spec l) as [Hok Hrec].
  by rewrite (recorded_elem_of g c _ Hok), Hrec.
Qed.

Lemma value_counts_NoDup (l : list pystr) : NoDup (map fst (value_counts l)).
Proof.
  unfold value_counts. destruct (tally_spec l) as [[Hnd _] _].
  by rewrite stable_sort_perm.
Qed.

(** [value_counts] puts the most frequent value first. *)
Lemma value_counts_sorted (l : list pystr) :
  StronglySorted (fun a b => Nat.leb (snd b) (snd a) = true) (value_counts l).
Proof.
  unfold value_counts.
  apply (stable_sort_sorted _ (fun _ => True)).
  - intros x y _ _. rewrite !Nat.leb_le. lia.
  - intros x y z _ _ _. rewrite !Nat.leb_le. lia.
  - by apply Forall_forall.
Qed.

Lemma occurrences_pos (g : pystr) (l : list pystr) :
  (0 < occurrences g l)%nat → g ∈ l.
Proof.
  unfold occurrences. induction l as [|x l IH]; simpl; [lia|].
  destruct (decide (x = g)) as [->|Hne]; [left|].
  rewrite bool_decide_eq_false_2 by done. intros H. right. by apply IH.
Qed.

(** C7: the genre distribution holds exactly the trimmed, non-empty,
    comma-separated tokens of the view's Genre fields, each once, with the
    number of times it occurs; a view without such a token has no
    distribution.  Rows "Action, Drama" and "Action" give Action 2, Drama 1. *)
Theorem genre_df_counts (fv : list Movie) :
  (∀ g c, (g, c) ∈ default [] (genre_df fv)
          ↔ g <> [] ∧ (0 < c)%nat ∧ c = genre_frequency fv g)
  ∧ NoDup (map fst (default [] (genre_df fv)))
  ∧ (genre_df fv = None ↔ ∀ g, g <> [] → genre_frequency fv g = 0%nat)
  ∧ (∀ r1 r2, Genre r1 = py "Action, Drama" → Genre r2 = py "Action" →
              genre_df [r1; r2] = Some [(py "Action", 2%nat); (py "Drama", 1%nat)]).
Proof.
  assert (Hempty : genre_split fv = [] →
                   ∀ g, g <> [] → genre_frequency fv g = 0%nat).
  { intros He g Hg. rewrite <- genre_split_occurrences by done. by rewrite He. }
  assert (Hsome : genre_df fv
                  = match genre_split fv with
                    | [] => None
                    | _ :: _ => Some (value_counts (genre_split fv))
                    end).
  { unfold genre_df, total_movies. by destruct fv. }
  split; [|split; [|split]].
  - intros g c. rewrite Hsome.
    destruct (genre_split fv) as [|t ts] eqn:Hs; simpl.
    + rewrite elem_of_nil. split; [done|]. intros (Hg & Hc & ->).
      rewrite (Hempty eq_refl g Hg) in Hc. lia.
    + rewrite value_counts_spec. rewrite <- Hs. split.
      * intros [Hc ->]. assert (Hg : g <> []).
        { apply occurrences_pos in Hc.
          by apply genre_split_elem_of in Hc as [Hg _]. }
        split; [done|]. split; [done|]. by apply genre_split_occurrences.
      * intros (Hg & Hc & ->). by rewrite genre_split_occurrences.
  - rewrite Hsome. destruct (genre_split fv); simpl; [constructor|].
    apply value_counts_NoDup.
  - rewrite Hsome. destruct (genre_split fv) as [|t ts] eqn:Hs; split; try done.
    + intros _. by apply Hempty.
    + intros H. exfalso.
      assert (Hin : t ∈ genre_split fv) by (rewrite Hs; left).
      pose proof Hin as Hin'. apply genre_split_elem_of in Hin' as [Hne _].
      specialize (H t Hne). rewrite <- genre_split_occurrences in H by done.
      unfold occurrences in H. rewrite Hs in H. simpl in H.
      rewrite bool_decide_eq_true_2 in H by done. simpl in H. lia.
  - intros r1 r2 H1 H2. unfold genre_df, genre_split. simpl.
    rewrite H1, H2. reflexivity.
Qed.

Lemma str_leb_total (a b : pystr) : str_leb a b = true ∨ str_leb b a = true.
Proof.
  revert b. induction a as [|x a IH]; intros [|y b]; simpl; auto.
  destruct (N.lt_trichotomy x y) as [H|[->|H]].
  - left. apply orb_true_iff. left. by apply N.ltb_lt.
  - rewrite N.ltb_irrefl, N.eqb_refl. simpl. apply IH.
  - right. apply orb_true_iff. left. by apply N.ltb_lt.
Qed.

Lemma str_leb_trans (a b c : pystr) :
  str_leb a b = true → str_leb b c = true → str_leb a c = true.
Proof.
  revert b c. induction a as [|x a IH]; intros [|y b] [|z c]; simpl; try done.
  rewrite !orb_true_iff, !andb_true_iff, !N.ltb_lt, !N.eqb_eq.
  intros [Hxy|[-> Hab]] [Hyz|[-> Hbc]].
  - left. lia.
  - by left.
  - by left.
  - right. split; [done|]. by apply (IH b).
Qed.

(** C8: the genres offered in the sidebar are exactly the trimmed,
    non-empty, comma-separated tokens of the Genre fields of the rows of the
    loaded frame, each once, in alphabetical order; every run of the script
    offers the same list, whatever years and genres are selected. *)
Theorem all_genres_spec (df : list Movie) :
  (∀ g, g ∈ all_genres df
        ↔ g <> [] ∧ ∃ r t, r ∈ df ∧ t ∈ split_comma (Genre r) ∧ strip t = g)
  ∧ NoDup (all_genres df)
  ∧ StronglySorted (fun a b => str_leb a b = true) (all_genres df)
  ∧ (∀ w, genre_options (run df w) = all_genres df)
  ∧ (∀ w w', genre_options (run df w) = genre_options (run df w')).
Proof.
  split; [|split; [|split; [|split]]].
  - intros g. unfold all_genres.
    rewrite stable_sort_elem_of, unique_elem_of. apply genre_split_elem_of.
  - unfold all_genres. rewrite stable_sort_perm. apply unique_NoDup.
  - unfold all_genres.
    apply (stable_sort_sorted _ (fun _ => True)).
    + intros x y _ _. apply str_leb_total.
    + intros x y z _ _ _. apply str_leb_trans.
    + by apply Forall_forall.
  - reflexivity.
  - reflexivity.
Qed.

(** The options come from the frame, not from the view: with no year
    selected the view is empty and the genres are still offered. *)
Example genre_options_of_empty_view :
  let p := run [sample_movie 0 1]
               {| selected_years := []; selected_genres := [py "Drama"] |} in
  view p = [] ∧ genre_options p = [py "Animation"; py "Comedy"].
Proof. split; reflexivity. Qed.

(** * Further properties *)

(** ** Strings *)

Lemma lstrip_head_ok (s : pystr) : head_ok (lstrip s).
Proof.
  induction s as [|c s IH]; simpl; [done|].
  destruct (is_space c) eqn:Hc; [exact IH|]. simpl. exact Hc.
Qed.

Lemma lstrip_id (s : pystr) : head_ok s → lstrip s = s.
Proof. destruct s as [|c s]; simpl; [done|]. by intros ->. Qed.

Lemma lstrip_suffix (s : pystr) : lstrip s `suffix_of` s.
Proof.
  induction s as [|c s IH]; simpl; [done|].
  destruct (is_space c); [by apply suffix_cons_r|done].
Qed.

Lemma rstrip_prefix (s : pystr) : rstrip s `prefix_of` s.
Proof.
  unfold rstrip. destruct (lstrip_suffix (rev s)) as [p Hp].
  exists (rev p). rewrite <- rev_app_distr, <- Hp. by rewrite rev_involutive.
Qed.

Lemma rstrip_id (s : pystr) : head_ok (rev s) → rstrip s = s.
Proof. intros H. unfold rstrip. by rewrite lstrip_id, rev_involutive. Qed.

Lemma rstrip_last_ok (s : pystr) : head_ok (rev (rstrip s)).
Proof. unfold rstrip. rewrite rev_involutive. apply lstrip_head_ok. Qed.

Lemma rstrip_head_ok (s : pystr) : head_ok s → head_ok (rstrip s).
Proof.
  intros H. destruct (rstrip_prefix s) as [k Hk].
  destruct (rstrip s) as [|c t]; [done|]. rewrite Hk in H. exact H.
Qed.

Lemma strip_head_ok (s : pystr) : head_ok (strip s).
Proof. apply rstrip_head_ok, lstrip_head_ok. Qed.

Lemma strip_last_ok (s : pystr) : head_ok (rev (strip s)).
Proof. apply rstrip_last_ok. Qed.

(** Stripping twice is stripping once. *)
Lemma strip_idemp (s : pystr) : strip (strip s) = strip s.
Proof.
  unfold strip at 1. rewrite (lstrip_id (strip s)) by apply strip_head_ok.
  apply rstrip_id, strip_last_ok.
Qed.

Lemma strip_id (s : pystr) : head_ok s → head_ok (rev s) → strip s = s.
Proof. intros H1 H2. unfold strip. rewrite lstrip_id by done. by apply rstrip_id. Qed.

(** Stripping only removes characters. *)
Lemma strip_sublist (s : pystr) : strip s `sublist_of` s.
Proof.
  assert (Hp : ∀ a b : pystr, a `prefix_of` b → a `sublist_of` b).
  { intros a b [k ->]. by apply sublist_inserts_r. }
  assert (Hs : ∀ a b : pystr, a `suffix_of` b → a `sublist_of` b).
  { intros a b [k ->]. by apply sublist_inserts_l. }
  unfold strip. etransitivity; [apply Hp, rstrip_prefix|apply Hs, lstrip_suffix].
Qed.

Lemma strip_elem_of (c : N) (s : pystr) : c ∈ strip s → c ∈ s.
Proof. apply sublist_subseteq, strip_sublist. Qed.

Lemma remove_cr_no_cr (s : pystr) : cr ∉ remove_cr s.
Proof.
  unfold remove_cr. rewrite elem_of_filter_bool, N.eqb_refl. simpl.
  intros [_ ?]. done.
Qed.

(** A token of [split] holds no separator. *)
Lemma split_on_no_sep (sep : N) (s t : pystr) :
  t ∈ split_on sep s → sep ∉ t.
Proof.
  revert t. induction s as [|c s IH]; intros t; simpl.
  - intros ->%list_elem_of_singleton. apply not_elem_of_nil.
  - destruct (N.eqb_spec c sep) as [->|Hne].
    + intros [->|Ht]%elem_of_cons; [apply not_elem_of_nil|by apply IH].
    + destruct (split_on sep s) as [|t0 ts] eqn:Hs.
      * intros ->%list_elem_of_singleton.
        intros [?|[]%elem_of_nil]%elem_of_cons. congruence.
      * intros [->|Ht]%elem_of_cons.
        -- intros [?|Hin]%elem_of_cons; [congruence|].
           apply (IH t0); [left|done].
        -- apply IH. by right.
Qed.

Lemma split_on_cons_token (sep : N) (t s : pystr) :
  sep ∉ t → split_on sep (t ++ sep :: s) = t :: split_on sep s.
Proof.
  induction t as [|c t IH]; intros Hns; simpl.
  - by rewrite N.eqb_refl.
  - apply not_elem_of_cons in Hns as [Hc Ht].
    destruct (N.eqb_spec c sep) as [->|_]; [done|].
    by rewrite IH.
Qed.

Lemma split_on_single (sep : N) (t : pystr) :
  sep ∉ t → split_on sep t = [t].
Proof.
  induction t as [|c t IH]; intros Hns; simpl; [done|].
  apply not_elem_of_cons in Hns as [Hc Ht].
  destruct (N.eqb_spec c sep) as [->|_]; [done|].
  by rewrite IH.
Qed.

(** ** Sidebar options *)

Lemma sorted_NoDup_strict (l : list Z) :
  StronglySorted (fun a b => Z.leb a b = true) l → NoDup l →
  StronglySorted Z.lt l.
Proof.
  induction 1 as [|x l Hs IH Hx]; intros Hnd; [constructor|].
  apply NoDup_cons in Hnd as [Hnx Hnd]. constructor; [by apply IH|].
  rewrite Forall_forall in Hx. apply Forall_forall. intros y Hy.
  specialize (Hx y Hy). apply Z.leb_le in Hx.
  assert (x <> y) by (intros ->; done). lia.
Qed.

Lemma years_strict (df : list Movie) : StronglySorted Z.lt (years df).
Proof.
  unfold years. apply sorted_NoDup_strict.
  - apply (stable_sort_sorted _ (fun _ => True)).
    + intros x y _ _. rewrite !Z.leb_le. lia.
    + intros x y z _ _ _. rewrite !Z.leb_le. lia.
    + by apply Forall_forall.
  - rewrite stable_sort_perm. apply unique_NoDup.
Qed.

(** X5: the years offered in the sidebar are the release years that occur
    in the frame, each once, in strictly ascending order. *)
Theorem years_sorted_distinct (df : list Movie) :
  StronglySorted Z.lt (years df)
  ∧ ∀ y, y ∈ years df ↔ ∃ r, r ∈ df ∧ Release_Date r = y.
Proof. split; [apply years_strict|apply years_elem_of]. Qed.

Lemma genre_tokens_clean (cell g : pystr) :
  g ∈ genre_tokens cell → clean_token g.
Proof.
  intros (Hne & t & Ht & <-)%genre_tokens_elem_of.
  split; [done|]. split; [|apply strip_idemp].
  intros Hc%strip_elem_of. by apply (split_on_no_sep comma cell t).
Qed.

(** X6: every genre offered in the sidebar is a usable name: not empty,
    without a comma, and with no white space at either end. *)
Theorem all_genres_clean (df : list Movie) :
  Forall clean_token (all_genres df).
Proof.
  apply Forall_forall. intros g Hg. unfold all_genres in Hg.
  rewrite stable_sort_elem_of, unique_elem_of in Hg.
  apply list_elem_of_In, in_flat_map in Hg as (cell & _ & Hg).
  by apply (genre_tokens_clean cell), list_elem_of_In.
Qed.

Lemma strip_space_cons (t : pystr) : strip (32%N :: t) = strip t.
Proof. reflexivity. Qed.

Lemma split_join_genres (t : pystr) (rest : list pystr) :
  Forall clean_token (t :: rest) →
  split_comma (join_genres (t :: rest)) = t :: map (cons 32%N) rest.
Proof.
  revert t. induction rest as [|t' rest IH]; intros t Hall.
  - apply Forall_cons in Hall as [(_ & Hc & _) _]. by apply split_on_single.
  - apply Forall_cons in Hall as [(_ & Hc & _) Hall].
    change (join_genres (t :: t' :: rest))
      with (t ++ comma :: 32%N :: join_genres (t' :: rest)).
    unfold split_comma. rewrite split_on_cons_token by done.
    f_equal. change (split_on comma (32%N :: join_genres (t' :: rest)))
      with (match split_on comma (join_genres (t' :: rest)) with
            | [] => [[32%N]]
            | t0 :: ts => (32%N :: t0) :: ts
            end).
    fold (split_comma (join_genres (t' :: rest))). by rewrite IH.
Qed.

(** X7: a Genre cell written as clean genre names joined by ", " is read
    back by the script's comprehension as exactly those names, in order. *)
Theorem genre_tokens_join (toks : list pystr) :
  Forall clean_token toks → genre_tokens (join_genres toks) = toks.
Proof.
  intros Hall. destruct toks as [|t rest]; [reflexivity|].
  unfold genre_tokens.
  assert (Hne : nonempty (join_genres (t :: rest)) = true).
  { apply Forall_cons in Hall as [(Ht & _) _].
    destruct rest; destruct t; done. }
  rewrite Hne, split_join_genres by done.
  assert (Hstrip : ∀ l, Forall clean_token l →
            map strip (List.filter (fun g => nonempty (strip g)) l) = l
            ∧ map strip (List.filter (fun g => nonempty (strip g))
                           (map (cons 32%N) l)) = l).
  { induction 1 as [|x l (Hx & _ & Hs) _ [IH1 IH2]]; [done|]. simpl.
    rewrite strip_space_cons, Hs.
    destruct x as [|c x]; [done|]. simpl nonempty. cbv iota. simpl map.
    rewrite strip_space_cons, Hs, IH1, IH2. done. }
  apply Forall_cons in Hall as [Ht Hrest].
  destruct (Hstrip rest Hrest) as [_ H2].
  destruct Ht as (Hne' & _ & Hs). simpl List.filter. rewrite Hs.
  destruct t as [|c t]; [done|]. simpl nonempty. cbv iota. simpl map.
  by rewrite Hs, H2.
Qed.

Lemma genre_tokens_join_witness :
  genre_tokens (join_genres [py "Action"; py "Science Fiction"; py "Drama"])
  = [py "Action"; py "Science Fiction"; py "Drama"].
Proof.
  apply (genre_tokens_join [py "Action"; py "Science Fiction"; py "Drama"]).
  assert (Hc : ∀ t, t <> [] → bool_decide (comma ∈ t) = false →
                    strip t = t → clean_token t).
  { intros t H1 H2 H3. split; [done|]. split; [|done].
    by apply bool_decide_eq_false in H2. }
  repeat apply Forall_cons_2; [..|apply Forall_nil_2];
    (apply Hc; [discriminate|vm_compute; reflexivity|vm_compute; reflexivity]).
Defined.

(** ** Composition of the filter *)

Lemma filtered_df_filter (df : list Movie) (ys : list Z) (gs : list pystr) :
  filtered_df df ys gs
  = List.filter (fun r => isin (Release_Date r) ys
                          && (negb (nonempty_list gs) || genre_match gs (Genre r)))
                df.
Proof.
  unfold filtered_df, nonempty_list. destruct gs as [|g gs]; simpl.
  - apply filter_ext. intros r. by rewrite andb_true_r.
  - rewrite filter_filter. apply filter_ext. intros r. reflexivity.
Qed.

Lemma filtered_df_in (df : list Movie) (ys : list Z) (gs : list pystr) (r : Movie) :
  r ∈ filtered_df df ys gs
  ↔ r ∈ df ∧ Release_Date r ∈ ys
    ∧ (gs = [] ∨ ∃ sel t, sel ∈ gs ∧ t ∈ split_comma (Genre r) ∧ strip t = sel).
Proof.
  rewrite filtered_df_filter, elem_of_filter_bool, andb_true_iff, orb_true_iff,
    isin_elem_of, genre_match_spec, negb_true_iff.
  unfold nonempty_list. destruct gs; simpl; intuition congruence.
Qed.

Lemma filter_sublist_mono {A} (f g : A -> bool) (l : list A) :
  (∀ x, f x = true → g x = true) →
  List.filter f l `sublist_of` List.filter g l.
Proof.
  intros H. induction l as [|x l IH]; simpl; [done|].
  destruct (f x) eqn:Hf.
  - rewrite (H x Hf). by constructor.
  - destruct (g x); [by constructor|done].
Qed.

(** X8: filtering is idempotent: applying the same selection to a view
    returns that view. *)
Theorem filtered_df_idemp (df : list Movie) (ys : list Z) (gs : list pystr) :
  filtered_df (filtered_df df ys gs) ys gs = filtered_df df ys gs.
Proof.
  rewrite !filtered_df_filter, filter_filter. apply filter_ext.
  intros r. by destruct (isin _ _ && _).
Qed.

(** X9: the view depends only on which years and genres are selected, not
    on the order or repetition of the selections. *)
Theorem filtered_df_selection_sets (df : list Movie) (ys ys' : list Z)
    (gs gs' : list pystr) :
  (∀ y, y ∈ ys ↔ y ∈ ys') → (∀ g, g ∈ gs ↔ g ∈ gs') →
  filtered_df df ys gs = filtered_df df ys' gs'.
Proof.
  intros Hy Hg. rewrite !filtered_df_filter. apply filter_ext. intros r.
  apply eq_true_iff_eq.
  rewrite !andb_true_iff, !orb_true_iff, !isin_elem_of, !genre_match_spec,
    !negb_true_iff, Hy.
  assert (Hne : nonempty_list gs = nonempty_list gs').
  { destruct gs as [|g gs], gs' as [|g' gs']; try done.
    - exfalso. apply (not_elem_of_nil g'). apply Hg. left.
    - exfalso. apply (not_elem_of_nil g). apply Hg. left. }
  rewrite Hne. setoid_rewrite Hg. done.
Qed.

Lemma filtered_df_selection_sets_witness :
  filtered_df films [2009; 1995; 2009] [] = filtered_df films [1995; 2009] [].
Proof.
  apply (filtered_df_selection_sets films [2009; 1995; 2009] [1995; 2009] [] []).
  - intros y. rewrite !elem_of_cons. intuition.
  - done.
Defined.

(** X10: selecting more years never loses a row: the view for a smaller
    year selection is a subsequence of the view for a larger one. *)
Theorem filtered_df_more_years (df : list Movie) (ys ys' : list Z)
    (gs : list pystr) :
  (∀ y, y ∈ ys → y ∈ ys') →
  filtered_df df ys gs `sublist_of` filtered_df df ys' gs.
Proof.
  intros Hy. rewrite !filtered_df_filter. apply filter_sublist_mono.
  intros r. rewrite !andb_true_iff, !isin_elem_of. intros [H1 H2]. auto.
Qed.

Lemma filtered_df_more_years_witness :
  filtered_df films [1995] [] `sublist_of` filtered_df films [1995; 2009] [].
Proof.
  apply (filtered_df_more_years films [1995] [1995; 2009] []).
  intros y. rewrite !elem_of_cons. intuition.
Defined.

(** X11: every option of the sidebar selects something: each year offered,
    selected alone, and each genre offered, selected alone with all years,
    gives a view with at least one row. *)
Theorem options_select_rows (df : list Movie) :
  (∀ y, y ∈ years df → filtered_df df [y] [] <> [])
  ∧ (∀ g, g ∈ all_genres df → filtered_df df (years df) [g] <> []).
Proof.
  split.
  - intros y (r & Hr & Hy)%years_elem_of Hnil.
    apply (not_elem_of_nil r). rewrite <- Hnil.
    apply filtered_df_in. split; [done|]. split; [|by left].
    rewrite Hy. left.
  - intros g Hg Hnil. unfold all_genres in Hg.
    rewrite stable_sort_elem_of, unique_elem_of in Hg.
    apply genre_split_elem_of in Hg as (_ & r & t & Hr & Ht & Hs).
    apply (not_elem_of_nil r). rewrite <- Hnil.
    apply filtered_df_in. split; [done|]. split.
    + apply years_elem_of. by exists r.
    + right. exists g, t. split; [left|done].
Qed.

(** ** Further properties of the loader *)

Lemma mapM_Raise {A B} (f : A -> result B) (l : list A) (e : pyerr) :
  mapM f l = Raise e → ∃ a, a ∈ l ∧ f a = Raise e.
Proof.
  induction l as [|a l IH]; simpl; [done|].
  destruct (f a) as [b|e'] eqn:Hf; simpl.
  - destruct (mapM f l) as [bs|e'] eqn:Hm; simpl; [done|].
    intros [= ->]. destruct (IH eq_refl) as (a' & Ha' & Hfa').
    exists a'. split; [by right|done].
  - intros [= ->]. exists a. split; [left|done].
Qed.

Lemma mapM_first_error {A B} (f : A -> result B) (l : list A) (a : A) (e : pyerr) :
  a ∈ l → f a = Raise e → ∃ e', mapM f l = Raise e'.
Proof.
  induction l as [|x l IH]; intros Ha Hf; [by apply elem_of_nil in Ha|].
  simpl. destruct (f x) as [b|e'] eqn:Hx; simpl; [|by eexists].
  apply elem_of_cons in Ha as [->|Ha]; [congruence|].
  destruct (IH Ha Hf) as [e' ->]. simpl. by eexists.
Qed.

(** X12: in a loaded frame no Genre holds a carriage return or has white
    space at either end. *)
Theorem load_data_genre_clean (parse_number : pystr -> option fl)
    (repr_number : fl -> pystr) (sh : sheet) (df : list Movie) :
  load_data parse_number repr_number sh = Ok df →
  Forall (fun m => (cr ∉ Genre m) ∧ strip (Genre m) = Genre m) df.
Proof.
  intros Hload.
  destruct (load_data_row _ _ _ _ Hload) as (c & _ & Hrows).
  apply Forall_forall. intros m Hm.
  destruct (Hrows m Hm) as (r & vc & _ & _ & _ & -> & _).
  assert (H : ∀ x, (cr ∉ strip (remove_cr x))
                   ∧ strip (strip (remove_cr x)) = strip (remove_cr x)).
  { intros x. split; [|apply strip_idemp].
    intros Hc%strip_elem_of. by apply (remove_cr_no_cr x). }
  destruct (c_genre c); [apply H|exact (H [])].
Qed.

Lemma load_data_genre_clean_witness :
  Forall (fun m => (cr ∉ Genre m) ∧ strip (Genre m) = Genre m) [big_1988].
Proof.
  apply (load_data_genre_clean no_parse no_repr messy_sheet [big_1988]).
  reflexivity.
Defined.

(** X13: in a loaded frame Vote_Average and Popularity are never NaN, and a
    Vote_Count that is present is an int64. *)
Theorem load_data_numeric_columns (parse_number : pystr -> option fl)
    (repr_number : fl -> pystr) (sh : sheet) (df : list Movie) :
  load_data parse_number repr_number sh = Ok df →
  Forall (fun m => is_nan (Vote_Average m) = false
                   ∧ is_nan (Popularity m) = false
                   ∧ ∀ z, Vote_Count m = Some z → in_int64 z) df.
Proof.
  intros Hload.
  destruct (load_data_row _ _ _ _ Hload) as (c & _ & Hrows).
  pose proof (load_data_vote_count _ _ _ _ Hload) as H64.
  rewrite Forall_forall in H64.
  apply Forall_forall. intros m Hm.
  destruct (Hrows m Hm) as (r & vc & _ & _ & _ & _ & -> & ->).
  split; [apply float_column_not_nan|]. split; [apply float_column_not_nan|].
  intros z Hz. specialize (H64 m Hm). by rewrite Hz in H64.
Qed.

Lemma load_data_numeric_columns_witness :
  Forall (fun m => is_nan (Vote_Average m) = false
                   ∧ is_nan (Popularity m) = false
                   ∧ ∀ z, Vote_Count m = Some z → in_int64 z) [sample_movie 0 7].
Proof.
  apply (load_data_numeric_columns no_parse no_repr one_film_sheet [sample_movie 0 7]).
  reflexivity.
Defined.

Lemma StronglySorted_sublist {A} (R : A -> A -> Prop) (l k : list A) :
  l `sublist_of` k → StronglySorted R k → StronglySorted R l.
Proof.
  induction 1 as [|x l k Hsub IH|x l k Hsub IH]; intros Hk; [done|..].
  - apply StronglySorted_inv in Hk as [Hk Hx].
    constructor; [by apply IH|].
    rewrite Forall_forall in Hx. apply Forall_forall. intros y Hy.
    apply Hx. by apply (sublist_subseteq _ _ Hsub).
  - apply StronglySorted_inv in Hk as [Hk _]. by apply IH.
Qed.

Lemma seq_sorted (s n : nat) : StronglySorted lt (seq s n).
Proof.
  revert s. induction n as [|n IH]; intros s; simpl; constructor; [apply IH|].
  apply Forall_forall. intros y Hy. apply elem_of_seq in Hy. lia.
Qed.

Lemma labelled_labels (rows : list (list cell)) :
  map fst (labelled rows) = seq 0 (length rows).
Proof.
  unfold labelled.
  change (map fst (imap (fun i r => (i, r)) rows))
    with (fst <$> imap (fun i (r : list cell) => (i, r)) rows).
  rewrite fmap_imap.
  rewrite (imap_ext _ (fun j _ => j)) by done.
  rewrite (imap_seq_0 rows (fun j => j)). apply list_fmap_id.
Qed.

(** X14: the loaded frame keeps the order of the sheet: its index labels
    are row numbers of the sheet in strictly ascending order (so no row is
    loaded twice). *)
Theorem load_data_labels_ascending (parse_number : pystr -> option fl)
    (repr_number : fl -> pystr) (sh : sheet) (df : list Movie) :
  load_data parse_number repr_number sh = Ok df →
  StronglySorted lt (map label df)
  ∧ Forall (fun m => (label m < length (body sh))%nat) df.
Proof.
  intros Hload.
  destruct (load_data_Ok _ _ _ _ Hload) as (c & _ & Hrows).
  assert (Hl : map label df
               = map fst (kept_rows parse_number (c_date c) (c_title c) (body sh))).
  { apply (Forall2_map_eq _ fst label _ _ (lf_label _ _) Hrows). }
  assert (Hsub : map label df `sublist_of` seq 0 (length (body sh))).
  { rewrite Hl, <- labelled_labels. apply fmap_sublist, filter_sublist. }
  split.
  - eapply StronglySorted_sublist; [exact Hsub|apply seq_sorted].
  - apply Forall_forall. intros m Hm.
    assert (Hin : label m ∈ seq 0 (length (body sh))).
    { apply (sublist_subseteq _ _ Hsub), list_elem_of_fmap. by exists m. }
    apply elem_of_seq in Hin. lia.
Qed.

Lemma load_data_labels_ascending_witness :
  StronglySorted lt (map label films)
  ∧ Forall (fun m => (label m < length (body films_sheet))%nat) films.
Proof.
  apply (load_data_labels_ascending no_parse no_repr films_sheet films).
  reflexivity.
Defined.

Lemma Forall2_elem_of_l {A B} (R : A -> B -> Prop) (l : list A) (k : list B) (a : A) :
  Forall2 R l k → a ∈ l → ∃ b, b ∈ k ∧ R a b.
Proof.
  induction 1 as [|a' b l k Hab _ IH]; intros Ha.
  - by apply elem_of_nil in Ha.
  - apply elem_of_cons in Ha as [->|Ha].
    + exists b. split; [left|done].
    + destruct (IH Ha) as (b' & Hb' & HR). exists b'. split; [by right|done].
Qed.

Lemma astype_Int64_Raise (x : fl) (e : pyerr) :
  astype_Int64 x = Raise e → e = TypeError.
Proof.
  destruct x as [q| |]; simpl; [|congruence..].
  destruct (_ && _); congruence.
Qed.

(** [stage] fails exactly on a Vote_Count that cannot be cast, with a
    TypeError; otherwise it records the parsed date. *)
Lemma stage_cases (parse_number : pystr -> option fl) (repr_number : fl -> pystr)
    (c : columns) (n i : nat) (r : list cell) :
  (bad_vote_count parse_number c r
   ∧ stage parse_number repr_number c n (i, r) = Raise TypeError)
  ∨ (¬ bad_vote_count parse_number c r
     ∧ ∃ s, stage parse_number repr_number c n (i, r) = Ok s
            ∧ s_date s = to_numeric parse_number (cell_at (c_date c) r)).
Proof.
  unfold stage, vote_count_column, bad_vote_count.
  destruct (c_vote_count c) as [j|].
  - destruct (astype_Int64 _) as [vc|e] eqn:Hvc; simpl.
    + right. split; [|by eexists].
      intros (j' & [= <-] & H). congruence.
    + left. apply astype_Int64_Raise in Hvc as Hvc'. subst e. split; [|done].
      by exists j.
  - right. simpl. split; [|by eexists]. intros (j' & [=] & _).
Qed.

(** On a row that was kept, [finish] fails exactly on an infinite date. *)
Lemma finish_cases (s : staged) :
  is_nan (s_date s) = false →
  ((∃ n, s_date s = Inf n) ∧ finish s = Raise IntCastingNaNError)
  ∨ ((∃ q, s_date s = Finite q) ∧ ∃ m, finish s = Ok m).
Proof.
  unfold finish. destruct (s_date s) as [q|n|]; simpl; intros Hn; [| |done].
  - right. split; by eexists.
  - left. split; [by eexists|done].
Qed.

Lemma series_repeated (e : pyerr) (name : pystr) (cols : list pystr) :
  (series e name cols = Raise e ↔ repeated name cols)
  ∧ (∀ o, series e name cols = Ok o → ¬ repeated name cols).
Proof.
  unfold series, repeated.
  destruct (positions name cols) as [|i [|j ps]]; simpl; split;
    try (intros o _; lia); try (split; [done|lia]); try done.
  split; [lia|done].
Qed.

Lemma genre_series_repeated (cols : list pystr) :
  (genre_series cols = Raise AttributeError ↔ genre_repeated cols)
  ∧ (∀ o, genre_series cols = Ok o → ¬ genre_repeated cols).
Proof.
  unfold genre_series, genre_repeated.
  destruct (genre_name cols) as [g|].
  - destruct (series_repeated AttributeError g cols) as [H1 H2]. split.
    + rewrite H1. split; [intros H; by exists g|]. by intros (? & [= <-] & H).
    + intros o Ho (? & [= <-] & H). by apply (H2 o).
  - split; [split; [done|by intros (? & ? & _)]|]. by intros o _ (? & ? & _).
Qed.

(** With its columns found, [load_data] fails only on a row it keeps: with
    a TypeError on a vote count that cannot be cast, else with an
    IntCastingNaNError on an infinite date. *)
Lemma load_data_row_cases (parse_number : pystr -> option fl)
    (repr_number : fl -> pystr) (sh : sheet) (c : columns) :
  let load := load_data parse_number repr_number sh in
  let kept r := r ∈ body sh
                ∧ keeps parse_number (c_date c) (c_title c) r = true in
  resolved (map strip (header sh)) c →
  (load = Raise TypeError ↔ ∃ r, kept r ∧ bad_vote_count parse_number c r)
  ∧ (load = Raise IntCastingNaNError
     ↔ (∀ r, kept r → ¬ bad_vote_count parse_number c r)
       ∧ ∃ r, kept r ∧ infinite_date parse_number (c_date c) r)
  ∧ ((∃ df, load = Ok df)
     ↔ ∀ r, kept r → ¬ bad_vote_count parse_number c r
                     ∧ ¬ infinite_date parse_number (c_date c) r)
  ∧ load <> Raise AttributeError ∧ load <> Raise KeyError.
Proof.
  intros load kept Hc. subst load kept. cbv beta.
  rewrite (load_data_resolved _ _ sh c Hc).
  set (rows := kept_rows _ _ _ _).
  set (n := length rows).
  assert (Hkept : ∀ i r, (i, r) ∈ rows
            ↔ body sh !! i = Some r
              ∧ keeps parse_number (c_date c) (c_title c) r = true).
  { intros i r. apply kept_rows_spec. }
  assert (Hin : ∀ r, r ∈ body sh ∧ keeps parse_number (c_date c) (c_title c) r = true →
                     ∃ i, (i, r) ∈ rows).
  { intros r [[i Hi]%list_elem_of_lookup_1 Hk]. exists i. by apply Hkept. }
  assert (Hraise : ∀ e, mapM (stage parse_number repr_number c n) rows = Raise e →
            e = TypeError
            ∧ ∃ r, (r ∈ body sh ∧ keeps parse_number (c_date c) (c_title c) r = true)
                   ∧ bad_vote_count parse_number c r).
  { intros e ([i r] & Hlr & Hst)%mapM_Raise.
    apply Hkept in Hlr as [Hir Hk].
    destruct (stage_cases parse_number repr_number c n i r)
      as [[Hbad Hs]|(_ & s & Hs & _)]; [|congruence].
    split; [congruence|]. exists r. split; [|done].
    split; [by eapply list_elem_of_lookup_2|done]. }
  assert (Hfinish : ∀ ss e,
            mapM (stage parse_number repr_number c n) rows = Ok ss →
            mapM finish ss = Raise e →
            e = IntCastingNaNError
            ∧ ∃ r, (r ∈ body sh ∧ keeps parse_number (c_date c) (c_title c) r = true)
                   ∧ infinite_date parse_number (c_date c) r).
  { intros ss e Hss (s & Hs & Hf)%mapM_Raise. apply mapM_Ok in Hss.
    destruct (Forall2_elem_of_r _ _ _ _ Hss Hs) as ([i r] & Hlr & Hst).
    apply Hkept in Hlr as [Hir Hk].
    destruct (stage_cases parse_number repr_number c n i r)
      as [[_ Hs']|(_ & s' & Hs' & Hd)]; [congruence|].
    assert (s' = s) as -> by congruence.
    assert (Hnn : is_nan (s_date s) = false).
    { rewrite Hd. unfold keeps in Hk. apply andb_true_iff in Hk as [Hk _].
      by apply negb_true_iff in Hk. }
    destruct (finish_cases s Hnn) as [[[b Hb] Hr]|[_ [m Hm]]]; [|congruence].
    split; [congruence|]. exists r. split.
    - split; [by eapply list_elem_of_lookup_2|done].
    - exists b. by rewrite <- Hd. }
  destruct (mapM _ rows) as [ss|e] eqn:Hss; simpl.
  - (* every kept row was staged *)
    assert (Hgood : ∀ r, r ∈ body sh
                         ∧ keeps parse_number (c_date c) (c_title c) r = true →
                         ¬ bad_vote_count parse_number c r).
    { intros r Hr Hbad. destruct (Hin r Hr) as [i Hlr].
      destruct (stage_cases parse_number repr_number c n i r)
        as [[_ Hs]|[Hnb _]]; [|done].
      destruct (mapM_first_error _ _ _ _ Hlr Hs) as [e' He']. congruence. }
    assert (Hinf : ∀ r, (r ∈ body sh
                         ∧ keeps parse_number (c_date c) (c_title c) r = true) →
                        infinite_date parse_number (c_date c) r →
                        mapM finish ss = Raise IntCastingNaNError).
    { intros r Hr [b Hb]. destruct (Hin r Hr) as [i Hlr].
      pose proof (mapM_Ok _ _ _ Hss) as Hall.
      destruct (Forall2_elem_of_l _ _ _ _ Hall Hlr) as (s & Hs & Hst).
      destruct (stage_cases parse_number repr_number c n i r)
        as [[_ Hs']|(_ & s' & Hs' & Hd)]; [congruence|].
      assert (s' = s) as -> by congruence.
      assert (Hf : finish s = Raise IntCastingNaNError).
      { unfold finish. by rewrite Hd, Hb. }
      destruct (mapM_first_error _ _ _ _ Hs Hf) as [e' He'].
      destruct (Hfinish ss e' eq_refl He') as [-> _]. done. }
    split; [|split; [|split; [|split]]].
    + split.
      * intros H. by destruct (Hfinish ss _ eq_refl H).
      * intros (r & Hr & Hbad). by destruct (Hgood r Hr).
    + split.
      * intros H. destruct (Hfinish ss _ eq_refl H) as [_ Hex]. by split.
      * intros (_ & r & Hr & Hi). by apply (Hinf r).
    + split.
      * intros [df Hdf] r Hr. split; [by apply Hgood|].
        intros Hi. rewrite (Hinf r Hr Hi) in Hdf. done.
      * intros Hrows. destruct (mapM finish ss) as [df|e] eqn:Hf; [by exists df|].
        destruct (Hfinish ss e eq_refl Hf) as (_ & r & Hr & Hi).
        by destruct (Hrows r Hr).
    + intros H. by destruct (Hfinish ss _ eq_refl H).
    + intros H. by destruct (Hfinish ss _ eq_refl H).
  - destruct (Hraise e eq_refl) as [-> Hex].
    split; [|split; [|split; [|split]]]; try done.
    + split; [done|].
      intros (Hgood & _). destruct Hex as (r & Hr & Hbad). by destruct (Hgood r Hr).
    + split; [by intros [? ?]|]. intros Hrows.
      destruct Hex as (r & Hr & Hbad). by destruct (Hrows r Hr).
Qed.

Lemma positions_elem (name : pystr) (cols : list pystr) (i : nat) (ps : list nat) :
  positions name cols = i :: ps → name ∈ cols.
Proof.
  intros H. destruct (decide (name ∈ cols)) as [|Hn]; [done|].
  apply positions_nil in Hn. congruence.
Qed.

Lemma raise_outcome {X} (e : pyerr) (A K T : Prop) :
  (e = AttributeError → A ∧ ¬ K ∧ ¬ T) →
  (e = KeyError → ¬ A ∧ K ∧ ¬ T) →
  (e = TypeError → ¬ A ∧ ¬ K ∧ T) →
  e <> IntCastingNaNError →
  (@Raise X e = Raise AttributeError ↔ A)
  ∧ (@Raise X e = Raise KeyError ↔ K)
  ∧ (@Raise X e = Raise TypeError ↔ T)
  ∧ @Raise X e <> Raise IntCastingNaNError ∧ (∀ x, @Raise X e <> Ok x).
Proof.
  intros HA HK HT HI.
  destruct e; [destruct (HK eq_refl) as (? & ? & ?)
              |destruct (HT eq_refl) as (? & ? & ?)
              |done
              |destruct (HA eq_refl) as (? & ? & ?)];
    (split; [|split; [|split; [|split]]]); try done; split; try done;
    intros [=].
Qed.

(** When a column [load_data] needs is missing or repeated, the first line
    that reads it raises. *)
Lemma load_data_unresolved (parse_number : pystr -> option fl)
    (repr_number : fl -> pystr) (sh : sheet) :
  let cols := map strip (header sh) in
  let load := load_data parse_number repr_number sh in
  (∀ c, ¬ resolved cols c) →
  (load = Raise AttributeError ↔ genre_repeated cols)
  ∧ (load = Raise KeyError ↔ missing_column cols)
  ∧ (load = Raise TypeError ↔ repeated_column cols)
  ∧ load <> Raise IntCastingNaNError ∧ (∀ df, load <> Ok df).
Proof.
  intros cols load Hnone. subst load. unfold load_data. fold cols.
  unfold missing_column, repeated_column.
  destruct (genre_series_repeated cols) as [HG HG'].
  destruct (series_repeated TypeError (py "Release_Date") cols) as [HD HD'].
  destruct (series_repeated TypeError (py "Vote_Average") cols) as [HA HA'].
  destruct (series_repeated TypeError (py "Popularity") cols) as [HP HP'].
  destruct (series_repeated TypeError (py "Vote_Count") cols) as [HC HC'].
  destruct (genre_series cols) as [g|e] eqn:Hg; simpl.
  2:{ assert (e = AttributeError) as ->.
      { unfold genre_series in Hg. destruct (genre_name cols); [|done].
        by apply series_Raise in Hg as [-> _]. }
      pose proof (proj1 HG eq_refl) as Hrep.
      apply raise_outcome; try done. intros _.
      split; [done|]. split; by intros [? _]. }
  specialize (HG' g eq_refl).
  destruct (series TypeError (py "Release_Date") cols) as [[d|]|e] eqn:Hd; simpl.
  3:{ apply series_Raise in Hd as Hd'. destruct Hd' as [-> _].
      pose proof (proj1 HD eq_refl) as Hrep.
      apply raise_outcome; try done. intros _.
      split; [done|]. split; [|by split; [|left]].
      intros [_ [H|[H _]]]; [|done].
      apply positions_nil in H. unfold repeated in Hrep. rewrite H in Hrep.
      simpl in Hrep. lia. }
  2:{ apply series_inv in Hd as [[_ Hd]|(? & [=] & _)].
      apply raise_outcome; try done. intros _.
      split; [done|]. split; [by split; [|left]|].
      apply positions_nil in Hd. unfold repeated. rewrite Hd. simpl.
      intros [_ [H|(H & _)]]; [lia|done]. }
  specialize (HD' _ eq_refl).
  apply series_inv in Hd as [[? _]|(? & [= <-] & Hd)]; [done|].
  assert (HnD : ¬ (py "Release_Date" ∉ cols)).
  { intros H. apply positions_nil in H. congruence. }
  assert (H1 : length (positions (py "Release_Date") cols) = 1%nat)
    by (by rewrite Hd).
  destruct (positions (py "Title") cols) as [|t0 t] eqn:Ht; simpl.
  { apply positions_nil in Ht.
    apply raise_outcome; try done. intros _.
    split; [done|]. split; [by split; [|right]|].
    intros [_ [H|(_ & H & _)]]; done. }
  pose proof (positions_elem _ _ _ _ Ht) as HinT.
  assert (HnT : ¬ (¬ repeated (py "Release_Date") cols ∧ py "Title" ∉ cols)).
  { by intros [_ H]. }
  destruct (series TypeError (py "Vote_Average") cols) as [a|e] eqn:Ha; simpl.
  2:{ apply series_Raise in Ha as Ha'. destruct Ha' as [-> _].
      pose proof (proj1 HA eq_refl) as Hrep.
      apply raise_outcome; try done. intros _.
      split; [done|]. split; [tauto|]. split; [done|]. right. tauto. }
  specialize (HA' _ eq_refl).
  destruct (series TypeError (py "Popularity") cols) as [p|e] eqn:Hp; simpl.
  2:{ apply series_Raise in Hp as Hp'. destruct Hp' as [-> _].
      pose proof (proj1 HP eq_refl) as Hrep.
      apply raise_outcome; try done. intros _.
      split; [done|]. split; [tauto|]. split; [done|]. right. tauto. }
  specialize (HP' _ eq_refl).
  destruct (series TypeError (py "Vote_Count") cols) as [vc|e] eqn:Hc; simpl.
  2:{ apply series_Raise in Hc as Hc'. destruct Hc' as [-> _].
      pose proof (proj1 HC eq_refl) as Hrep.
      apply raise_outcome; try done. intros _.
      split; [done|]. split; [tauto|]. split; [done|]. right. tauto. }
  exfalso.
  apply (Hnone {| c_genre := g; c_date := d; c_title := t0 :: t;
                  c_vote_average := a; c_popularity := p; c_vote_count := vc |}).
  by constructor.
Qed.

(** With its columns found, no line that reads a column raises. *)
Lemma resolved_conditions (cols : list pystr) (c : columns) :
  resolved cols c →
  ¬ genre_repeated cols ∧ ¬ missing_column cols ∧ ¬ repeated_column cols.
Proof.
  intros [Hg Hd Ht Hne Ha Hp Hc].
  destruct (genre_series_repeated cols) as [_ HG].
  destruct (series_repeated TypeError (py "Vote_Average") cols) as [_ HA].
  destruct (series_repeated TypeError (py "Popularity") cols) as [_ HP].
  destruct (series_repeated TypeError (py "Vote_Count") cols) as [_ HC].
  specialize (HG _ Hg). specialize (HA _ Ha). specialize (HP _ Hp).
  specialize (HC _ Hc).
  split; [done|]. unfold missing_column, repeated_column, repeated in *.
  rewrite <- !positions_nil, Hd, Ht. simpl.
  split.
  - intros [_ [H|[_ H]]]; [done|]. by rewrite H in Hne.
  - intros [_ [H|(_ & _ & H)]]; [lia|]. tauto.
Qed.

(** X15: the outcome of [load_data].  AttributeError: exactly when several
    columns carry the header read as "Genre".  KeyError: exactly when that
    is not so and there is no Release_Date column, or one Release_Date
    column and no Title column.  TypeError: exactly when the first line to
    raise is one that hands [pd.to_numeric] several columns of one name
    (Release_Date, or with a Title column there Vote_Average, Popularity or
    Vote_Count), or else all columns are found and a kept row has a
    Vote_Count that is no whole number in range.  IntCastingNaNError:
    exactly when all columns are found, no kept row has such a Vote_Count,
    and a kept row has an infinite date.  A frame is returned in the
    remaining case: all columns found and no kept row with such a
    Vote_Count or date. *)
Theorem load_data_errors (parse_number : pystr -> option fl)
    (repr_number : fl -> pystr) (sh : sheet) :
  let cols := map strip (header sh) in
  let load := load_data parse_number repr_number sh in
  let kept c r := r ∈ body sh
                  ∧ keeps parse_number (c_date c) (c_title c) r = true in
  (load = Raise AttributeError ↔ genre_repeated cols)
  ∧ (load = Raise KeyError ↔ missing_column cols)
  ∧ (load = Raise TypeError
     ↔ repeated_column cols
       ∨ ∃ c, resolved cols c
              ∧ ∃ r, kept c r ∧ bad_vote_count parse_number c r)
  ∧ (load = Raise IntCastingNaNError
     ↔ ∃ c, resolved cols c
            ∧ (∀ r, kept c r → ¬ bad_vote_count parse_number c r)
            ∧ ∃ r, kept c r ∧ infinite_date parse_number (c_date c) r)
  ∧ ((∃ df, load = Ok df)
     ↔ ∃ c, resolved cols c
            ∧ ∀ r, kept c r → ¬ bad_vote_count parse_number c r
                              ∧ ¬ infinite_date parse_number (c_date c) r).
Proof.
  intros cols load kept. subst load kept. cbv beta.
  pose proof (load_data_columns parse_number repr_number sh _ eq_refl) as Hcols.
  fold cols in Hcols. destruct Hcols as [[c Hc]|[Hnone _]].
  - destruct (load_data_row_cases parse_number repr_number sh c Hc)
      as (HT & HI & HO & HnA & HnK).
    destruct (resolved_conditions cols c Hc) as (HG & HM & HR).
    assert (Hu : ∀ c', resolved cols c' → c' = c).
    { intros c' Hc'. by apply (resolved_unique cols). }
    split; [tauto|]. split; [tauto|]. split; [|split].
    + rewrite HT. split.
      * intros H. right. by exists c.
      * intros [H|(c' & Hc' & H)]; [done|]. by rewrite (Hu c' Hc') in H.
    + rewrite HI. split.
      * intros H. by exists c.
      * intros (c' & Hc' & H). by rewrite (Hu c' Hc') in H.
    + rewrite HO. split.
      * intros H. by exists c.
      * intros (c' & Hc' & H). by rewrite (Hu c' Hc') in H.
  - destruct (load_data_unresolved parse_number repr_number sh Hnone)
      as (HA & HK & HT & HnI & HnO).
    fold cols in HA, HK, HT.
    split; [done|]. split; [done|]. split; [|split].
    + rewrite HT. split; [by left|]. intros [H|(c & Hc & _)]; [done|].
      by destruct (Hnone c).
    + split; [done|]. intros (c & Hc & _). by destruct (Hnone c).
    + split; [intros [df Hdf]; by destruct (HnO df)|].
      intros (c & Hc & _). by destruct (Hnone c).
Qed.

(** Two headers that strip to "Genres": both are renamed to "Genre", and
    line 32 asks a frame of two columns for [.str]. *)
Example load_two_genre_columns :
  load_data no_parse no_repr two_genres_sheet = Raise AttributeError.
Proof. reflexivity. Qed.

Lemma starts_with_refl (p : pystr) : starts_with p p = true.
Proof. induction p as [|c p IH]; simpl; [done|]. by rewrite N.eqb_refl. Qed.

Lemma contains_refl (p : pystr) : contains p p = true.
Proof. destruct p; simpl; [done|]. by rewrite N.eqb_refl, starts_with_refl. Qed.

(** No column is taken for "Genre" when no header contains that word. *)
Lemma genre_series_None (cols : list pystr) (o : option nat) :
  Forall (fun c => contains (py "Genre") c = false) cols →
  genre_series cols = Ok o → o = None.
Proof.
  intros Hall. unfold genre_series, genre_name.
  rewrite Forall_forall in Hall.
  destruct (bool_decide_reflect (py "Genre" ∈ cols)) as [Hin|_].
  { specialize (Hall _ Hin). by rewrite contains_refl in Hall. }
  destruct (List.find _ cols) as [g|] eqn:Hf; [|congruence].
  apply find_some in Hf as [Hin Hg]. apply list_elem_of_In in Hin.
  specialize (Hall _ Hin). congruence.
Qed.

(** X16: what [load_data] puts in place of a missing optional column.  With
    no header containing "Genre" every Genre is the empty string; without a
    Vote_Average or Popularity column the value is 0.0; without a
    Vote_Count column a row gets 0 if its sheet row number is below the
    number of rows kept, and no value otherwise. *)
Theorem load_data_missing_columns (parse_number : pystr -> option fl)
    (repr_number : fl -> pystr) (sh : sheet) (df : list Movie) :
  load_data parse_number repr_number sh = Ok df →
  (Forall (fun c => contains (py "Genre") c = false) (map strip (header sh)) →
     Forall (fun m => Genre m = []) df)
  ∧ (py "Vote_Average" ∉ map strip (header sh) →
     Forall (fun m => Vote_Average m = Finite 0) df)
  ∧ (py "Popularity" ∉ map strip (header sh) →
     Forall (fun m => Popularity m = Finite 0) df)
  ∧ (py "Vote_Count" ∉ map strip (header sh) →
     Forall (fun m => Vote_Count m
                      = if (label m <? length df)%nat then Some 0 else None) df).
Proof.
  intros Hload.
  destruct (load_data_row _ _ _ _ Hload) as (c & Hc & Hrows).
  destruct Hc as [HG _ _ _ HA HP HC].
  split; [|split; [|split]]; intros Hno; apply Forall_forall; intros m Hm;
    destruct (Hrows m Hm) as (r & vc & _ & Hvc & Hc & Hg & Hva & Hp).
  - by rewrite Hg, (genre_series_None _ _ Hno HG).
  - by rewrite Hva, (series_missing _ _ _ _ HA Hno).
  - by rewrite Hp, (series_missing _ _ _ _ HP Hno).
  - rewrite (series_missing _ _ _ _ HC Hno) in Hvc. simpl in Hvc.
    injection Hvc as <-. by rewrite Hc.
Qed.

Lemma load_data_missing_columns_witness :
  (Forall (fun c => contains (py "Genre") c = false)
          (map strip (header films_sheet)) →
     Forall (fun m => Genre m = []) films)
  ∧ (py "Vote_Average" ∉ map strip (header films_sheet) →
     Forall (fun m => Vote_Average m = Finite 0) films)
  ∧ (py "Popularity" ∉ map strip (header films_sheet) →
     Forall (fun m => Popularity m = Finite 0) films)
  ∧ (py "Vote_Count" ∉ map strip (header films_sheet) →
     Forall (fun m => Vote_Count m
                      = if (label m <? length films)%nat then Some 0 else None)
            films).
Proof.
  apply (load_data_missing_columns no_parse no_repr films_sheet films).
  reflexivity.
Defined.

(** X17: a sheet without a Vote_Count column gives every marker of every
    non-empty view the minimum size 5 (the missing counts read as 0). *)
Theorem plot_sizes_without_vote_count (parse_number : pystr -> option fl)
    (repr_number : fl -> pystr) (sh : sheet) (df : list Movie)
    (ys : list Z) (gs : list pystr) :
  load_data parse_number repr_number sh = Ok df →
  py "Vote_Count" ∉ map strip (header sh) →
  filtered_df df ys gs <> [] →
  plot_sizes (filtered_df df ys gs)
  = Some (map (fun _ => Finite 5) (filtered_df df ys gs), []).
Proof.
  intros Hload Hno Hne.
  destruct (load_data_row _ _ _ _ Hload) as (c & Hc & Hrows).
  assert (Hzero : Forall (fun m => default 0 (Vote_Count m) = 0) df).
  { apply Forall_forall. intros m Hm.
    destruct (Hrows m Hm) as (r & vc & _ & Hvc & -> & _).
    rewrite (series_missing _ _ _ _ (rs_vote_count _ _ Hc) Hno) in Hvc.
    simpl in Hvc. injection Hvc as <-. by destruct (_ <? _)%nat. }
  apply (filtered_df_Forall _ df ys gs) in Hzero.
  set (fv := filtered_df df ys gs) in *.
  assert (Hvals : Forall (fun v => v = 0) (size_vals fv)).
  { unfold size_vals. by apply Forall_fmap. }
  destruct (array_max (size_vals fv)) as [mx|] eqn:Hmx.
  - destruct (array_max_spec _ _ Hmx) as [Hin _].
    rewrite Forall_forall in Hvals. specialize (Hvals mx Hin).
    unfold plot_sizes, total_movies. destruct fv as [|m fv']; [done|].
    simpl Nat.ltb. cbv iota.
    rewrite (scale_sizes_nonpos _ _ Hmx) by lia.
    unfold size_vals. by rewrite map_map.
  - destruct fv; [done|discriminate].
Qed.

Lemma plot_sizes_without_vote_count_witness :
  plot_sizes (filtered_df films [1995; 2009] [])
  = Some (map (fun _ => Finite 5) (filtered_df films [1995; 2009] []), []).
Proof.
  apply (plot_sizes_without_vote_count no_parse no_repr films_sheet films
           [1995; 2009] []).
  - reflexivity.
  - apply positions_nil. reflexivity.
  - discriminate.
Defined.

(** ** Further properties of the marker sizes *)

Lemma scale_nan : scaled 0 0 = NaN.
Proof. reflexivity. Qed.

Lemma wrap64_in_int64 (z : Z) : in_int64 (wrap64 z).
Proof.
  unfold in_int64, int64_min, int64_max, wrap64.
  pose proof (Z.mod_pos_bound (z + 2 ^ 63) (2 ^ 64)). lia.
Qed.

Lemma wrap64_nonzero (z : Z) : 0 < z < 2 ^ 64 → wrap64 z <> 0.
Proof.
  intros Hz Hw. unfold wrap64 in Hw.
  destruct (Z_lt_le_dec z (2 ^ 63)) as [Hs|Hs].
  - rewrite Z.mod_small in Hw by lia. lia.
  - assert (Hm : (z + 2 ^ 63) mod 2 ^ 64 = z + 2 ^ 63 - 2 ^ 64).
    { symmetry. apply (Z.mod_unique _ _ 1); lia. }
    lia.
Qed.

(** Lines 229-230 on int64 operands never overflow: with a divisor other
    than zero the result is a finite number. *)
Lemma scaled_finite (a d : Z) :
  in_int64 a → in_int64 d → d <> 0 → ∃ q, scaled a d = Finite q.
Proof.
  unfold in_int64, int64_min, int64_max. intros Ha Hd Hnz.
  destruct (of_int_range (- 2 ^ 63) (2 ^ 63) a) as (fa & Hfa & Ha1 & Ha2);
    [lia|lia|lia|by right|by right|].
  assert (Hfd : ∃ fd, of_int d = Finite fd
                      ∧ ((1 <= fd)%Q ∨ (fd <= - (1))%Q)).
  { destruct (Z_lt_le_dec 0 d) as [Hp|Hn].
    - destruct (of_int_range 1 (2 ^ 63) d) as (fd & Hfd & H1 & _);
        [lia|lia|lia|left; reflexivity|by right|].
      exists fd. split; [exact Hfd|by left].
    - destruct (of_int_range (- 2 ^ 63) (- 1) d) as (fd & Hfd & _ & H1);
        [lia|lia|lia|by right|left; reflexivity|].
      exists fd. split; [exact Hfd|by right]. }
  destruct Hfd as (fd & Hfd & Hsign).
  assert (Hnz' : ¬ (fd == 0)%Q) by (destruct Hsign; lra).
  rewrite (scaled_eq _ _ _ _ Hfa Hfd Hnz').
  assert (H69 : (35 * inject_Z (2 ^ 63) <= inject_Z (2 ^ 69))%Q) by (by vm_compute).
  assert (H70 : (inject_Z (2 ^ 69) + 5 <= inject_Z (2 ^ 70))%Q) by (by vm_compute).
  assert (H63 : (0 <= inject_Z (2 ^ 63))%Q) by (by vm_compute).
  rewrite inject_Z_opp in Ha1.
  destruct (b64_between_pow2 63 (fa / fd)) as (n & -> & Hn1 & Hn2); [lia| |].
  { revert Ha1 Ha2 H63. generalize (inject_Z (2 ^ 63)). intros B Ha1 Ha2 H63.
    destruct Hsign as [Hs|Hs].
    - split; [apply Qle_shift_div_l|apply Qle_shift_div_r]; nra.
    - assert (E : (fa / fd == (- fa) / (- fd))%Q) by (field; lra).
      rewrite E. split; [apply Qle_shift_div_l|apply Qle_shift_div_r]; nra. }
  destruct (b64_between_pow2 69 (n * 35)) as (t & -> & Ht1 & Ht2); [lia| |].
  { revert Hn1 Hn2 H69. generalize (inject_Z (2 ^ 63)) (inject_Z (2 ^ 69)).
    intros B C Hn1 Hn2 H69. split; lra. }
  destruct (b64_between_pow2 70 (t + 5)) as (s & -> & _); [lia| |].
  { assert (H69' : (0 <= inject_Z (2 ^ 69))%Q) by (by vm_compute).
    revert Ht1 Ht2 H70 H69'. generalize (inject_Z (2 ^ 69)) (inject_Z (2 ^ 70)).
    intros C D Ht1 Ht2 H70 H69'. split; lra. }
  by exists s.
Qed.

(** On int64 counts [scale_sizes] has two outcomes.  With a maximum above
    zero and equal to the minimum every size is NaN and the invalid-value
    flag is raised; otherwise every size is finite, no division flag is
    raised, and the subtraction [max - min] warns exactly when it wraps
    around. *)
Lemma scale_sizes_outcomes (vals : list Z) :
  vals <> [] → Forall in_int64 vals →
  ∃ sizes flags mn mx,
    scale_sizes vals = Some (sizes, flags)
    ∧ length sizes = length vals
    ∧ array_min vals = Some mn ∧ array_max vals = Some mx
    ∧ (((mx <= 0 ∨ mn < mx)
        ∧ Forall (fun s => ∃ q, s = Finite q) sizes
        ∧ flags = if (0 <? mx) && negb (in_int64_b (mx - mn))
                  then [Overflow] else [])
       ∨ (0 < mx ∧ mn = mx
          ∧ Forall (fun s => s = NaN) sizes ∧ flags = [InvalidValue])).
Proof.
  intros Hne H64.
  destruct (array_max vals) as [mx|] eqn:Hmx; [|by destruct vals].
  destruct (array_min vals) as [mn|] eqn:Hmn; [|by destruct vals].
  destruct (array_max_spec _ _ Hmx) as [Hmxin Hhi].
  destruct (array_min_spec _ _ Hmn) as [Hmnin Hlo].
  rewrite Forall_forall in H64.
  pose proof (H64 _ Hmxin) as Hmx64. pose proof (H64 _ Hmnin) as Hmn64.
  pose proof (Hhi _ Hmnin) as Hle.
  destruct (Z_lt_le_dec 0 mx) as [Hpos|Hnp].
  - unfold scale_sizes. rewrite Hmx, Hmn.
    destruct (Z.ltb_spec 0 mx) as [_|]; [|lia].
    unfold np_scalar_sub, np_divide.
    destruct (Z.eq_dec mn mx) as [->|Hneq].
    + (* all counts are equal: the divisor is zero *)
      assert (Heq : ∀ v, v ∈ vals → sub64 v mx = 0).
      { intros v Hv. specialize (Hhi v Hv). specialize (Hlo v Hv).
        replace v with mx by lia. unfold sub64. by rewrite Z.sub_diag. }
      rewrite Z.sub_diag. rewrite (Heq mx Hmxin). simpl in_int64_b. cbv iota.
      eexists _, _, mx, mx. split; [reflexivity|].
      split; [by rewrite !length_map|]. split; [done|]. split; [done|].
      right. split; [done|]. split; [done|]. split.
      * rewrite !map_map. apply Forall_fmap, Forall_forall. intros v Hv.
        simpl. rewrite (Heq v Hv). apply scale_nan.
      * replace (existsb (fun x => negb (x =? 0)) (map (fun v => sub64 v mx) vals))
          with false.
        2:{ symmetry. apply not_true_iff_false. rewrite existsb_exists.
            intros (x & Hx & Hnz). apply in_map_iff in Hx as (v & <- & Hv).
            rewrite Heq in Hnz by (by apply list_elem_of_In). done. }
        replace (existsb (fun x => x =? 0) (map (fun v => sub64 v mx) vals))
          with true; [done|].
        symmetry. apply existsb_exists. exists 0. split; [|done].
        apply in_map_iff. exists mx. split; [|by apply list_elem_of_In].
        by apply Heq.
    + assert (Hd : sub64 mx mn <> 0).
      { apply wrap64_nonzero. unfold in_int64, int64_min, int64_max in *. lia. }
      destruct (Z.eqb_spec (sub64 mx mn) 0) as [|_]; [done|].
      eexists _, _, mn, mx. split; [reflexivity|].
      split; [by rewrite !length_map|]. split; [done|]. split; [done|].
      left. split; [right; lia|]. split.
      * rewrite !map_map. apply Forall_fmap, Forall_forall. intros v Hv. simpl.
        apply (scaled_finite (sub64 v mn) (sub64 mx mn)); [..|exact Hd];
          apply wrap64_in_int64.
      * rewrite app_nil_r. destruct (Z.ltb_spec 0 mx) as [_|]; [|lia].
        by destruct (in_int64_b (mx - mn)).
  - rewrite (scale_sizes_nonpos _ _ Hmx Hnp).
    eexists _, _, mn, mx. split; [reflexivity|].
    split; [by rewrite length_map|]. split; [done|]. split; [done|].
    left. split; [by left|]. split.
    + apply Forall_fmap, Forall_forall. intros v _. by eexists.
    + destruct (Z.ltb_spec 0 mx) as [|_]; [lia|]. done.
Qed.

(** X18: for a non-empty view of a loaded frame the marker-size array has
    one entry per row and no entry is ever infinite.  When the maximum count
    is positive and equal to the minimum, every entry is NaN and the
    invalid-value flag is raised; otherwise every entry is a finite number,
    no division flag is raised, and the only possible warning is the
    overflow of the int64 subtraction [max - min], raised exactly when the
    maximum is positive and the spread does not fit int64. *)
Theorem plot_sizes_outcomes (parse_number : pystr -> option fl)
    (repr_number : fl -> pystr) (sh : sheet) (df : list Movie)
    (ys : list Z) (gs : list pystr) :
  load_data parse_number repr_number sh = Ok df →
  filtered_df df ys gs <> [] →
  ∃ sizes flags mn mx,
    plot_sizes (filtered_df df ys gs) = Some (sizes, flags)
    ∧ length sizes = length (filtered_df df ys gs)
    ∧ array_min (size_vals (filtered_df df ys gs)) = Some mn
    ∧ array_max (size_vals (filtered_df df ys gs)) = Some mx
    ∧ (((mx <= 0 ∨ mn < mx)
        ∧ Forall (fun s => ∃ q, s = Finite q) sizes
        ∧ flags = if (0 <? mx) && negb (in_int64_b (mx - mn))
                  then [Overflow] else [])
       ∨ (0 < mx ∧ mn = mx
          ∧ Forall (fun s => s = NaN) sizes ∧ flags = [InvalidValue])).
Proof.
  intros Hload Hne.
  pose proof (load_data_vote_count _ _ _ _ Hload) as H64.
  apply (filtered_df_Forall _ df ys gs) in H64.
  set (fv := filtered_df df ys gs) in *.
  destruct (scale_sizes_outcomes (size_vals fv))
    as (sizes & flags & mn & mx & Hs & Hlen & Hmn & Hmx & Hcase).
  { unfold size_vals. by destruct fv. }
  { unfold size_vals. by apply Forall_fmap. }
  exists sizes, flags, mn, mx. split.
  - unfold plot_sizes, total_movies. by destruct fv.
  - split; [|done]. rewrite Hlen. unfold size_vals. apply length_map.
Qed.

Lemma plot_sizes_outcomes_witness :
  ∃ sizes flags mn mx,
    plot_sizes (filtered_df films [1995; 2009] []) = Some (sizes, flags)
    ∧ length sizes = length (filtered_df films [1995; 2009] [])
    ∧ array_min (size_vals (filtered_df films [1995; 2009] [])) = Some mn
    ∧ array_max (size_vals (filtered_df films [1995; 2009] [])) = Some mx
    ∧ (((mx <= 0 ∨ mn < mx)
        ∧ Forall (fun s => ∃ q, s = Finite q) sizes
        ∧ flags = if (0 <? mx) && negb (in_int64_b (mx - mn))
                  then [Overflow] else [])
       ∨ (0 < mx ∧ mn = mx
          ∧ Forall (fun s => s = NaN) sizes ∧ flags = [InvalidValue])).
Proof.
  apply (plot_sizes_outcomes no_parse no_repr films_sheet films [1995; 2009] []).
  - reflexivity.
  - discriminate.
Defined.

Example plot_sizes_spread_overflow :
  plot_sizes [sample_movie 0 int64_min; sample_movie 1 0;
              sample_movie 2 (2 ^ 62)]
  = Some ([Finite 5; Finite 75; Finite 40], [Overflow]).
Proof. vm_compute. reflexivity. Qed.

(** X19: when the view has two different counts and a positive maximum
    (spread within int64), marker sizes follow the vote counts: a row with
    at least as many votes as another gets a marker at least as large. *)
Theorem plot_sizes_monotone (fv : list Movie) (mn mx : Z) :
  array_min (size_vals fv) = Some mn → array_max (size_vals fv) = Some mx →
  0 < mx → mn < mx → mx - mn <= int64_max →
  ∃ sizes,
    plot_sizes fv = Some (sizes, [])
    ∧ ∀ i j ri rj si sj,
        fv !! i = Some ri → fv !! j = Some rj →
        sizes !! i = Some si → sizes !! j = Some sj →
        default 0 (Vote_Count ri) <= default 0 (Vote_Count rj) →
        fl_leb si sj = true.
Proof.
  intros Hmn Hmx Hpos Hlt Hfit.
  destruct (scale_sizes_linear _ _ _ Hmn Hmx Hpos Hlt Hfit) as (sizes & Hs & Hall).
  exists sizes. split.
  - unfold plot_sizes, total_movies. destruct fv as [|r fv]; [done|]. exact Hs.
  - unfold size_vals in Hall. apply Forall2_fmap_l in Hall.
    intros i j ri rj si sj Hri Hrj Hsi Hsj Hle.
    destruct (Forall2_lookup_lr _ _ _ _ _ _ Hall Hri Hsi) as (-> & Hvi).
    destruct (Forall2_lookup_lr _ _ _ _ _ _ Hall Hrj Hsj) as (-> & Hvj).
    simpl in Hvi, Hvj.
    destruct (scaled_order (default 0 (Vote_Count ri) - mn)
                (default 0 (Vote_Count rj) - mn) (mx - mn))
      as (qi & qj & -> & -> & _ & Hq & _); [lia|lia|lia|].
    simpl. by apply Qle_bool_iff.
Qed.

Lemma plot_sizes_monotone_witness :
  ∃ sizes,
    plot_sizes [sample_movie 0 10; sample_movie 1 30; sample_movie 2 20]
    = Some (sizes, [])
    ∧ ∀ i j ri rj si sj,
        [sample_movie 0 10; sample_movie 1 30; sample_movie 2 20] !! i = Some ri →
        [sample_movie 0 10; sample_movie 1 30; sample_movie 2 20] !! j = Some rj →
        sizes !! i = Some si → sizes !! j = Some sj →
        default 0 (Vote_Count ri) <= default 0 (Vote_Count rj) →
        fl_leb si sj = true.
Proof.
  apply (plot_sizes_monotone
           [sample_movie 0 10; sample_movie 1 30; sample_movie 2 20] 10 30);
    [reflexivity | reflexivity | lia | lia | unfold int64_max; lia].
Defined.

(** ** Further properties of the genre distribution *)

Lemma bump_total (g : pystr) (acc : list (pystr * nat)) :
  sum_list (map snd (bump g acc)) = S (sum_list (map snd acc)).
Proof.
  induction acc as [|[h c] acc IH]; simpl; [done|].
  destruct (bool_decide (h = g)); simpl; [done|]. rewrite IH. lia.
Qed.

Lemma tally_total (l : list pystr) :
  sum_list (map snd (tally l)) = length l.
Proof.
  unfold tally.
  assert (H : ∀ acc, sum_list (map snd (fold_left (fun acc g => bump g acc) l acc))
                     = (sum_list (map snd acc) + length l)%nat).
  { induction l as [|x l IH]; intros acc; simpl; [lia|].
    rewrite IH, bump_total. lia. }
  by rewrite H.
Qed.

Lemma StronglySorted_weaken {A} (R R' : A -> A -> Prop) (l : list A) :
  (∀ a b, R a b → R' a b) → StronglySorted R l → StronglySorted R' l.
Proof.
  intros HR. induction 1 as [|x l Hs IH Hx]; constructor; [done|].
  eapply Forall_impl; [exact Hx|]. intros y. apply HR.
Qed.

(** X20: when the pie chart is drawn, its rows come most frequent genre
    first, and the counts add up to the number of genre tokens of the
    view. *)
Theorem genre_df_order_and_total (fv : list Movie) (rows : list (pystr * nat)) :
  genre_df fv = Some rows →
  StronglySorted (fun a b => (snd b <= snd a)%nat) rows
  ∧ sum_list (map snd rows) = length (genre_split fv)
  ∧ rows <> [].
Proof.
  unfold genre_df. destruct (_ <? _)%nat; [|done].
  destruct (genre_split fv) as [|t ts] eqn:Hs; [done|]. intros [= <-].
  split; [|split].
  - eapply StronglySorted_weaken; [|apply value_counts_sorted].
    intros a b. apply Nat.leb_le.
  - unfold value_counts.
    rewrite (stable_sort_perm _ (tally (t :: ts))). apply tally_total.
  - intros Hnil.
    assert (Hlen : length (value_counts (t :: ts)) = 0%nat) by by rewrite Hnil.
    assert (Hsum : sum_list (map snd (value_counts (t :: ts))) = 0%nat)
      by by rewrite Hnil.
    unfold value_counts in Hsum.
    rewrite (stable_sort_perm _ (tally (t :: ts))), tally_total in Hsum.
    done.
Qed.

Lemma genre_df_order_and_total_witness :
  StronglySorted (fun a b => (snd b <= snd a)%nat)
    [(py "Animation", 2%nat); (py "Comedy", 2%nat)]
  ∧ sum_list (map snd [(py "Animation", 2%nat); (py "Comedy", 2%nat)])
    = length (genre_split [sample_movie 0 1; sample_movie 1 2])
  ∧ [(py "Animation", 2%nat); (py "Comedy", 2%nat)] <> [].
Proof.
  apply (genre_df_order_and_total [sample_movie 0 1; sample_movie 1 2]).
  reflexivity.
Defined.

(** ** Rating by year *)

Lemma group_of_add (y y' : Z) (x : fl) (groups : list (Z * list fl)) :
  group_of y' (add_to_group y x groups)
  = group_of y' groups ++ (if y =? y' then [x] else []).
Proof.
  induction groups as [|[k xs] groups IH]; simpl.
  - by destruct (y =? y').
  - destruct (Z.eqb_spec k y) as [->|Hne]; simpl.
    + destruct (Z.eqb_spec y y'); [done|]. by rewrite app_nil_r.
    + destruct (Z.eqb_spec k y') as [->|Hne'].
      * destruct (Z.eqb_spec y y'); [congruence|]. by rewrite app_nil_r.
      * apply IH.
Qed.

Lemma add_to_group_keys (y k : Z) (x : fl) (groups : list (Z * list fl)) :
  k ∈ map fst (add_to_group y x groups) ↔ k = y ∨ k ∈ map fst groups.
Proof.
  induction groups as [|[h xs] groups IH]; simpl.
  - rewrite list_elem_of_singleton, elem_of_nil. tauto.
  - destruct (Z.eqb_spec h y) as [->|Hne]; simpl.
    + rewrite !elem_of_cons. tauto.
    + rewrite !elem_of_cons, IH. tauto.
Qed.

Lemma add_to_group_NoDup (y : Z) (x : fl) (groups : list (Z * list fl)) :
  NoDup (map fst groups) → NoDup (map fst (add_to_group y x groups)).
Proof.
  induction groups as [|[h xs] groups IH]; simpl; intros Hnd.
  - repeat constructor. apply not_elem_of_nil.
  - apply NoDup_cons in Hnd as [Hh Hnd].
    destruct (Z.eqb_spec h y) as [->|Hne]; simpl.
    + by constructor.
    + constructor; [|by apply IH].
      rewrite add_to_group_keys. intros [->|H]; done.
Qed.

Lemma group_of_elem_of (y : Z) (xs : list fl) (groups : list (Z * list fl)) :
  NoDup (map fst groups) →
  ((y, xs) ∈ groups ↔ y ∈ map fst groups ∧ xs = group_of y groups).
Proof.
  induction groups as [|[k zs] groups IH]; simpl; intros Hnd.
  - rewrite !elem_of_nil. tauto.
  - apply NoDup_cons in Hnd as [Hk Hnd]. rewrite !elem_of_cons, (IH Hnd).
    destruct (Z.eqb_spec k y) as [->|Hne].
    + split.
      * intros [[= ->]|[Hy _]]; [by split; [left|]|done].
      * intros [_ ->]. by left.
    + split.
      * intros [[= ? ?]|[Hy ->]]; [congruence|]. split; [by right|done].
      * intros [[?|Hy] ->]; [congruence|]. right. by split.
Qed.

(** The groups [groupby] collects, before the keys are sorted. *)
Lemma groups_spec (fv : list Movie) :
  let groups :=
    fold_left (fun acc r => add_to_group (Release_Date r) (Vote_Average r) acc)
              fv [] in
  NoDup (map fst groups)
  ∧ (∀ y, y ∈ map fst groups ↔ ∃ r, r ∈ fv ∧ Release_Date r = y)
  ∧ ∀ y, group_of y groups = ratings_of_year fv y.
Proof.
  pose (collect := fold_left
          (fun acc (r : Movie) =>
             add_to_group (Release_Date r) (Vote_Average r) acc)).
  assert (H : ∀ fv acc, NoDup (map fst acc) →
    NoDup (map fst (collect fv acc))
    ∧ (∀ y, y ∈ map fst (collect fv acc)
            ↔ y ∈ map fst acc ∨ ∃ r, r ∈ fv ∧ Release_Date r = y)
    ∧ ∀ y, group_of y (collect fv acc) = group_of y acc ++ ratings_of_year fv y).
  { clear fv. intros fv.
    induction fv as [|r fv IH]; intros acc Hnd; simpl.
    - split; [done|]. split.
      + intros y. split; [by left|]. intros [H|(r & Hr & _)]; [done|].
        by apply elem_of_nil in Hr.
      + intros y. unfold ratings_of_year. simpl. by rewrite app_nil_r.
    - destruct (IH _ (add_to_group_NoDup (Release_Date r) (Vote_Average r) acc Hnd))
        as (H1 & H2 & H3).
      split; [exact H1|]. split.
      + intros y. rewrite H2, add_to_group_keys. split.
        * intros [[->|H]|(r' & Hr' & Hy)].
          -- right. exists r. split; [left|done].
          -- by left.
          -- right. exists r'. split; [by right|done].
        * intros [H|(r' & Hr' & Hy)]; [left; by right|].
          apply elem_of_cons in Hr' as [->|Hr'].
          -- left. by left.
          -- right. by exists r'.
      + intros y. rewrite H3, group_of_add. unfold ratings_of_year. simpl.
        rewrite <- app_assoc. f_equal.
        by destruct (Release_Date r =? y). }
  intros groups. subst groups. fold (collect fv []).
  destruct (H fv [] (NoDup_nil_2)) as (H1 & H2 & H3).
  split; [exact H1|]. split.
  - intros y. rewrite H2. split; [|by right].
    intros [[]%elem_of_nil|H']; done.
  - intros y. by rewrite H3.
Qed.

Lemma insert_sorted_fst {B} (x : Z * B) (l : list (Z * B)) :
  map fst (insert_sorted by_year x l) = insert_sorted Z.leb (fst x) (map fst l).
Proof.
  induction l as [|y l IH]; simpl; [done|]. unfold by_year at 1.
  destruct (fst x <=? fst y); simpl; [done|]. by rewrite IH.
Qed.

Lemma stable_sort_fst {B} (l : list (Z * B)) :
  map fst (stable_sort by_year l) = stable_sort Z.leb (map fst l).
Proof.
  induction l as [|x l IH]; simpl; [done|].
  by rewrite insert_sorted_fst, IH.
Qed.

Lemma sort_Z_sorted (l : list Z) :
  StronglySorted (fun a b => Z.leb a b = true) (stable_sort Z.leb l).
Proof.
  apply (stable_sort_sorted _ (fun _ => True)).
  - intros x y _ _. rewrite !Z.leb_le. lia.
  - intros x y z _ _ _. rewrite !Z.leb_le. lia.
  - by apply Forall_forall.
Qed.

(** Two strictly ascending lists with the same elements are the same list. *)
Lemma strict_sorted_ext (l k : list Z) :
  StronglySorted Z.lt l → StronglySorted Z.lt k →
  (∀ x, x ∈ l ↔ x ∈ k) → l = k.
Proof.
  intros Hl. revert k. induction Hl as [|a l Hl IH Ha]; intros k Hk Hiff.
  - destruct k as [|b k]; [done|]. exfalso.
    apply (not_elem_of_nil b), Hiff. left.
  - destruct Hk as [|b k Hk Hb].
    { exfalso. apply (not_elem_of_nil a), Hiff. left. }
    rewrite Forall_forall in Ha, Hb.
    assert (a = b) as <-.
    { assert (H1 : a ∈ b :: k) by (apply Hiff; left).
      assert (H2 : b ∈ a :: l) by (apply Hiff; left).
      apply elem_of_cons in H1 as [|H1]; [done|].
      apply elem_of_cons in H2 as [|H2]; [done|].
      specialize (Ha _ H2). specialize (Hb _ H1). lia. }
    f_equal. apply IH; [done|]. intros x. split; intros Hx.
    + assert (Hx' : x ∈ a :: k) by (apply Hiff; by right).
      apply elem_of_cons in Hx' as [->|]; [|done].
      specialize (Ha _ Hx). lia.
    + assert (Hx' : x ∈ a :: l) by (apply Hiff; by right).
      apply elem_of_cons in Hx' as [->|]; [|done].
      specialize (Hb _ Hx). lia.
Qed.

Lemma rating_year_chart (fv : list Movie) :
  map fst (rating_year fv) = years fv
  ∧ ∀ y m, (y, m) ∈ rating_year fv
           ↔ y ∈ years fv ∧ m = group_mean (ratings_of_year fv y).
Proof.
  destruct (groups_spec fv) as (Hnd & Hkeys & Hgrp).
  set (groups := fold_left _ fv []) in *.
  assert (Hmem : ∀ y m, (y, m) ∈ rating_year fv
                 ↔ y ∈ years fv ∧ m = group_mean (ratings_of_year fv y)).
  { intros y m. unfold rating_year, groupby_year. fold groups.
    rewrite stable_sort_elem_of, list_elem_of_fmap. split.
    - intros ([k xs] & [= -> ->] & Hin). simpl.
      rewrite stable_sort_elem_of in Hin.
      apply (group_of_elem_of _ _ _ Hnd) in Hin as [Hk ->].
      split; [by apply years_elem_of, Hkeys|by rewrite Hgrp].
    - intros [Hy ->]. exists (y, group_of y groups). split; [by rewrite Hgrp|].
      rewrite stable_sort_elem_of. apply (group_of_elem_of _ _ _ Hnd).
      split; [|done]. by apply Hkeys, years_elem_of. }
  split; [|exact Hmem].
  assert (Hfst : map fst (rating_year fv)
                 = stable_sort Z.leb (stable_sort Z.leb (map fst groups))).
  { unfold rating_year, groupby_year. fold groups.
    rewrite stable_sort_fst, map_map. simpl.
    change (map (fun x : Z * list fl => fst x)) with (@map _ Z (@fst Z (list fl))).
    by rewrite stable_sort_fst. }
  apply strict_sorted_ext.
  - rewrite Hfst. apply sorted_NoDup_strict; [apply sort_Z_sorted|].
    by rewrite !stable_sort_perm.
  - apply years_strict.
  - intros y. rewrite Hfst, !stable_sort_elem_of, Hkeys.
    symmetry. apply years_elem_of.
Qed.

(** X21: the line chart has one point per release year of the view, the
    years in strictly ascending order (the list [years] gives for the
    view), and the value at a year is the mean of the Vote_Average of the
    view's rows of that year, as [groupby(...).mean()] computes it in
    binary64. *)
Theorem rating_year_spec (fv : list Movie) :
  map fst (rating_year fv) = years fv
  ∧ ∀ y m, (y, m) ∈ rating_year fv
           ↔ y ∈ years fv ∧ m = group_mean (ratings_of_year fv y).
Proof. exact (rating_year_chart fv). Qed.

(** X22: when all rows of a non-empty view share one release year, the line
    chart is a single point, the mean of all the ratings of the view as
    [groupby(...).mean()] computes it, and the Average Rating metric is the
    mean of the same ratings as [Series.mean()] computes it, rounded to two
    decimals.  The two means can differ in the last binary place
    ([one_year_means_differ]); when they are equal, the metric is the point's
    value rounded to two decimals. *)
Theorem rating_year_single_year (fv : list Movie) (y : Z) :
  fv <> [] → Forall (fun r => Release_Date r = y) fv →
  rating_year fv = [(y, group_mean (map Vote_Average fv))]
  ∧ avg_rating fv = round2 (series_mean (map Vote_Average fv))
  ∧ (group_mean (map Vote_Average fv) = series_mean (map Vote_Average fv) →
     ∀ p, p ∈ rating_year fv → avg_rating fv = round2 (snd p)).
Proof.
  intros Hne Hall. rewrite Forall_forall in Hall.
  destruct (rating_year_chart fv) as [Hfst Hmem].
  assert (Hy : years fv = [y]).
  { apply strict_sorted_ext; [apply years_strict|repeat constructor|].
    intros x. rewrite years_elem_of, list_elem_of_singleton. split.
    - intros (r & Hr & <-). by apply Hall.
    - intros ->. destruct fv as [|r fv']; [done|]. exists r.
      split; [left|]. apply Hall. left. }
  assert (Hrat : ratings_of_year fv y = map Vote_Average fv).
  { unfold ratings_of_year. f_equal. apply filter_all.
    intros r Hr. apply Z.eqb_eq. by apply Hall. }
  split; [|split].
  - rewrite Hy in Hfst.
    destruct (rating_year fv) as [|[k m] [|p rest]] eqn:Hr; try done.
    simpl in Hfst. injection Hfst as ->.
    assert (Hin : (y, m) ∈ [(y, m)]) by left.
    apply Hmem in Hin as [_ ->]. by rewrite Hrat.
  - unfold avg_rating, total_movies. by destruct fv.
  - intros Heq p Hp.
    assert (Hone : rating_year fv = [(y, group_mean (map Vote_Average fv))]).
    { rewrite Hy in Hfst.
      destruct (rating_year fv) as [|[k m] [|p' rest]] eqn:Hr; try done.
      simpl in Hfst. injection Hfst as ->.
      assert (Hin : (y, m) ∈ [(y, m)]) by left.
      apply Hmem in Hin as [_ ->]. by rewrite Hrat. }
    rewrite Hone in Hp. apply list_elem_of_singleton in Hp as ->. simpl.
    rewrite Heq. unfold avg_rating, total_movies. by destruct fv.
Qed.

Lemma rating_year_single_year_witness :
  rating_year [sample_movie 0 1; sample_movie 1 2]
  = [(2009, group_mean (map Vote_Average [sample_movie 0 1; sample_movie 1 2]))]
  ∧ avg_rating [sample_movie 0 1; sample_movie 1 2]
    = round2 (series_mean (map Vote_Average [sample_movie 0 1; sample_movie 1 2]))
  ∧ (group_mean (map Vote_Average [sample_movie 0 1; sample_movie 1 2])
     = series_mean (map Vote_Average [sample_movie 0 1; sample_movie 1 2]) →
     ∀ p, p ∈ rating_year [sample_movie 0 1; sample_movie 1 2] →
          avg_rating [sample_movie 0 1; sample_movie 1 2] = round2 (snd p)).
Proof.
  apply (rating_year_single_year [sample_movie 0 1; sample_movie 1 2] 2009).
  - discriminate.
  - repeat constructor.
Defined.

(** Three films of 2009 rated 6.5, 7.2 and 8.1: the chart shows
    7.266666666666667, the compensated mean, and the metric rounds
    7.266666666666666, the mean of [Series.mean()]. *)
Example one_year_means_differ :
  let fv := [rated_film 0 (65 # 10); rated_film 1 (72 # 10);
             rated_film 2 (81 # 10)] in
  rating_year fv = [(2009, Finite (8181539323056401 # 1125899906842624))]
  ∧ series_mean (map Vote_Average fv) = Finite (511346207691025 # 70368744177664)
  ∧ avg_rating fv = Finite (2046323080686469 # 281474976710656).
Proof. by vm_compute. Qed.

(** ** Bounds of the averages *)

Lemma pairwise_sum_S (fuel : nat) (l : list fl) :
  pairwise_sum (S fuel) l
  = if (length l <? 8)%nat then fold_left fl_add l (Finite 0)
    else if (length l <=? 128)%nat then sum_block l
    else fl_add (pairwise_sum fuel
                   (take (length l / 2 - (length l / 2) mod 8)%nat l))
                (pairwise_sum fuel
                   (drop (length l / 2 - (length l / 2) mod 8)%nat l)).
Proof. reflexivity. Qed.

Section SumBounds.
(** Numbers between two whole numbers [lo] and [hi], few enough for the
    whole-number bounds of every partial sum to be binary64 values: however
    the additions are grouped, a sum of [k] of them stays between [k lo] and
    [k hi]. *)
Variables lo hi : Z.
Hypothesis Hlo : - 2 ^ 26 <= lo <= 2 ^ 26.
Hypothesis Hhi : - 2 ^ 26 <= hi <= 2 ^ 26.

#[local] Abbreviation within := (sum_within lo hi).

Lemma within_zero : within 0 (Finite 0).
Proof.
  exists 0%Q. split; [done|]. rewrite !Z.mul_0_l. change (inject_Z 0) with 0%Q. lra.
Qed.

Lemma within_add (k1 k2 : Z) (x y : fl) :
  0 <= k1 → 0 <= k2 → k1 + k2 <= 2 ^ 26 →
  within k1 x → within k2 y → within (k1 + k2) (fl_add x y).
Proof.
  intros H1 H2 Hk (a & -> & Ha) (b & -> & Hb). simpl.
  apply b64_between_Z; [nia|nia|].
  rewrite !Z.mul_add_distr_r, !inject_Z_plus. lra.
Qed.

Lemma within_fold (l : list fl) (k : Z) (a : fl) :
  0 <= k → k + Z.of_nat (length l) <= 2 ^ 26 →
  Forall (within 1) l → within k a →
  within (k + Z.of_nat (length l)) (fold_left fl_add l a).
Proof.
  revert k a. induction l as [|x l IH]; intros k a Hk Hn Hall Ha.
  - simpl. by rewrite Z.add_0_r.
  - apply Forall_cons in Hall as [Hx Hall].
    simpl length in *. rewrite Nat2Z.inj_succ in *. simpl.
    replace (k + Z.succ (Z.of_nat (length l)))
      with (k + 1 + Z.of_nat (length l)) by lia.
    apply IH; [lia|lia|done|]. apply within_add; [lia|lia|lia|done|done].
Qed.

Lemma within_sum8 (k : Z) (r : list fl) :
  0 <= k → 8 * k <= 2 ^ 26 → length r = 8%nat → Forall (within k) r →
  within (8 * k) (sum8 r).
Proof.
  intros Hk Hn Hlen Hall.
  destruct r as [|r0 [|r1 [|r2 [|r3 [|r4 [|r5 [|r6 [|r7 [|? ?]]]]]]]]];
    try done.
  apply Forall_cons in Hall as [H0 Hall]. apply Forall_cons in Hall as [H1 Hall].
  apply Forall_cons in Hall as [H2 Hall]. apply Forall_cons in Hall as [H3 Hall].
  apply Forall_cons in Hall as [H4 Hall]. apply Forall_cons in Hall as [H5 Hall].
  apply Forall_cons in Hall as [H6 Hall]. apply Forall_cons in Hall as [H7 _].
  unfold sum8.
  replace (8 * k) with (k + k + (k + k) + (k + k + (k + k))) by lia.
  repeat apply within_add; try done; lia.
Qed.

Lemma within_zip_add (k : Z) (r c : list fl) :
  0 <= k → k + 1 <= 2 ^ 26 →
  Forall (within k) r → Forall (within 1) c →
  Forall (within (k + 1)) (zip_with fl_add r c).
Proof.
  intros Hk Hn Hr. revert c. induction Hr as [|x r Hx _ IH]; intros c Hc.
  - constructor.
  - destruct Hc as [|y c Hy Hc]; simpl; constructor; [|by apply IH].
    apply within_add; [lia|lia|lia|done|done].
Qed.

Lemma within_add_chunks (fuel : nat) (k : Z) (r l : list fl) :
  0 <= k → 8 * k + Z.of_nat (length l) <= 2 ^ 26 →
  length r = 8%nat → Forall (within k) r → Forall (within 1) l →
  ∃ k', k <= k'
        ∧ 8 * k' + Z.of_nat (length (add_chunks fuel r l).2)
          = 8 * k + Z.of_nat (length l)
        ∧ length (add_chunks fuel r l).1 = 8%nat
        ∧ Forall (within k') (add_chunks fuel r l).1
        ∧ Forall (within 1) (add_chunks fuel r l).2.
Proof.
  revert k r l. induction fuel as [|fuel IH]; intros k r l Hk Hn Hlen Hr Hl;
    cbn [add_chunks].
  - exists k. cbn [fst snd]. split; [lia|]. split; [lia|]. done.
  - destruct (Nat.leb_spec 8 (length l)) as [H8|H8].
    2:{ exists k. cbn [fst snd]. split; [lia|]. split; [lia|]. done. }
    destruct (IH (k + 1) (zip_with fl_add r (take 8 l)) (drop 8 l))
      as (k' & Hk' & Hsum & Hlen' & Hr' & Hl').
    + lia.
    + rewrite length_drop. lia.
    + rewrite length_zip_with_l_eq; [done|]. rewrite length_take. lia.
    + apply within_zip_add; [lia|lia|done|by apply Forall_take].
    + by apply Forall_drop.
    + exists k'. rewrite length_drop in Hsum. repeat split; try done; lia.
Qed.

Lemma within_sum_block (l : list fl) :
  (8 <= length l)%nat → Z.of_nat (length l) <= 2 ^ 26 →
  Forall (within 1) l → within (Z.of_nat (length l)) (sum_block l).
Proof.
  intros H8 Hn Hall. unfold sum_block.
  destruct (within_add_chunks (length l) 1 (take 8 l) (drop 8 l))
    as (k' & Hk' & Hsum & Hlen & Hr & Hrest).
  - lia.
  - rewrite length_drop. lia.
  - rewrite length_take. lia.
  - by apply Forall_take.
  - by apply Forall_drop.
  - destruct (add_chunks _ _ _) as [r rest]. simpl in *.
    rewrite length_drop in Hsum.
    replace (Z.of_nat (length l)) with (8 * k' + Z.of_nat (length rest)) by lia.
    apply within_fold; [lia|lia|done|]. apply within_sum8; [lia|lia|done|done].
Qed.

Lemma within_pairwise (fuel : nat) (l : list fl) :
  (length l <= fuel)%nat → Z.of_nat (length l) <= 2 ^ 26 →
  Forall (within 1) l → within (Z.of_nat (length l)) (pairwise_sum fuel l).
Proof.
  revert l. induction fuel as [|fuel IH]; intros l Hf Hn Hall.
  - destruct l; [|simpl in Hf; lia]. apply within_zero.
  - rewrite pairwise_sum_S.
    destruct (Nat.ltb_spec (length l) 8) as [H8|H8].
    { rewrite <- (Z.add_0_l (Z.of_nat (length l))).
      apply within_fold; [lia|lia|done|apply within_zero]. }
    destruct (Nat.leb_spec (length l) 128) as [H128|H128].
    { by apply within_sum_block. }
    set (n2 := (length l / 2 - (length l / 2) mod 8)%nat).
    assert (Hn2 : (0 < n2 < length l)%nat).
    { unfold n2. pose proof (Nat.mod_upper_bound (length l / 2) 8).
      pose proof (Nat.div_lt (length l) 2).
      assert (64 <= length l / 2)%nat.
      { apply Nat.div_le_lower_bound; lia. }
      lia. }
    assert (Ht : length (take n2 l) = n2) by (rewrite length_take; lia).
    assert (Hd : length (drop n2 l) = (length l - n2)%nat) by apply length_drop.
    replace (Z.of_nat (length l))
      with (Z.of_nat (length (take n2 l)) + Z.of_nat (length (drop n2 l))) by lia.
    apply within_add; [lia|lia|lia|..].
    + apply IH; [lia|lia|by apply Forall_take].
    + apply IH; [lia|lia|by apply Forall_drop].
Qed.

Lemma within_np_sum (l : list fl) :
  Z.of_nat (length l) <= 2 ^ 26 →
  Forall (within 1) l → within (Z.of_nat (length l)) (np_sum l).
Proof.
  intros Hn Hall. unfold np_sum.
  rewrite <- (Z.add_0_l (Z.of_nat (length l))).
  apply within_add; [lia|lia|lia|apply within_zero|].
  by apply within_pairwise.
Qed.
End SumBounds.

Lemma fillna0_finite (qs : list Q) : map fillna0 (map Finite qs) = map Finite qs.
Proof. induction qs as [|q qs IH]; simpl; [done|]. by rewrite IH. Qed.

(** The mean of numbers between two whole numbers lies between them. *)
Lemma series_mean_bounds (lo hi : Z) (qs : list Q) :
  qs <> [] → Z.of_nat (length qs) <= 2 ^ 26 →
  - 2 ^ 26 <= lo → hi <= 2 ^ 26 →
  Forall (fun q => (inject_Z lo <= q <= inject_Z hi)%Q) qs →
  ∃ m, series_mean (map Finite qs) = Finite m
       ∧ (inject_Z lo <= m <= inject_Z hi)%Q.
Proof.
  intros Hne Hn Hlo Hhi Hall.
  assert (Hlh : lo <= hi).
  { destruct qs as [|q qs]; [done|]. apply Forall_cons in Hall as [[H1 H2] _].
    rewrite Zle_Qle. by apply (Qle_trans _ q). }
  assert (Hlen : 0 < Z.of_nat (length qs)) by (destruct qs; [done|simpl; lia]).
  unfold series_mean.
  rewrite filter_not_nan_finite, fillna0_finite, length_map.
  destruct (within_np_sum lo hi) with (l := map Finite qs) as (s & -> & Hs1 & Hs2);
    [lia|lia|by rewrite length_map| |].
  { apply Forall_fmap. eapply Forall_impl; [exact Hall|].
    intros q Hq. exists q. split; [done|]. by rewrite !Z.mul_1_l. }
  rewrite length_map, inject_Z_mult in Hs1, Hs2.
  rewrite of_int_small by lia.
  assert (Hnq : (0 < inject_Z (Z.of_nat (length qs)))%Q).
  { by rewrite <- (Zlt_Qlt 0). }
  rewrite fl_div_finite by lra.
  apply b64_between_Z; [lia|lia|].
  split; [apply Qle_shift_div_l|apply Qle_shift_div_r]; try done; lra.
Qed.

(** Rounding to two decimals keeps a number between two whole numbers. *)
Lemma round2_bounds (lo hi : Z) (q : Q) :
  - 2 ^ 26 <= lo → hi <= 2 ^ 26 →
  (inject_Z lo <= q <= inject_Z hi)%Q →
  ∃ r, round2 (Finite q) = Finite r ∧ (inject_Z lo <= r <= inject_Z hi)%Q.
Proof.
  intros Hlo Hhi [H1 H2].
  assert (Hlh : lo <= hi) by (rewrite Zle_Qle; by apply (Qle_trans _ q)).
  unfold round2. rewrite of_int_100. unfold fl_mul.
  destruct (b64_between_Z (lo * 100) (hi * 100) (q * 100)) as (p & -> & Hp1 & Hp2);
    [lia|lia| |].
  { rewrite !inject_Z_mult. change (inject_Z 100) with 100%Q. split; lra. }
  unfold rint.
  assert (Hk1 : lo * 100 <= Qrint p) by (by apply Qrint_ge).
  assert (Hk2 : Qrint p <= hi * 100) by (by apply Qrint_le).
  rewrite b64_Z by lia. rewrite fl_div_finite by discriminate.
  apply b64_between_Z; [lia|lia|].
  rewrite Zle_Qle in Hk1, Hk2. rewrite inject_Z_mult in Hk1, Hk2.
  change (inject_Z 100) with 100%Q in *.
  set (k := inject_Z (Qrint p)) in *.
  assert (Hk : (k / 100 == k * (1 # 100))%Q) by (unfold Qdiv; reflexivity).
  rewrite Hk. split; lra.
Qed.

Lemma finite_column {A} (f : A -> fl) (l : list A) (P : Q -> Prop) :
  Forall (fun r => ∃ q, f r = Finite q ∧ P q) l →
  ∃ qs, map f l = map Finite qs ∧ Forall P qs.
Proof.
  induction 1 as [|r l (q & Hq & HP) _ (qs & Hqs & Hall)].
  - by exists [].
  - exists (q :: qs). simpl. rewrite Hq, Hqs. split; [done|by constructor].
Qed.

Lemma round2_mean_bounds (lo hi : Z) (qs : list Q) :
  qs <> [] → Z.of_nat (length qs) <= 2 ^ 26 →
  - 2 ^ 26 <= lo → hi <= 2 ^ 26 →
  Forall (fun q => (inject_Z lo <= q <= inject_Z hi)%Q) qs →
  ∃ r, round2 (series_mean (map Finite qs)) = Finite r
       ∧ (inject_Z lo <= r <= inject_Z hi)%Q.
Proof.
  intros Hne Hn Hlo Hhi Hall.
  destruct (series_mean_bounds lo hi qs Hne Hn Hlo Hhi Hall) as (m & -> & Hm).
  by apply round2_bounds.
Qed.

(** X23: the two averages stay within the data, as long as no sum can leave
    the whole numbers binary64 holds exactly: if a non-empty view has at
    most 2^26 rows and every Vote_Average is a number between two whole
    numbers within ±2^26 (say 0 and 10), so is the Average Rating shown,
    rounding included; likewise for Popularity. *)
Theorem averages_within_bounds (fv : list Movie) (lo hi lo' hi' : Z) :
  fv <> [] → Z.of_nat (length fv) <= 2 ^ 26 →
  - 2 ^ 26 <= lo → hi <= 2 ^ 26 → - 2 ^ 26 <= lo' → hi' <= 2 ^ 26 →
  Forall (fun r => ∃ q, Vote_Average r = Finite q
                        ∧ (inject_Z lo <= q <= inject_Z hi)%Q) fv →
  Forall (fun r => ∃ q, Popularity r = Finite q
                        ∧ (inject_Z lo' <= q <= inject_Z hi')%Q) fv →
  (∃ a, avg_rating fv = Finite a ∧ (inject_Z lo <= a <= inject_Z hi)%Q)
  ∧ (∃ p, avg_popularity fv = Finite p ∧ (inject_Z lo' <= p <= inject_Z hi')%Q).
Proof.
  intros Hne Hn Hlo Hhi Hlo' Hhi' Hva Hpop.
  apply finite_column in Hva as (qs & Hqs & Hb).
  apply finite_column in Hpop as (ps & Hps & Hb').
  assert (Hql : length qs = length fv).
  { rewrite <- (length_map Finite qs), <- Hqs. apply length_map. }
  assert (Hpl : length ps = length fv).
  { rewrite <- (length_map Finite ps), <- Hps. apply length_map. }
  assert (Hqne : qs <> []) by (intros ->; by destruct fv).
  assert (Hpne : ps <> []) by (intros ->; by destruct fv).
  unfold avg_rating, avg_popularity, total_movies.
  destruct fv as [|r fv]; [done|]. simpl Nat.ltb. cbv iota.
  rewrite Hqs, Hps. split; apply round2_mean_bounds; try done; congruence.
Qed.

Lemma averages_within_bounds_witness :
  (∃ a, avg_rating [sample_movie 0 1; sample_movie 1 2] = Finite a
        ∧ (inject_Z 0 <= a <= inject_Z 10)%Q)
  ∧ (∃ p, avg_popularity [sample_movie 0 1; sample_movie 1 2] = Finite p
          ∧ (inject_Z 0 <= p <= inject_Z 100)%Q).
Proof.
  apply (averages_within_bounds [sample_movie 0 1; sample_movie 1 2] 0 10 0 100).
  - discriminate.
  - by vm_compute.
  - lia.
  - lia.
  - lia.
  - lia.
  - repeat constructor; eexists; (split; [reflexivity|]); split; vm_compute; discriminate.
  - repeat constructor; eexists; (split; [reflexivity|]); split; vm_compute; discriminate.
Defined.

(** The same two averages leave the data once a sum overflows: two films as
    popular as binary64 allows have an infinite average popularity. *)
Example avg_popularity_overflow :
  avg_popularity [huge_film 0; huge_film 1] = Inf false.
Proof. vm_compute. reflexivity. Qed.

(** ** The Total Movies metric *)

Lemma chars_uint_chars (u : Decimal.uint) : chars_uint (uint_chars u) = Some u.
Proof. induction u; simpl; [done|by rewrite IHu..]. Qed.

Lemma uint_chars_digits (u : Decimal.uint) :
  Forall (fun c => is_digit c = true) (uint_chars u).
Proof. induction u; simpl; [constructor|by constructor..]. Qed.

Lemma int_of_str_int (n : nat) : int_of_digits (str_int n) = Some n.
Proof.
  unfold int_of_digits, str_int. rewrite chars_uint_chars. simpl.
  by rewrite DecimalNat.Unsigned.of_to.
Qed.

Lemma str_int_nonempty (n : nat) : str_int n <> [].
Proof.
  unfold str_int.
  assert (H : Nat.to_uint n = Decimal.unorm (Nat.to_uint n)).
  { rewrite <- DecimalNat.Unsigned.to_of. by rewrite DecimalNat.Unsigned.of_to. }
  rewrite H. unfold Decimal.unorm.
  by destruct (Decimal.nzhead (Nat.to_uint n)).
Qed.

Lemma remove_commas_digits (s : pystr) :
  Forall (fun c => is_digit c = true) s → remove_commas s = s.
Proof.
  intros H. apply filter_all. rewrite Forall_forall in H.
  intros c Hc. specialize (H c Hc). unfold is_digit, comma in *.
  apply andb_true_iff in H as [H1 H2]. apply N.leb_le in H1.
  apply negb_true_iff, N.eqb_neq. lia.
Qed.

(** What [group3] does to a non-empty string: it cuts it into groups of
    three followed by a last group of one to three, and puts a comma after
    each group of three. *)
Lemma group3_spec (l : pystr) :
  l <> [] →
  ∃ groups last,
    l = concat groups ++ last
    ∧ group3 l = flat_map (fun g => g ++ [comma]) groups ++ last
    ∧ Forall (fun g => length g = 3%nat) groups
    ∧ (1 <= length last <= 3)%nat.
Proof.
  assert (H : ∀ n l, (length l <= n)%nat → l <> [] →
    ∃ groups last,
      l = concat groups ++ last
      ∧ group3 l = flat_map (fun g => g ++ [comma]) groups ++ last
      ∧ Forall (fun g => length g = 3%nat) groups
      ∧ (1 <= length last <= 3)%nat).
  { clear l. induction n as [|n IH]; intros l Hlen Hne.
    { destruct l; [done|simpl in Hlen; lia]. }
    destruct l as [|a [|b [|c [|d rest]]]]; [done|..].
    - exists [], [a]. simpl. repeat split; (done || lia || constructor).
    - exists [], [a; b]. simpl. repeat split; (done || lia || constructor).
    - exists [], [a; b; c]. simpl. repeat split; (done || lia || constructor).
    - destruct (IH (d :: rest)) as (groups & last & Hl & Hg & Hall & Hlast).
      { simpl in *. lia. } { done. }
      exists ([a; b; c] :: groups), last.
      split; [simpl; by rewrite <- Hl|].
      split; [|split; [by constructor|done]].
      change (group3 (a :: b :: c :: d :: rest))
        with (a :: b :: c :: comma :: group3 (d :: rest)).
      rewrite Hg. reflexivity. }
  intros Hne. by apply (H (length l)).
Qed.

Lemma rev_flat_map {A B} (f : A -> list B) (l : list A) :
  rev (flat_map f l) = flat_map (fun x => rev (f x)) (rev l).
Proof.
  induction l as [|x l IH]; simpl; [done|].
  rewrite rev_app_distr, IH, flat_map_app. simpl. by rewrite app_nil_r.
Qed.

Lemma remove_commas_group3 (l : pystr) :
  remove_commas (group3 l) = remove_commas l.
Proof.
  destruct l as [|x l']; [done|].
  destruct (group3_spec (x :: l')) as (groups & last & Hl & Hg & _ & _); [done|].
  rewrite Hg. rewrite Hl at 1. unfold remove_commas.
  rewrite !List.filter_app. f_equal.
  clear. induction groups as [|g groups IH]; simpl; [done|].
  rewrite !List.filter_app, IH. simpl. by rewrite app_nil_r.
Qed.

(** X24: the Total Movies text is the row count in decimal with commas as
    thousands separators: it starts with one to three digits, every comma
    is followed by a group of exactly three digits, and with the commas
    taken out it reads back as the number of rows of the view. *)
Theorem total_movies_text_spec (fv : list Movie) :
  int_of_digits (remove_commas (total_movies_text fv)) = Some (length fv)
  ∧ ∃ first groups,
      total_movies_text fv = first ++ flat_map (fun g => comma :: g) groups
      ∧ (1 <= length first <= 3)%nat
      ∧ Forall (fun g => length g = 3%nat) groups
      ∧ Forall (fun c => is_digit c = true) (first ++ concat groups).
Proof.
  unfold total_movies_text, total_movies, format_thousands.
  set (n := length fv). split.
  - unfold remove_commas. rewrite List.filter_rev.
    fold (remove_commas (group3 (rev (str_int n)))).
    rewrite remove_commas_group3. unfold remove_commas.
    rewrite <- List.filter_rev, rev_involutive.
    fold (remove_commas (str_int n)).
    rewrite remove_commas_digits by apply uint_chars_digits.
    apply int_of_str_int.
  - destruct (group3_spec (rev (str_int n))) as (groups & last & Hl & Hg & Hall & Hlast).
    { intros H. apply (str_int_nonempty n).
      by rewrite <- (rev_involutive (str_int n)), H. }
    exists (rev last), (map (@rev N) (rev groups)).
    split; [|split; [by rewrite length_rev|split]].
    + rewrite Hg, rev_app_distr, rev_flat_map. f_equal.
      rewrite flat_map_concat_map, flat_map_concat_map, map_map. f_equal.
      apply map_ext. intros g. by rewrite rev_app_distr.
    + apply Forall_fmap, Forall_forall. intros g Hg'. simpl.
      rewrite length_rev. rewrite Forall_forall in Hall. apply Hall.
      apply list_elem_of_In, in_rev. by apply list_elem_of_In.
    + assert (Hd : Forall (fun c => is_digit c = true) (rev (str_int n))).
      { apply Forall_rev, uint_chars_digits. }
      rewrite Hl in Hd. apply Forall_app in Hd as [Hd1 Hd2].
      apply Forall_app. split; [by apply Forall_rev|].
      apply Forall_forall. intros c Hc.
      apply list_elem_of_In, in_concat in Hc as (g & Hg1 & Hg2).
      apply in_map_iff in Hg1 as (g' & <- & Hg').
      apply in_rev in Hg2, Hg'.
      rewrite Forall_forall in Hd1. apply Hd1, list_elem_of_In, in_concat.
      by exists g'.
Qed.

Example format_thousands_4321 : format_thousands 4321 = py "4,321".
Proof. reflexivity. Qed.

Example format_thousands_999 : format_thousands 999 = py "999".
Proof. reflexivity. Qed.

(** ** Placeholders *)

Lemma genre_split_nil (fv : list Movie) :
  genre_split fv = [] ↔ Forall (fun r => genre_tokens (Genre r) = []) fv.
Proof.
  unfold genre_split. induction fv as [|r fv IH]; simpl.
  - split; [constructor|done].
  - rewrite Forall_cons, <- IH. split.
    + intros H. by apply app_eq_nil in H.
    + intros [-> ->]. done.
Qed.

Lemma scale_sizes_Some (vals : list Z) :
  vals <> [] → ∃ out, scale_sizes vals = Some out.
Proof.
  intros Hne. destruct vals as [|v vals]; [done|].
  unfold scale_sizes. simpl array_max. simpl array_min. cbv iota beta.
  destruct (0 <? _); by eexists.
Qed.

(** X25: which parts of the page fall back to a notice.  The line chart,
    the top-10 chart and the scatter plot are replaced exactly when the view
    is empty; the pie chart is replaced exactly when no row of the view has
    a genre token (an empty view included); an empty view shows 0, 0.0 and
    0.0 as its metrics. *)
Theorem placeholders (df : list Movie) (w : widgets) :
  let p := run df w in
  (tab1 (view p) = None ↔ view p = [])
  ∧ (tab2 p = None ↔ view p = [])
  ∧ (tab4 p = None ↔ view p = [])
  ∧ (tab3 p = None ↔ Forall (fun r => genre_tokens (Genre r) = []) (view p))
  ∧ (view p = [] →
     total_movies_text (view p) = py "0"
     ∧ kpi_rating p = Finite 0 ∧ kpi_popularity p = Finite 0).
Proof.
  intros p. subst p. unfold run. cbn [view tab2 tab3 tab4 kpi_rating kpi_popularity].
  set (fv := filtered_df df (selected_years w) (selected_genres w)).
  split; [|split; [|split; [|split]]].
  - unfold tab1, total_movies. by destruct fv.
  - unfold total_movies. by destruct fv.
  - unfold plot_sizes, total_movies. destruct fv as [|r fv']; [done|].
    simpl Nat.ltb. cbv iota. split; [|done].
    destruct (scale_sizes_Some (size_vals (r :: fv'))) as [out Hout]; [done|].
    by rewrite Hout.
  - rewrite <- genre_split_nil. unfold genre_df, total_movies.
    destruct fv as [|r fv']; [done|]. simpl Nat.ltb. cbv iota.
    by destruct (genre_split (r :: fv')).
  - intros ->. done.
Qed.

(** ** Selections as unions *)

(** X26: selecting several years or several genres widens the view: a row
    is shown for a selection of genres exactly when it is shown for one of
    the selected genres alone, and for a selection of years exactly when it
    is shown for one of the selected years alone. *)
Theorem filtered_df_unions (df : list Movie) (ys : list Z) (g : pystr)
    (gs : list pystr) (r : Movie) :
  (r ∈ filtered_df df ys (g :: gs)
   ↔ ∃ sel, sel ∈ g :: gs ∧ r ∈ filtered_df df ys [sel])
  ∧ (r ∈ filtered_df df ys (g :: gs)
     ↔ ∃ y, y ∈ ys ∧ r ∈ filtered_df df [y] (g :: gs)).
Proof.
  split.
  - rewrite filtered_df_in. split.
    + intros (Hr & Hy & [|(sel & t & Hsel & Ht & Hs)]); [done|].
      exists sel. split; [done|]. apply filtered_df_in.
      split; [done|]. split; [done|]. right. exists sel, t.
      split; [left|done].
    + intros (sel & Hsel & (Hr & Hy & [|(sel' & t & Hs' & Ht & Hs)])%filtered_df_in);
        [done|].
      apply list_elem_of_singleton in Hs' as ->.
      split; [done|]. split; [done|]. right. by exists sel, t.
  - rewrite filtered_df_in. split.
    + intros (Hr & Hy & Hg). exists (Release_Date r). split; [done|].
      apply filtered_df_in. split; [done|]. split; [left|done].
    + intros (y & Hy & (Hr & Hy' & Hg)%filtered_df_in).
      apply list_elem_of_singleton in Hy'. rewrite Hy'.
      by split; [|split].
Qed.

Lemma split_on_chars (sep c : N) (s t : pystr) :
  t ∈ split_on sep s → c ∈ t → c ∈ s.
Proof.
  revert t. induction s as [|a s IH]; intros t; simpl.
  - by intros ->%list_elem_of_singleton.
  - destruct (a =? sep)%N.
    + intros [->|Ht]%elem_of_cons Hc; [by apply elem_of_nil in Hc|].
      right. by apply (IH t).
    + destruct (split_on sep s) as [|t0 ts] eqn:Hs.
      * intros ->%list_elem_of_singleton Hc.
        apply list_elem_of_singleton in Hc as ->. left.
      * intros [->|Ht]%elem_of_cons Hc.
        -- apply elem_of_cons in Hc as [->|Hc]; [left|].
           right. apply (IH t0); [left|done].
        -- right. apply (IH t); [by right|done].
Qed.

(** X27: after loading, no genre offered in the sidebar contains a carriage
    return (line 32 removes them from the Genre column). *)
Theorem all_genres_no_carriage_return (parse_number : pystr -> option fl)
    (repr_number : fl -> pystr) (sh : sheet) (df : list Movie) :
  load_data parse_number repr_number sh = Ok df →
  Forall (fun g => cr ∉ g) (all_genres df).
Proof.
  intros Hload.
  destruct (load_data_row _ _ _ _ Hload) as (c & _ & Hrows).
  assert (Hclean : ∀ m, m ∈ df → cr ∉ Genre m).
  { intros m Hm. destruct (Hrows m Hm) as (r & vc & _ & _ & _ & -> & _).
    destruct (c_genre c).
    - intros Hc%strip_elem_of. by apply (remove_cr_no_cr _ Hc).
    - intros Hc%strip_elem_of. by apply elem_of_nil in Hc. }
  apply Forall_forall. intros g Hg. unfold all_genres in Hg.
  rewrite stable_sort_elem_of, unique_elem_of in Hg.
  apply genre_split_elem_of in Hg as (_ & m & t & Hm & Ht & <-).
  intros Hc%strip_elem_of. apply (Hclean m Hm).
  by apply (split_on_chars comma cr (Genre m) t).
Qed.

Lemma all_genres_no_carriage_return_witness :
  Forall (fun g => cr ∉ g) (all_genres [big_1988]).
Proof.
  apply (all_genres_no_carriage_return no_parse no_repr messy_sheet [big_1988]).
  reflexivity.
Defined.
